(** * SPSCQueue: the single-producer/single-consumer ring of
      include/bm/bm_sim/spsc_queue.h

    The queue is embedded shallowly.  64-bit unsigned counters ([index_t],
    [size_t], [uint64_t]) are integers in [0, 2^64) with the wrap-around
    written out.  Every member function of the class is cut at its accesses
    to shared memory: the producer and the consumer are two sequential
    programs with a program counter each, and an execution of the queue is an
    interleaving of their steps.  The shared indices and events are
    [std::atomic] objects read and written through their default operators
    (sequentially consistent), the semaphores work under their mutex, and
    every other member is written by one thread only. *)

From Stdlib Require Import ZArith List Bool Lia.
Import ListNotations.

Local Open Scope Z_scope.

(** ** 64-bit unsigned arithmetic *)

Definition index_bits : Z := 64.
Definition modulus : Z := 2 ^ index_bits.

(** [index_t(e)]: the value of a 64-bit unsigned expression. *)
Definition wrap (z : Z) : Z := z mod modulus.

Definition is_index (z : Z) : Prop := 0 <= z < modulus.

(** [index_t(a - b)] *)
Definition dist (a b : Z) : Z := wrap (a - b).

(** The comparison of [cons_notify] and [prod_notify]:
    [index_t(now - event - 1) < index_t(now - old)]. *)
Definition crossed (now old event : Z) : bool :=
  wrap (now - event - 1) <? wrap (now - old).

(** [event] lies in the half-open interval (old - 1, now - 1] of the 64-bit
    circle: it is one of the [index_t(now - old)] counters [now - 1],
    [now - 2], ..., [old] that the advance from [old] to [now] went over. *)
Definition in_crossed_interval (now old event : Z) : Prop :=
  exists k, 0 <= k < dist now old /\ event = wrap (now - 1 - k).

Ltac unwrap :=
  unfold dist, wrap, is_index, modulus, index_bits in *;
  change (2 ^ 64) with 18446744073709551616 in *.

(** Linear arithmetic over wrapped expressions: every [mod] and [/] is
    replaced by its Euclidean equation. *)
Ltac wrap_lia := unwrap; Z.div_mod_to_equations; lia.

(** ** Running a sequential program

    [next] is the step function of a thread over the shared state [Q] and
    its own state [L]; [finished] tells that the thread is outside any
    call. *)

Section Run.

Context {Q L : Type}.
Variable next : Q -> L -> option (Q * L).
Variable finished : L -> bool.

Fixpoint run (fuel : nat) (q : Q) (l : L) : option (Q * L) :=
  if finished l then Some (q, l)
  else match fuel with
       | O => None
       | S fuel' =>
           match next q l with
           | Some (q', l') => run fuel' q' l'
           | None => None
           end
       end.

(** [runs n q l q' l']: exactly [n] steps lead from the one to the other. *)
Inductive runs : nat -> Q -> L -> Q -> L -> Prop :=
| runs_done q l : runs O q l q l
| runs_step n q l q1 l1 q2 l2 :
    next q l = Some (q1, l1) ->
    runs n q1 l1 q2 l2 ->
    runs (S n) q l q2 l2.

End Run.

(** ** The element type

    [SPSCQueue<T>] only default-constructs, assigns and moves its elements.
    The template argument is an interface: what a default-constructed slot
    holds, what the destination of a copy holds, and what a move leaves in
    its destination and in its source. *)

Class Element (T : Type) := {
  elt_default : T;
  elt_copy : T -> T;
  elt_move : T -> T * T
}.

(** Copying and moving hand over the value unchanged. *)
Definition identity_semantics (T : Type) `{Element T} : Prop :=
  forall x : T, elt_copy x = x /\ fst (elt_move x) = x.

(** The two overloads of [push_front]: [T&&] moves, [const T&] copies. *)
Inductive passing := By_move | By_copy.

Definition elt_forward {T} `{Element T} (how : passing) (x : T) : T :=
  match how with
  | By_move => fst (elt_move x)
  | By_copy => elt_copy x
  end.

(** ** Semaphore *)

Record Semaphore := { flag : bool }.

(** [Semaphore()] *)
Definition Semaphore_new : Semaphore := {| flag := false |}.

(** [signal()]: sets the flag (and wakes the waiter, if any). *)
Definition signal (s : Semaphore) : Semaphore := {| flag := true |}.

(** [wait()]: returns only once the flag is set, and clears it; [None] while
    the caller has to stay parked. *)
Definition wait (s : Semaphore) : option Semaphore :=
  if flag s then Some {| flag := false |} else None.

(** ** The queue object *)

Section Queue.

Context {T : Type} `{Element T}.

Record SPSCQueue := {
  ring_capacity : Z;
  queue_capacity : Z;
  ring : Z -> T;
  __prod_index : Z;
  prod_event : Z;
  prod_ci : Z;
  prod_pi : Z;
  __cons_index : Z;
  cons_event : Z;
  cons_ci : Z;
  cons_pi : Z;
  prod_sem : Semaphore;
  cons_sem : Semaphore;
  cons_not : Z;
  prod_not : Z
}.

(** [static constexpr size_t max_size = 1ul<<(sizeof(index_t)*8-1)] *)
Definition max_size : Z := Z.shiftl 1 (8 * 8 - 1).

(** The object right after its member initialisers ran: [ring] has
    [ring_capacity] default-constructed slots and every index, event and
    counter is [{0}].  The array is a map from positions to elements; only
    positions below [ring_capacity] exist in the program. *)
Definition initial (ring_cap max_capacity : Z) : SPSCQueue :=
  {| ring_capacity := ring_cap;
     queue_capacity := max_capacity;
     ring := fun _ => elt_default;
     __prod_index := 0; prod_event := 0; prod_ci := 0; prod_pi := 0;
     __cons_index := 0; cons_event := 0; cons_ci := 0; cons_pi := 0;
     prod_sem := Semaphore_new; cons_sem := Semaphore_new;
     cons_not := 0; prod_not := 0 |}.

(** Assignments to one member. *)
Definition set_ring (v : Z -> T) (q : SPSCQueue) : SPSCQueue :=
  {| ring_capacity := ring_capacity q; queue_capacity := queue_capacity q;
     ring := v;
     __prod_index := __prod_index q; prod_event := prod_event q;
     prod_ci := prod_ci q; prod_pi := prod_pi q;
     __cons_index := __cons_index q; cons_event := cons_event q;
     cons_ci := cons_ci q; cons_pi := cons_pi q;
     prod_sem := prod_sem q; cons_sem := cons_sem q;
     cons_not := cons_not q; prod_not := prod_not q |}.

Definition set___prod_index (v : Z) (q : SPSCQueue) : SPSCQueue :=
  {| ring_capacity := ring_capacity q; queue_capacity := queue_capacity q;
     ring := ring q;
     __prod_index := v; prod_event := prod_event q;
     prod_ci := prod_ci q; prod_pi := prod_pi q;
     __cons_index := __cons_index q; cons_event := cons_event q;
     cons_ci := cons_ci q; cons_pi := cons_pi q;
     prod_sem := prod_sem q; cons_sem := cons_sem q;
     cons_not := cons_not q; prod_not := prod_not q |}.

Definition set_prod_event (v : Z) (q : SPSCQueue) : SPSCQueue :=
  {| ring_capacity := ring_capacity q; queue_capacity := queue_capacity q;
     ring := ring q;
     __prod_index := __prod_index q; prod_event := v;
     prod_ci := prod_ci q; prod_pi := prod_pi q;
     __cons_index := __cons_index q; cons_event := cons_event q;
     cons_ci := cons_ci q; cons_pi := cons_pi q;
     prod_sem := prod_sem q; cons_sem := cons_sem q;
     cons_not := cons_not q; prod_not := prod_not q |}.

Definition set_prod_ci (v : Z) (q : SPSCQueue) : SPSCQueue :=
  {| ring_capacity := ring_capacity q; queue_capacity := queue_capacity q;
     ring := ring q;
     __prod_index := __prod_index q; prod_event := prod_event q;
     prod_ci := v; prod_pi := prod_pi q;
     __cons_index := __cons_index q; cons_event := cons_event q;
     cons_ci := cons_ci q; cons_pi := cons_pi q;
     prod_sem := prod_sem q; cons_sem := cons_sem q;
     cons_not := cons_not q; prod_not := prod_not q |}.

Definition set_prod_pi (v : Z) (q : SPSCQueue) : SPSCQueue :=
  {| ring_capacity := ring_capacity q; queue_capacity := queue_capacity q;
     ring := ring q;
     __prod_index := __prod_index q; prod_event := prod_event q;
     prod_ci := prod_ci q; prod_pi := v;
     __cons_index := __cons_index q; cons_event := cons_event q;
     cons_ci := cons_ci q; cons_pi := cons_pi q;
     prod_sem := prod_sem q; cons_sem := cons_sem q;
     cons_not := cons_not q; prod_not := prod_not q |}.

Definition set___cons_index (v : Z) (q : SPSCQueue) : SPSCQueue :=
  {| ring_capacity := ring_capacity q; queue_capacity := queue_capacity q;
     ring := ring q;
     __prod_index := __prod_index q; prod_event := prod_event q;
     prod_ci := prod_ci q; prod_pi := prod_pi q;
     __cons_index := v; cons_event := cons_event q;
     cons_ci := cons_ci q; cons_pi := cons_pi q;
     prod_sem := prod_sem q; cons_sem := cons_sem q;
     cons_not := cons_not q; prod_not := prod_not q |}.

Definition set_cons_event (v : Z) (q : SPSCQueue) : SPSCQueue :=
  {| ring_capacity := ring_capacity q; queue_capacity := queue_capacity q;
     ring := ring q;
     __prod_index := __prod_index q; prod_event := prod_event q;
     prod_ci := prod_ci q; prod_pi := prod_pi q;
     __cons_index := __cons_index q; cons_event := v;
     cons_ci := cons_ci q; cons_pi := cons_pi q;
     prod_sem := prod_sem q; cons_sem := cons_sem q;
     cons_not := cons_not q; prod_not := prod_not q |}.

Definition set_cons_ci (v : Z) (q : SPSCQueue) : SPSCQueue :=
  {| ring_capacity := ring_capacity q; queue_capacity := queue_capacity q;
     ring := ring q;
     __prod_index := __prod_index q; prod_event := prod_event q;
     prod_ci := prod_ci q; prod_pi := prod_pi q;
     __cons_index := __cons_index q; cons_event := cons_event q;
     cons_ci := v; cons_pi := cons_pi q;
     prod_sem := prod_sem q; cons_sem := cons_sem q;
     cons_not := cons_not q; prod_not := prod_not q |}.

Definition set_cons_pi (v : Z) (q : SPSCQueue) : SPSCQueue :=
  {| ring_capacity := ring_capacity q; queue_capacity := queue_capacity q;
     ring := ring q;
     __prod_index := __prod_index q; prod_event := prod_event q;
     prod_ci := prod_ci q; prod_pi := prod_pi q;
     __cons_index := __cons_index q; cons_event := cons_event q;
     cons_ci := cons_ci q; cons_pi := v;
     prod_sem := prod_sem q; cons_sem := cons_sem q;
     cons_not := cons_not q; prod_not := prod_not q |}.

Definition set_prod_sem (v : Semaphore) (q : SPSCQueue) : SPSCQueue :=
  {| ring_capacity := ring_capacity q; queue_capacity := queue_capacity q;
     ring := ring q;
     __prod_index := __prod_index q; prod_event := prod_event q;
     prod_ci := prod_ci q; prod_pi := prod_pi q;
     __cons_index := __cons_index q; cons_event := cons_event q;
     cons_ci := cons_ci q; cons_pi := cons_pi q;
     prod_sem := v; cons_sem := cons_sem q;
     cons_not := cons_not q; prod_not := prod_not q |}.

Definition set_cons_sem (v : Semaphore) (q : SPSCQueue) : SPSCQueue :=
  {| ring_capacity := ring_capacity q; queue_capacity := queue_capacity q;
     ring := ring q;
     __prod_index := __prod_index q; prod_event := prod_event q;
     prod_ci := prod_ci q; prod_pi := prod_pi q;
     __cons_index := __cons_index q; cons_event := cons_event q;
     cons_ci := cons_ci q; cons_pi := cons_pi q;
     prod_sem := prod_sem q; cons_sem := v;
     cons_not := cons_not q; prod_not := prod_not q |}.

Definition set_cons_not (v : Z) (q : SPSCQueue) : SPSCQueue :=
  {| ring_capacity := ring_capacity q; queue_capacity := queue_capacity q;
     ring := ring q;
     __prod_index := __prod_index q; prod_event := prod_event q;
     prod_ci := prod_ci q; prod_pi := prod_pi q;
     __cons_index := __cons_index q; cons_event := cons_event q;
     cons_ci := cons_ci q; cons_pi := cons_pi q;
     prod_sem := prod_sem q; cons_sem := cons_sem q;
     cons_not := v; prod_not := prod_not q |}.

Definition set_prod_not (v : Z) (q : SPSCQueue) : SPSCQueue :=
  {| ring_capacity := ring_capacity q; queue_capacity := queue_capacity q;
     ring := ring q;
     __prod_index := __prod_index q; prod_event := prod_event q;
     prod_ci := prod_ci q; prod_pi := prod_pi q;
     __cons_index := __cons_index q; cons_event := cons_event q;
     cons_ci := cons_ci q; cons_pi := cons_pi q;
     prod_sem := prod_sem q; cons_sem := cons_sem q;
     cons_not := cons_not q; prod_not := v |}.

(** [ring[pos] = v] *)
Definition store (a : Z -> T) (pos : Z) (v : T) : Z -> T :=
  fun j => if j =? pos then v else a j.

(** [normalize_index]: maps the index position in the ring to the actual
    array index, [index & (ring_capacity-1)]. *)
Definition normalize_index (q : SPSCQueue) (index : Z) : Z :=
  Z.land index (wrap (ring_capacity q - 1)).

(** The ring has [2^e] slots. *)
Definition ring_sized (q : SPSCQueue) (e : Z) : Prop :=
  0 <= e < 64 /\ ring_capacity q = 2 ^ e.

(** Nothing in flight and nothing held back: the published indices and the
    private ones all agree. *)
Definition drained (q : SPSCQueue) : Prop :=
  is_index (prod_pi q)
  /\ __prod_index q = prod_pi q
  /\ cons_ci q = prod_pi q
  /\ __cons_index q = prod_pi q.

(** [prod_has_space(want)]: reloads [prod_ci] from the shared consumer index
    and compares in [size_t]. *)
Definition prod_has_space (want : Z) (q : SPSCQueue) : bool * SPSCQueue :=
  let q1 := set_prod_ci (__cons_index q) q in
  (dist (prod_pi q1) (prod_ci q1) <=? wrap (queue_capacity q1 - want), q1).

(** [cons_has_data(want)] *)
Definition cons_has_data (want : Z) (q : SPSCQueue) : bool * SPSCQueue :=
  let q1 := set_cons_pi (__prod_index q) q in
  (want <=? dist (cons_pi q1) (cons_ci q1), q1).

(** ** The producer: [push_front]

    One program counter per access to memory that the other thread can see
    (atomics, semaphores, ring slots); the local variables that are live at a
    point ([want], [old], [ce], [have]) travel with the counter. *)

(** Where [prod_notify] returns to: the wait loop of [prod_wait_space(want)]
    or the end of [prod_advance]. *)
Inductive prod_caller :=
| Prod_wait (want : Z)
| Prod_advance.

Inductive prod_pc :=
| P_idle
| P_has_space (want : Z) (again : bool)
| P_set_event (want : Z)
| P_notify_old (k : prod_caller)
| P_notify_store (k : prod_caller) (old : Z)
| P_notify_event (k : prod_caller) (old : Z)
| P_notify_test (k : prod_caller) (old ce : Z)
| P_notify_signal (k : prod_caller)
| P_notify_count (k : prod_caller)
| P_sem_wait (want : Z)
| P_reload (want : Z)
| P_wait_return (want : Z)
| P_store
| P_advance (have : Z)
| P_force
| P_return (b : bool).

(** The arguments of the running call. *)
Record producer := {
  p_pc : prod_pc;
  p_item : T;
  p_how : passing;
  p_force : bool
}.

Definition prod_goto (pc : prod_pc) (p : producer) : producer :=
  {| p_pc := pc; p_item := p_item p; p_how := p_how p; p_force := p_force p |}.

Definition prod_notify_return (k : prod_caller) : prod_pc :=
  match k with
  | Prod_wait want => P_has_space want true
  | Prod_advance => P_return true
  end.

(** One step of the producer thread; [None] when it is parked on [prod_sem]
    or not inside a call. *)
Definition prod_step (q : SPSCQueue) (p : producer)
  : option (SPSCQueue * producer) :=
  match p_pc p with
  | P_idle => None
  | P_return _ => None
  (* prod_wait_space: if (prod_has_space(want)) break; *)
  | P_has_space want again =>
      let (ok, q1) := prod_has_space want q in
      if ok then Some (q1, prod_goto (P_wait_return want) p)
      else if again then Some (q1, prod_goto (P_sem_wait want) p)
      else Some (q1, prod_goto (P_set_event want) p)
  (* prod_event = index_t(prod_ci + index_t(prod_pi-prod_ci)/4); *)
  | P_set_event want =>
      Some (set_prod_event
              (wrap (prod_ci q + dist (prod_pi q) (prod_ci q) / 4)) q,
            prod_goto (P_notify_old (Prod_wait want)) p)
  (* prod_notify: index_t old = __prod_index; *)
  | P_notify_old k =>
      Some (q, prod_goto (P_notify_store k (__prod_index q)) p)
  (* __prod_index = prod_pi; *)
  | P_notify_store k old =>
      Some (set___prod_index (prod_pi q) q, prod_goto (P_notify_event k old) p)
  (* index_t ce = cons_event; *)
  | P_notify_event k old =>
      Some (q, prod_goto (P_notify_test k old (cons_event q)) p)
  (* if (index_t(prod_pi - ce - 1) < index_t(prod_pi - old)) *)
  | P_notify_test k old ce =>
      if crossed (prod_pi q) old ce
      then Some (q, prod_goto (P_notify_signal k) p)
      else Some (q, prod_goto (prod_notify_return k) p)
  (* cons_sem.signal(); *)
  | P_notify_signal k =>
      Some (set_cons_sem (signal (cons_sem q)) q,
            prod_goto (P_notify_count k) p)
  (* prod_not++; *)
  | P_notify_count k =>
      Some (set_prod_not (wrap (prod_not q + 1)) q,
            prod_goto (prod_notify_return k) p)
  (* prod_sem.wait(); *)
  | P_sem_wait want =>
      match wait (prod_sem q) with
      | Some sem => Some (set_prod_sem sem q, prod_goto (P_reload want) p)
      | None => None
      end
  (* prod_ci = __cons_index; and back to the top of the loop *)
  | P_reload want =>
      Some (set_prod_ci (__cons_index q) q,
            prod_goto (P_has_space want false) p)
  (* return prod_ci + queue_capacity - prod_pi; (the caller drops it) *)
  | P_wait_return want => Some (q, prod_goto P_store p)
  (* ring[normalize_index(prod_pi)] = std::forward<U>(item); *)
  | P_store =>
      Some (set_ring (store (ring q) (normalize_index q (prod_pi q))
                        (elt_forward (p_how p) (p_item p))) q,
            prod_goto (P_advance 1) p)
  (* prod_advance: prod_pi+=have; *)
  | P_advance have =>
      Some (set_prod_pi (wrap (prod_pi q + have)) q, prod_goto P_force p)
  (* if (force) prod_notify();  then push_front_forward: return true; *)
  | P_force =>
      if p_force p then Some (q, prod_goto (P_notify_old Prod_advance) p)
      else Some (q, prod_goto (P_return true) p)
  end.

(** [push_front(item, force)] is entered: [prod_wait_space(1)]. *)
Definition push_front_call (how : passing) (item : T) (force : bool)
  : producer :=
  {| p_pc := P_has_space 1 false; p_item := item; p_how := how;
     p_force := force |}.

(** ** The consumer: the two [pop_back] overloads *)

Inductive pop_kind := Pop_item | Pop_vector.

(** The three [cons_has_data] checks of one turn of [cons_wait_data]. *)
Inductive check := Check_first | Check_slept | Check_double.

Inductive cons_caller :=
| Cons_wait (want : Z) (kind : pop_kind)
| Cons_advance.

Inductive cons_pc :=
| C_idle
| C_wait_old (want : Z) (kind : pop_kind)
| C_has_data (c : check) (want : Z) (kind : pop_kind)
| C_sleep (want : Z) (kind : pop_kind)
| C_set_event (want : Z) (kind : pop_kind)
| C_notify_old (k : cons_caller)
| C_notify_store (k : cons_caller) (old : Z)
| C_notify_event (k : cons_caller) (old : Z)
| C_notify_test (k : cons_caller) (old pe : Z)
| C_notify_signal (k : cons_caller)
| C_notify_count (k : cons_caller)
| C_sem_wait (want : Z) (kind : pop_kind)
| C_wait_return (kind : pop_kind)
| C_move_item
| C_for (num i : Z)
| C_advance (have : Z)
| C_advance_test
| C_return (b : bool).

(** The caller's objects: [*pItem] and [*container]. *)
Record consumer := {
  c_pc : cons_pc;
  c_item : T;
  c_container : list T
}.

Definition cons_goto (pc : cons_pc) (c : consumer) : consumer :=
  {| c_pc := pc; c_item := c_item c; c_container := c_container c |}.

Definition cons_notify_return (k : cons_caller) : cons_pc :=
  match k with
  | Cons_wait want kind => C_has_data Check_double want kind
  | Cons_advance => C_return true
  end.

(** One step of the consumer thread; [None] when it is parked on [cons_sem]
    or not inside a call. *)
Definition cons_step (q : SPSCQueue) (c : consumer)
  : option (SPSCQueue * consumer) :=
  match c_pc c with
  | C_idle => None
  | C_return _ => None
  (* cons_wait_data: index_t old = __cons_index; (never read again) *)
  | C_wait_old want kind =>
      Some (q, cons_goto (C_has_data Check_first want kind) c)
  (* if (cons_has_data(want)) break; *)
  | C_has_data chk want kind =>
      let (ok, q1) := cons_has_data want q in
      if ok then Some (q1, cons_goto (C_wait_return kind) c)
      else match chk with
           | Check_first => Some (q1, cons_goto (C_sleep want kind) c)
           | Check_slept => Some (q1, cons_goto (C_set_event want kind) c)
           | Check_double => Some (q1, cons_goto (C_sem_wait want kind) c)
           end
  (* std::this_thread::sleep_for(...) *)
  | C_sleep want kind =>
      Some (q, cons_goto (C_has_data Check_slept want kind) c)
  (* cons_event = cons_ci + want - 1; *)
  | C_set_event want kind =>
      Some (set_cons_event (wrap (cons_ci q + want - 1)) q,
            cons_goto (C_notify_old (Cons_wait want kind)) c)
  (* cons_notify: index_t old = __cons_index; *)
  | C_notify_old k =>
      Some (q, cons_goto (C_notify_store k (__cons_index q)) c)
  (* __cons_index = cons_ci; *)
  | C_notify_store k old =>
      Some (set___cons_index (cons_ci q) q, cons_goto (C_notify_event k old) c)
  (* index_t pe = prod_event; *)
  | C_notify_event k old =>
      Some (q, cons_goto (C_notify_test k old (prod_event q)) c)
  (* if (index_t(cons_ci - pe - 1) < index_t(cons_ci - old)) *)
  | C_notify_test k old pe =>
      if crossed (cons_ci q) old pe
      then Some (q, cons_goto (C_notify_signal k) c)
      else Some (q, cons_goto (cons_notify_return k) c)
  (* prod_sem.signal(); *)
  | C_notify_signal k =>
      Some (set_prod_sem (signal (prod_sem q)) q,
            cons_goto (C_notify_count k) c)
  (* cons_not++; *)
  | C_notify_count k =>
      Some (set_cons_not (wrap (cons_not q + 1)) q,
            cons_goto (cons_notify_return k) c)
  (* cons_sem.wait(); and back to the top of the loop *)
  | C_sem_wait want kind =>
      match wait (cons_sem q) with
      | Some sem =>
          Some (set_cons_sem sem q,
                cons_goto (C_has_data Check_first want kind) c)
      | None => None
      end
  (* return cons_pi - cons_ci; *)
  | C_wait_return kind =>
      match kind with
      | Pop_item => Some (q, cons_goto C_move_item c)
      | Pop_vector =>
          Some (q, cons_goto (C_for (dist (cons_pi q) (cons_ci q)) 0) c)
      end
  (* *pItem = std::move(ring[normalize_index(cons_ci)]); *)
  | C_move_item =>
      let pos := normalize_index q (cons_ci q) in
      let (v, rest) := elt_move (ring q pos) in
      Some (set_ring (store (ring q) pos rest) q,
            {| c_pc := C_advance 1; c_item := v;
               c_container := c_container c |})
  (* for (index_t i = 0; i < num; i++)
       container->push_back(std::move(ring[normalize_index(cons_ci+i)])); *)
  | C_for num i =>
      if i <? num then
        let pos := normalize_index q (wrap (cons_ci q + i)) in
        let (v, rest) := elt_move (ring q pos) in
        Some (set_ring (store (ring q) pos rest) q,
              {| c_pc := C_for num (wrap (i + 1)); c_item := c_item c;
                 c_container := c_container c ++ [v] |})
      else Some (q, cons_goto (C_advance num) c)
  (* cons_advance: cons_ci += have; *)
  | C_advance have =>
      Some (set_cons_ci (wrap (cons_ci q + have)) q, cons_goto C_advance_test c)
  (* if(cons_pi == cons_ci) cons_notify();  then pop_back: return true; *)
  | C_advance_test =>
      if cons_pi q =? cons_ci q
      then Some (q, cons_goto (C_notify_old Cons_advance) c)
      else Some (q, cons_goto (C_return true) c)
  end.

(** [pop_back(T* pItem)] is entered: [cons_wait_data(1)]. *)
Definition pop_back_item_call (item : T) (c : consumer) : consumer :=
  {| c_pc := C_wait_old 1 Pop_item; c_item := item;
     c_container := c_container c |}.

(** [pop_back(std::vector<T>* container)] is entered. *)
Definition pop_back_vector_call (container : list T) (c : consumer)
  : consumer :=
  {| c_pc := C_wait_old 1 Pop_vector; c_item := c_item c;
     c_container := container |}.

(** ** The member functions as blocks

    What [prod_notify], [cons_notify] and the elements waiting in the ring
    amount to when the other thread does not move in between. *)

(** [prod_notify()] *)
Definition prod_notify (q : SPSCQueue) : SPSCQueue :=
  let old := __prod_index q in
  let q1 := set___prod_index (prod_pi q) q in
  let ce := cons_event q1 in
  if crossed (prod_pi q1) old ce
  then set_prod_not (wrap (prod_not q1 + 1))
         (set_cons_sem (signal (cons_sem q1)) q1)
  else q1.

(** [cons_notify()] *)
Definition cons_notify (q : SPSCQueue) : SPSCQueue :=
  let old := __cons_index q in
  let q1 := set___cons_index (cons_ci q) q in
  let pe := prod_event q1 in
  if crossed (cons_ci q1) old pe
  then set_cons_not (wrap (cons_not q1 + 1))
         (set_prod_sem (signal (prod_sem q1)) q1)
  else q1.

(** [push_front(item, force)] when [prod_wait_space(1)] finds space at its
    first check. *)
Definition push_front_fast (how : passing) (item : T) (force : bool)
    (q : SPSCQueue) : SPSCQueue :=
  let q1 := set_prod_ci (__cons_index q) q in
  let q2 := set_ring (store (ring q1) (normalize_index q1 (prod_pi q1))
                        (elt_forward how item)) q1 in
  let q3 := set_prod_pi (wrap (prod_pi q2 + 1)) q2 in
  if force then prod_notify q3 else q3.

(** [cons_advance(have)] *)
Definition cons_advance (have : Z) (q : SPSCQueue) : SPSCQueue :=
  let q1 := set_cons_ci (wrap (cons_ci q + have)) q in
  if cons_pi q1 =? cons_ci q1 then cons_notify q1 else q1.

(** [pop_back(&item)] when [cons_wait_data(1)] finds data at its first
    check: the new [item] and the queue. *)
Definition pop_back_fast (q : SPSCQueue) : T * SPSCQueue :=
  let q1 := set_cons_pi (__prod_index q) q in
  let pos := normalize_index q1 (cons_ci q1) in
  let (v, rest) := elt_move (ring q1 pos) in
  (v, cons_advance 1 (set_ring (store (ring q1) pos rest) q1)).

(** [n] more turns of the [for] loop of [pop_back(&container)], entered
    with counter [i]. *)
Fixpoint move_out (n : nat) (i : Z) (q : SPSCQueue) (container : list T)
  : SPSCQueue * list T :=
  match n with
  | O => (q, container)
  | S n' =>
      let pos := normalize_index q (wrap (cons_ci q + i)) in
      let (v, rest) := elt_move (ring q pos) in
      move_out n' (wrap (i + 1)) (set_ring (store (ring q) pos rest) q)
               (container ++ [v])
  end.

(** [pop_back(&container)] when [cons_wait_data(1)] finds data at its first
    check: the new [container] and the queue. *)
Definition pop_back_vector_fast (container : list T) (q : SPSCQueue)
  : list T * SPSCQueue :=
  let q1 := set_cons_pi (__prod_index q) q in
  let num := dist (cons_pi q1) (cons_ci q1) in
  let (q2, container') := move_out (Z.to_nat num) 0 q1 container in
  (container', cons_advance num q2).

(** One turn of the loop of [prod_wait_space(want)] up to its second
    [prod_has_space]: the shadow is refreshed, the event is published and
    [prod_notify] runs. *)
Definition prod_wait_publish (want : Z) (q : SPSCQueue) : SPSCQueue :=
  let q1 := snd (prod_has_space want q) in
  prod_notify
    (set_prod_event (wrap (prod_ci q1 + dist (prod_pi q1) (prod_ci q1) / 4))
                    q1).

(** One turn of the loop of [cons_wait_data(want)] up to its third
    [cons_has_data]. *)
Definition cons_wait_publish (want : Z) (q : SPSCQueue) : SPSCQueue :=
  let q1 := snd (cons_has_data want q) in
  cons_notify (set_cons_event (wrap (cons_ci q1 + want - 1)) q1).

(** The slots [cons_ci], [cons_ci + 1], ..., [cons_ci + n - 1] in order. *)
Definition slots_from (q : SPSCQueue) (n : nat) : list T :=
  map (fun i => ring q (normalize_index q (wrap (cons_ci q + Z.of_nat i))))
      (seq 0 n).

(** What the consumer can take: the elements between its index and the
    published producer index. *)
Definition available (q : SPSCQueue) : list T :=
  slots_from q (Z.to_nat (dist (__prod_index q) (cons_ci q))).

(** What the destination of a move receives. *)
Definition received (x : T) : T := fst (elt_move x).

(** ** Two threads on one queue *)

Record system := {
  queue : SPSCQueue;
  prod : producer;
  cons : consumer
}.

(** A thread may enter a member function when it is not inside one. *)
Definition prod_free (p : producer) : bool :=
  match p_pc p with P_idle | P_return _ => true | _ => false end.

Definition cons_free (c : consumer) : bool :=
  match c_pc c with C_idle | C_return _ => true | _ => false end.

(** What a step does to the number of elements in flight: [prod_advance]
    moves the producer index by [have], [cons_advance] moves the consumer
    index by [have], every other step moves neither. *)
Inductive effect :=
| Silent
| Pushed (n : Z)
| Popped (n : Z).

Definition prod_effect (p : producer) : effect :=
  match p_pc p with
  | P_advance have => Pushed have
  | _ => Silent
  end.

Definition cons_effect (c : consumer) : effect :=
  match c_pc c with
  | C_advance have => Popped have
  | _ => Silent
  end.

Definition pushed_by (e : effect) : Z :=
  match e with Pushed n => n | _ => 0 end.

Definition popped_by (e : effect) : Z :=
  match e with Popped n => n | _ => 0 end.

(** The interleavings: at every moment either thread may take its next step,
    and a thread that is outside a call may enter one with any arguments. *)
Inductive step : system -> effect -> system -> Prop :=
| step_push s how item force :
    prod_free (prod s) = true ->
    step s Silent
         {| queue := queue s; prod := push_front_call how item force;
            cons := cons s |}
| step_prod s q' p' :
    prod_step (queue s) (prod s) = Some (q', p') ->
    step s (prod_effect (prod s)) {| queue := q'; prod := p'; cons := cons s |}
| step_pop_item s item :
    cons_free (cons s) = true ->
    step s Silent
         {| queue := queue s; prod := prod s;
            cons := pop_back_item_call item (cons s) |}
| step_pop_vector s container :
    cons_free (cons s) = true ->
    step s Silent
         {| queue := queue s; prod := prod s;
            cons := pop_back_vector_call container (cons s) |}
| step_cons s q' c' :
    cons_step (queue s) (cons s) = Some (q', c') ->
    step s (cons_effect (cons s)) {| queue := q'; prod := prod s; cons := c' |}.

(** [steps s pushed popped s']: an execution from [s] to [s'] in which the
    producer index advanced [pushed] times in total and the consumer index
    [popped] times (unbounded counts, not 64-bit ones). *)
Inductive steps : system -> Z -> Z -> system -> Prop :=
| steps_refl s : steps s 0 0 s
| steps_next s1 pushed popped s2 e s3 :
    steps s1 pushed popped s2 ->
    step s2 e s3 ->
    steps s1 (pushed + pushed_by e) (popped + popped_by e) s3.

(** A scheduler's choice, and the same interleavings as a function of the
    schedule. *)
Inductive action :=
| Do_push (how : passing) (item : T) (force : bool)
| Do_prod
| Do_pop_item (item : T)
| Do_pop_vector (container : list T)
| Do_cons.

Definition act (a : action) (s : system) : option (effect * system) :=
  match a with
  | Do_push how item force =>
      if prod_free (prod s)
      then Some (Silent, {| queue := queue s;
                            prod := push_front_call how item force;
                            cons := cons s |})
      else None
  | Do_prod =>
      match prod_step (queue s) (prod s) with
      | Some (q', p') =>
          Some (prod_effect (prod s),
                {| queue := q'; prod := p'; cons := cons s |})
      | None => None
      end
  | Do_pop_item item =>
      if cons_free (cons s)
      then Some (Silent, {| queue := queue s; prod := prod s;
                            cons := pop_back_item_call item (cons s) |})
      else None
  | Do_pop_vector container =>
      if cons_free (cons s)
      then Some (Silent, {| queue := queue s; prod := prod s;
                            cons := pop_back_vector_call container (cons s) |})
      else None
  | Do_cons =>
      match cons_step (queue s) (cons s) with
      | Some (q', c') =>
          Some (cons_effect (cons s),
                {| queue := q'; prod := prod s; cons := c' |})
      | None => None
      end
  end.

(** Runs a schedule, counting the advances; [None] when the schedule asks a
    thread for a step it cannot take. *)
Fixpoint exec (sched : list action) (pushed popped : Z) (s : system)
  : option (Z * Z * system) :=
  match sched with
  | [] => Some (pushed, popped, s)
  | a :: sched' =>
      match act a s with
      | Some (e, s') =>
          exec sched' (pushed + pushed_by e) (popped + popped_by e) s'
      | None => None
      end
  end.

(** Both threads outside any call, around a queue [q]. *)
Definition idle_producer : producer :=
  {| p_pc := P_idle; p_item := elt_default; p_how := By_move;
     p_force := true |}.

Definition idle_consumer : consumer :=
  {| c_pc := C_idle; c_item := elt_default; c_container := [] |}.

Definition start (q : SPSCQueue) : system :=
  {| queue := q; prod := idle_producer; cons := idle_consumer |}.

(** ** Construction

    [ring_capacity(1ul<<uint64_t(ceil(log2(max_capacity))))]: the argument of
    [log2] is a [size_t], which <cmath> converts to [double]. *)

(** The [double] nearest to a [size_t]: a 53-bit significand, ties to the
    even significand (integers of at most 53 bits are kept). *)
Definition double_of_size_t (c : Z) : Z :=
  let e := Z.log2 c - 52 in
  if e <=? 0 then c
  else
    let ulp := 2 ^ e in
    let m := c / ulp in
    let r := c mod ulp in
    let m' := if 2 * r <? ulp then m
              else if ulp <? 2 * r then m + 1
              else if Z.even m then m else m + 1 in
    m' * ulp.

(** How the constructor ends: with an object, in the [assert], or in an
    operation to which C++ gives no meaning. *)
Inductive construction :=
| Constructed (q : SPSCQueue)
| Assertion_failed
| Undefined.

(** [SPSCQueue(size_t max_capacity)].  [log2] and [ceil] are taken at their
    mathematical values on the [double] they receive: a <cmath> returns
    exactly [k] for [log2] of the power of two [2^k], and may only lose
    precision elsewhere.  This is what the machine computes when the
    [double] is a power of two and for every capacity up to [2^32]; for a
    capacity from [2^49 + 1] on that lies just above a power of two [2^k],
    the [double] nearest to its logarithm is [k] itself, and the ring of the
    machine has [2^k] slots, half of what is given here.  [log2(0.0)] is
    minus infinity, whose conversion to [uint64_t] is undefined, and so is a
    shift of a 64-bit [1ul] by 64 or more.  [new T[ring_capacity]] is taken
    to succeed; where it throws [std::bad_alloc], no object is made. *)
Definition SPSCQueue_new (max_capacity : Z) : construction :=
  let d := double_of_size_t max_capacity in
  if d =? 0 then Undefined
  else
    let e := Z.log2_up d in
    if 64 <=? e then Undefined
    else
      let ring_cap := Z.shiftl 1 e in
      if ring_cap <=? max_size
      then Constructed (initial ring_cap max_capacity)
      else Assertion_failed.

(** ** One thread running alone

    A call run to its [return] with the other thread standing still; [None]
    when the thread parks (nobody can wake it) or the fuel runs out. *)

Definition run_prod : nat -> SPSCQueue -> producer
                      -> option (SPSCQueue * producer) :=
  run prod_step prod_free.

Definition run_cons : nat -> SPSCQueue -> consumer
                      -> option (SPSCQueue * consumer) :=
  run cons_step cons_free.

(** [push_front(item, force)]: the returned [bool] and the queue after. *)
Definition push_front (fuel : nat) (how : passing) (item : T) (force : bool)
    (q : SPSCQueue) : option (bool * SPSCQueue) :=
  match run_prod fuel q (push_front_call how item force) with
  | Some (q', p') =>
      match p_pc p' with
      | P_return b => Some (b, q')
      | _ => None
      end
  | None => None
  end.

(** [pop_back(&item)]: the returned [bool], the new [item], the queue. *)
Definition pop_back (fuel : nat) (item : T) (q : SPSCQueue)
  : option (bool * T * SPSCQueue) :=
  match run_cons fuel q (pop_back_item_call item idle_consumer) with
  | Some (q', c') =>
      match c_pc c' with
      | C_return b => Some (b, c_item c', q')
      | _ => None
      end
  | None => None
  end.

(** [pop_back(&container)]: the returned [bool], the new [container], the
    queue. *)
Definition pop_back_vector (fuel : nat) (container : list T) (q : SPSCQueue)
  : option (bool * list T * SPSCQueue) :=
  match run_cons fuel q (pop_back_vector_call container idle_consumer) with
  | Some (q', c') =>
      match c_pc c' with
      | C_return b => Some (b, c_container c', q')
      | _ => None
      end
  | None => None
  end.

(** [push_front] for each element of [xs] in turn: the returned values and
    the queue after the last one. *)
Fixpoint push_all (fuel : nat) (how : passing) (xs : list T) (force : bool)
    (q : SPSCQueue) : option (list bool * SPSCQueue) :=
  match xs with
  | [] => Some ([], q)
  | x :: xs' =>
      match push_front fuel how x force q with
      | Some (b, q1) =>
          match push_all fuel how xs' force q1 with
          | Some (bs, q2) => Some (b :: bs, q2)
          | None => None
          end
      | None => None
      end
  end.

(** [n] calls of [pop_back(&item)] on the same [item]: the returned values,
    what [item] held after each call, and the queue after the last one. *)
Fixpoint pop_all (fuel : nat) (n : nat) (item : T) (q : SPSCQueue)
  : option (list bool * list T * SPSCQueue) :=
  match n with
  | O => Some ([], [], q)
  | S n' =>
      match pop_back fuel item q with
      | Some (b, x, q1) =>
          match pop_all fuel n' x q1 with
          | Some (bs, xs, q2) => Some (b :: bs, x :: xs, q2)
          | None => None
          end
      | None => None
      end
  end.

(** Every call that has returned has returned [true]. *)
Definition returned_true (s : system) : Prop :=
  (forall b, p_pc (prod s) = P_return b -> b = true)
  /\ (forall b, c_pc (cons s) = C_return b -> b = true).

(** ** The occupancy invariant

    The six copies of the two indices are ordered along the 64-bit circle:
    [prod_ci], [__cons_index], [cons_ci], [cons_pi], [__prod_index],
    [prod_pi].  [occupancy_chain] is the length of that walk. *)

Definition occupancy_chain (q : SPSCQueue) : Z :=
  dist (__cons_index q) (prod_ci q)
  + dist (cons_ci q) (__cons_index q)
  + dist (cons_pi q) (cons_ci q)
  + dist (__prod_index q) (cons_pi q)
  + dist (prod_pi q) (__prod_index q).

(** Slots that [prod_wait_space] has granted and [prod_advance] has not
    counted yet. *)
Definition prod_granted (pc : prod_pc) : Z :=
  match pc with
  | P_wait_return _ | P_store | P_advance _ => 1
  | _ => 0
  end.

Definition prod_caller_ok (k : prod_caller) : Prop :=
  match k with
  | Prod_wait want => want = 1
  | Prod_advance => True
  end.

(** [push_front_forward] only ever asks for one slot and advances by one. *)
Definition prod_pc_ok (pc : prod_pc) : Prop :=
  match pc with
  | P_has_space want _ | P_set_event want | P_sem_wait want
  | P_reload want | P_wait_return want => want = 1
  | P_notify_old k | P_notify_store k _ | P_notify_event k _
  | P_notify_test k _ _ | P_notify_signal k | P_notify_count k =>
      prod_caller_ok k
  | P_advance have => have = 1
  | _ => True
  end.

Definition cons_caller_ok (k : cons_caller) : Prop :=
  match k with
  | Cons_wait want _ => want = 1
  | Cons_advance => True
  end.

(** What the consumer knows between [cons_wait_data] and [cons_advance]. *)
Definition cons_pc_ok (q : SPSCQueue) (pc : cons_pc) : Prop :=
  match pc with
  | C_wait_old want _ | C_has_data _ want _ | C_sleep want _
  | C_set_event want _ | C_sem_wait want _ => want = 1
  | C_notify_old k | C_notify_store k _ | C_notify_event k _
  | C_notify_test k _ _ | C_notify_signal k | C_notify_count k =>
      cons_caller_ok k
  | C_wait_return _ | C_move_item => 1 <= dist (cons_pi q) (cons_ci q)
  | C_for num i =>
      num = dist (cons_pi q) (cons_ci q) /\ 1 <= num /\ 0 <= i <= num
  | C_advance have => 1 <= have <= dist (cons_pi q) (cons_ci q)
  | _ => True
  end.

Definition indices_ok (q : SPSCQueue) : Prop :=
  is_index (__prod_index q) /\ is_index (prod_event q)
  /\ is_index (prod_ci q) /\ is_index (prod_pi q)
  /\ is_index (__cons_index q) /\ is_index (cons_event q)
  /\ is_index (cons_ci q) /\ is_index (cons_pi q).

Definition invariant (s : system) : Prop :=
  1 <= queue_capacity (queue s) < modulus
  /\ indices_ok (queue s)
  /\ occupancy_chain (queue s) + prod_granted (p_pc (prod s))
     <= queue_capacity (queue s)
  /\ prod_pc_ok (p_pc (prod s))
  /\ cons_pc_ok (queue s) (c_pc (cons s)).

(** ** What goes in and what comes out

    The elements as the two callers see them: what a step of the producer
    writes into the ring, and what a step of the consumer puts into
    [*pItem] or appends to [*container]. *)

Definition stored_by (p : producer) : list T :=
  match p_pc p with
  | P_store => [elt_forward (p_how p) (p_item p)]
  | _ => []
  end.

Definition delivered_by (c c' : consumer) : list T :=
  match c_pc c with
  | C_move_item => [c_item c']
  | C_for _ _ => skipn (length (c_container c)) (c_container c')
  | _ => []
  end.

(** [history s ins outs s']: an execution from [s] to [s'] in which the
    producer stored the elements [ins], in this order, and the consumer was
    handed the elements [outs], in this order. *)
Inductive history : system -> list T -> list T -> system -> Prop :=
| history_start s : history s [] [] s
| history_push s0 ins outs s how item force :
    history s0 ins outs s ->
    prod_free (prod s) = true ->
    history s0 ins outs
            {| queue := queue s; prod := push_front_call how item force;
               cons := cons s |}
| history_prod s0 ins outs s q' p' :
    history s0 ins outs s ->
    prod_step (queue s) (prod s) = Some (q', p') ->
    history s0 (ins ++ stored_by (prod s)) outs
            {| queue := q'; prod := p'; cons := cons s |}
| history_pop_item s0 ins outs s item :
    history s0 ins outs s ->
    cons_free (cons s) = true ->
    history s0 ins outs
            {| queue := queue s; prod := prod s;
               cons := pop_back_item_call item (cons s) |}
| history_pop_vector s0 ins outs s container :
    history s0 ins outs s ->
    cons_free (cons s) = true ->
    history s0 ins outs
            {| queue := queue s; prod := prod s;
               cons := pop_back_vector_call container (cons s) |}
| history_cons s0 ins outs s q' c' :
    history s0 ins outs s ->
    cons_step (queue s) (cons s) = Some (q', c') ->
    history s0 ins (outs ++ delivered_by (cons s) c')
            {| queue := q'; prod := prod s; cons := c' |}.

(** Elements written that [prod_pi] does not count yet, and elements moved
    out that [cons_ci] still counts. *)
Definition stored_ahead (pc : prod_pc) : Z :=
  match pc with
  | P_advance _ => 1
  | _ => 0
  end.

Definition taken_ahead (pc : cons_pc) : Z :=
  match pc with
  | C_for _ i => i
  | C_advance have => have
  | _ => 0
  end.

(** The counter of the next slot to be written, and of the next to be
    read. *)
Definition write_index (s : system) : Z :=
  wrap (prod_pi (queue s) + stored_ahead (p_pc (prod s))).

Definition read_index (s : system) : Z :=
  wrap (cons_ci (queue s) + taken_ahead (c_pc (cons s))).

(** The [n] slots from counter [base] on. *)
Definition window (q : SPSCQueue) (base : Z) (n : nat) : list T :=
  map (fun k => ring q (normalize_index q (wrap (base + Z.of_nat k))))
      (seq 0 n).

(** The elements in the ring: written and not moved out yet. *)
Definition live (s : system) : list T :=
  window (queue s) (read_index s)
         (Z.to_nat (dist (write_index s) (read_index s))).

(** The elements handed out are, in order, the first elements stored, and
    the ring holds the others. *)
Definition delivered_in_order (s : system) (ins outs : list T) : Prop :=
  outs = map received (firstn (length outs) ins)
  /\ live s = skipn (length outs) ins.

(** The same, as a function of the schedule. *)
Fixpoint replay (sched : list action) (ins outs : list T) (s : system)
  : option (list T * list T * system) :=
  match sched with
  | [] => Some (ins, outs, s)
  | a :: sched' =>
      match act a s with
      | Some (_, s') =>
          replay sched'
                 (ins ++ match a with
                         | Do_prod => stored_by (prod s)
                         | _ => []
                         end)
                 (outs ++ match a with
                          | Do_cons => delivered_by (cons s) (cons s')
                          | _ => []
                          end)
                 s'
      | None => None
      end
  end.

(** ** The wake-up protocol

    What each thread has established when it is inside its wait loop, and
    why a parked thread will be woken. *)

(** The producer saw the queue full and asked to be woken once a quarter of
    it is consumed. *)
Definition prod_armed (q : SPSCQueue) : Prop :=
  dist (prod_pi q) (prod_ci q) = queue_capacity q
  /\ prod_event q = wrap (prod_ci q + queue_capacity q / 4).

Definition prod_wait_ok (q : SPSCQueue) (pc : prod_pc) : Prop :=
  match pc with
  | P_set_event _ => dist (prod_pi q) (prod_ci q) = queue_capacity q
  | P_notify_old (Prod_wait _) => prod_armed q
  | P_notify_store (Prod_wait _) old => prod_armed q /\ old = __prod_index q
  | P_notify_store Prod_advance old => old = __prod_index q
  | P_notify_event (Prod_wait _) _ | P_notify_test (Prod_wait _) _ _
  | P_notify_signal (Prod_wait _) | P_notify_count (Prod_wait _)
  | P_has_space _ true | P_sem_wait _ =>
      prod_armed q /\ __prod_index q = prod_pi q
  | _ => True
  end.

(** The consumer asked to be woken as soon as one more element is
    published. *)
Definition cons_armed (q : SPSCQueue) : Prop := cons_event q = cons_ci q.

Definition cons_wait_ok (q : SPSCQueue) (pc : cons_pc) : Prop :=
  match pc with
  | C_notify_old (Cons_wait _ _) => cons_armed q
  | C_notify_store (Cons_wait _ _) old => cons_armed q /\ old = __cons_index q
  | C_notify_store Cons_advance old => old = __cons_index q
  | C_notify_event (Cons_wait _ _) _ | C_notify_test (Cons_wait _ _) _ _
  | C_notify_signal (Cons_wait _ _) | C_notify_count (Cons_wait _ _)
  | C_has_data Check_double _ _ | C_sem_wait _ _ =>
      cons_armed q /\ __cons_index q = cons_ci q
  | _ => True
  end.

(** The consumer is inside [cons_notify], past the store, and will reach
    [prod_sem.signal()]. *)
Definition prod_signal_pending (q : SPSCQueue) (pc : cons_pc) : Prop :=
  match pc with
  | C_notify_event _ old => crossed (cons_ci q) old (prod_event q) = true
  | C_notify_test _ old pe => crossed (cons_ci q) old pe = true
  | C_notify_signal _ => True
  | _ => False
  end.

Definition cons_signal_pending (q : SPSCQueue) (pc : prod_pc) : Prop :=
  match pc with
  | P_notify_event _ old => crossed (prod_pi q) old (cons_event q) = true
  | P_notify_test _ old ce => crossed (prod_pi q) old ce = true
  | P_notify_signal _ => True
  | _ => False
  end.

(** A producer at [prod_sem.wait()] finds the flag up, or the published
    consumer index has not gone past its event yet, or the signal is on its
    way. *)
Definition prod_wake (s : system) : Prop :=
  match p_pc (prod s) with
  | P_sem_wait _ =>
      flag (prod_sem (queue s)) = true
      \/ dist (prod_pi (queue s)) (prod_event (queue s))
         <= dist (prod_pi (queue s)) (__cons_index (queue s))
      \/ prod_signal_pending (queue s) (c_pc (cons s))
  | _ => True
  end.

Definition cons_wake (s : system) : Prop :=
  match c_pc (cons s) with
  | C_sem_wait _ _ =>
      flag (cons_sem (queue s)) = true
      \/ __prod_index (queue s) = cons_ci (queue s)
      \/ cons_signal_pending (queue s) (p_pc (prod s))
  | _ => True
  end.

Definition wake_invariant (s : system) : Prop :=
  prod_wait_ok (queue s) (p_pc (prod s))
  /\ cons_wait_ok (queue s) (c_pc (cons s))
  /\ prod_wake s
  /\ cons_wake s.

(** The thread is at its semaphore and the flag is down. *)
Definition prod_parked (s : system) : Prop :=
  (exists want, p_pc (prod s) = P_sem_wait want)
  /\ flag (prod_sem (queue s)) = false.

Definition cons_parked (s : system) : Prop :=
  (exists want kind, c_pc (cons s) = C_sem_wait want kind)
  /\ flag (cons_sem (queue s)) = false.

(** What an idle consumer has published: after [cons_advance], either
    [cons_notify] ran or the consumer knows of elements it has not taken. *)
Definition cons_published (q : SPSCQueue) (pc : cons_pc) : Prop :=
  match pc with
  | C_idle | C_return _ => __cons_index q = cons_ci q \/ cons_pi q <> cons_ci q
  | C_notify_event Cons_advance _ | C_notify_test Cons_advance _ _
  | C_notify_signal Cons_advance | C_notify_count Cons_advance =>
      __cons_index q = cons_ci q
  | _ => True
  end.

(** The elements in the ring that the consumer has not taken, published or
    not: the slots from [cons_ci] up to [prod_pi]. *)
Definition stored (q : SPSCQueue) : list T :=
  slots_from q (Z.to_nat (dist (prod_pi q) (cons_ci q))).

End Queue.

Arguments SPSCQueue T : clear implicits.
Arguments producer T : clear implicits.
Arguments consumer T : clear implicits.
Arguments system T : clear implicits.
Arguments construction T : clear implicits.

(** ** Element types of the switch

    [int]-like elements, which a move leaves in place, and the
    [std::unique_ptr<Packet>] of fast_switch.cpp, which a move empties
    (a packet stands for its number; a [unique_ptr] cannot be copied, and
    [elt_copy] is never used on it). *)

#[export] Instance int_element : Element Z :=
  {| elt_default := 0; elt_copy := fun x => x; elt_move := fun x => (x, x) |}.

#[export] Instance unique_ptr_element : Element (option Z) :=
  {| elt_default := None; elt_copy := fun x => x;
     elt_move := fun x => (x, None) |}.

(** ** Small executions, used as test inputs *)

(** A queue of capacity 4 of [int]. *)
Definition queue4 : SPSCQueue Z := initial 4 4.

(** A forced push of 7 up to the [if (force)] of [prod_advance], with a
    consumer that has entered [pop_back(&item)] and found nothing yet. *)
Definition occupancy_demo : list (action (T := Z)) :=
  [Do_push By_move 7 true; Do_prod; Do_prod; Do_prod; Do_pop_item 0;
   Do_prod; Do_cons; Do_cons].

Definition occupancy_demo_state : system Z :=
  match exec occupancy_demo 0 0 (start queue4) with
  | Some (_, _, s) => s
  | None => start queue4
  end.

(** The consumer has moved from 2 to 5 without publishing, and the producer
    asked to be woken at 3. *)
Definition notify_demo : SPSCQueue Z :=
  set_cons_ci 5
    (set___cons_index 2
       (set_prod_event 3
          (set_cons_event 3
             (set_prod_pi 5 (set___prod_index 2 (initial 8 8)))))).

(** [queue4] after forced pushes of 1, 2, 3, and after a fourth. *)
Definition three_in_queue4 : SPSCQueue Z :=
  match push_all 11 By_move [1; 2; 3] true queue4 with
  | Some (_, q) => q
  | None => queue4
  end.

Definition full_queue4 : SPSCQueue Z :=
  match push_all 11 By_move [1; 2; 3; 4] true queue4 with
  | Some (_, q) => q
  | None => queue4
  end.

(** A queue of capacity 4 of packets. *)
Definition packet_queue4 : SPSCQueue (option Z) := initial 4 4.

(** A queue of capacity 2 of [int] on which 10 and 11 were pushed with
    [force = false]: both threads are outside any call. *)
Definition deferred_demo_before : system Z :=
  match exec [Do_push By_move 10 false; Do_prod; Do_prod; Do_prod; Do_prod;
              Do_prod;
              Do_push By_move 11 false; Do_prod; Do_prod; Do_prod; Do_prod;
              Do_prod] 0 0 (start (initial 2 2)) with
  | Some (_, _, s) => s
  | None => start (initial 2 2)
  end.

(** A third push with [force = false], run by the producer alone until it
    parks on [prod_sem]. *)
Definition deferred_demo_parking : list (action (T := Z)) :=
  [Do_push By_move 12 false; Do_prod; Do_prod; Do_prod; Do_prod; Do_prod;
   Do_prod; Do_prod; Do_prod; Do_prod].

Definition deferred_demo_parked : system Z :=
  match exec deferred_demo_parking 0 0 deferred_demo_before with
  | Some (_, _, s) => s
  | None => deferred_demo_before
  end.

(** The consumer then takes everything with [pop_back(&container)], which
    wakes the producer, and the push returns. *)
Definition deferred_demo_finishing : list (action (T := Z)) :=
  [Do_pop_vector []; Do_cons; Do_cons; Do_cons; Do_cons; Do_cons; Do_cons;
   Do_cons; Do_cons; Do_cons; Do_cons; Do_cons; Do_cons; Do_cons; Do_cons;
   Do_prod; Do_prod; Do_prod; Do_prod; Do_prod; Do_prod; Do_prod].

Definition deferred_demo_after : system Z :=
  match exec deferred_demo_finishing 0 0 deferred_demo_parked with
  | Some (_, _, s) => s
  | None => deferred_demo_parked
  end.

(** Three pushes on a queue of capacity 4, the third one with
    [force = false], and one [pop_back(&item)]: 7, 8 and 9 were stored, 7
    was handed out, 8 is published and 9 is not. *)
Definition fifo_demo : list (action (T := Z)) :=
  Do_push By_move 7 true :: repeat Do_prod 11
  ++ Do_push By_copy 8 true :: repeat Do_prod 9
  ++ Do_push By_move 9 false :: repeat Do_prod 5
  ++ Do_pop_item 0 :: repeat Do_cons 6.

Definition fifo_demo_state : system Z :=
  match replay fifo_demo [] [] (start queue4) with
  | Some (_, _, s) => s
  | None => start queue4
  end.

(** A push that has been granted its slot and is about to write it. *)
Definition storing_demo : list (action (T := Z)) :=
  [Do_push By_move 7 true; Do_prod; Do_prod].

Definition storing_demo_state : system Z :=
  match exec storing_demo 0 0 (start queue4) with
  | Some (_, _, s) => s
  | None => start queue4
  end.

(** Both threads inside a call: the producer has written its element, the
    consumer found nothing at its first check. *)
Definition busy_demo : list (action (T := Z)) :=
  [Do_push By_move 7 true; Do_prod; Do_prod; Do_pop_item 0; Do_cons; Do_cons;
   Do_prod].

Definition busy_demo_state : system Z :=
  match exec busy_demo 0 0 (start queue4) with
  | Some (_, _, s) => s
  | None => start queue4
  end.

(** A queue of capacity 2: two pushes with [force = false], and a third push
    that finds the queue full and goes to sleep; the consumer is outside any
    call. *)
Definition parked_producer_demo : list (action (T := Z)) :=
  Do_push By_move 10 false :: repeat Do_prod 5
  ++ Do_push By_move 11 false :: repeat Do_prod 5
  ++ Do_push By_move 12 true :: repeat Do_prod 9.

Definition parked_producer_state : system Z :=
  match exec parked_producer_demo 0 0 (start (initial 2 2)) with
  | Some (_, _, s) => s
  | None => start (initial 2 2)
  end.

(** A [pop_back(&container)] on the empty [queue4] up to its
    [cons_sem.wait()]; the producer is outside any call. *)
Definition parked_consumer_demo : list (action (T := Z)) :=
  Do_pop_vector [] :: repeat Do_cons 10.

Definition parked_consumer_state : system Z :=
  match exec parked_consumer_demo 0 0 (start queue4) with
  | Some (_, _, s) => s
  | None => start queue4
  end.

(** One push on a queue of capacity 8 and a [pop_back(&item)] that has seen
    it; seven more pushes fill the queue and a ninth goes to sleep; then the
    pop takes its element and returns.  One slot is free, the producer
    sleeps. *)
Definition forced_push (x : Z) (n : nat) : list (action (T := Z)) :=
  Do_push By_move x true :: repeat Do_prod n.

Definition lazy_wake_demo : list (action (T := Z)) :=
  forced_push 1 11 ++ Do_pop_item 0 :: repeat Do_cons 2
  ++ forced_push 2 9 ++ forced_push 3 9 ++ forced_push 4 9
  ++ forced_push 5 9 ++ forced_push 6 9 ++ forced_push 7 9
  ++ forced_push 8 9 ++ forced_push 9 7 ++ repeat Do_cons 8.

Definition lazy_wake_state : system Z :=
  match exec lazy_wake_demo 0 0 (start (initial 8 8)) with
  | Some (_, _, s) => s
  | None => start (initial 8 8)
  end.

(** Six more calls of [pop_back(&item)], each run to its return: seven
    slots are free, the producer still sleeps. *)
Definition single_pop : list (action (T := Z)) :=
  Do_pop_item 0 :: repeat Do_cons 6.

Definition lazy_wake_pops : list (action (T := Z)) :=
  single_pop ++ single_pop ++ single_pop ++ single_pop ++ single_pop
  ++ single_pop.

Definition lazy_wake_later : system Z :=
  match exec lazy_wake_pops 8 1 lazy_wake_state with
  | Some (_, _, s) => s
  | None => lazy_wake_state
  end.

(** The pop that takes the last element signals. *)
Definition lazy_wake_last : system Z :=
  match exec (Do_pop_item 0 :: repeat Do_cons 12) 8 7 lazy_wake_later with
  | Some (_, _, s) => s
  | None => lazy_wake_later
  end.

(** * Properties *)

(** Case analysis on the branch a step function took. *)
Ltac break_step Hs :=
  repeat match type of Hs with
         | context [if ?b then _ else _] => destruct b eqn:?
         | context [match ?x with _ => _ end] => destruct x eqn:?
         end;
  try discriminate; inversion Hs; subst; clear Hs.

Ltac to_prop :=
  rewrite ?Z.leb_le, ?Z.leb_gt, ?Z.ltb_lt, ?Z.ltb_ge, ?Z.eqb_eq, ?Z.eqb_neq
    in *.

(** ** 64-bit arithmetic *)

Lemma modulus_pos : 0 < modulus.
Proof. reflexivity. Qed.

Lemma wrap_range z : is_index (wrap z).
Proof. wrap_lia. Qed.

Lemma wrap_small z : is_index z -> wrap z = z.
Proof. wrap_lia. Qed.

Lemma wrap_wrap z : wrap (wrap z) = wrap z.
Proof. wrap_lia. Qed.

Lemma crossed_spec now old event :
  is_index event ->
  crossed now old event = true <-> in_crossed_interval now old event.
Proof.
  intros He. unfold crossed, in_crossed_interval.
  rewrite Z.ltb_lt. split.
  - intros H. exists (wrap (now - event - 1)). split; wrap_lia.
  - intros (k & Hk & ->). wrap_lia.
Qed.

(** ** Invariants of the interleavings *)

Section Interleavings.

Context {T : Type} `{Element T}.

(** The producer never writes the consumer's shadow indices, and the other
    way round. *)
Lemma prod_step_frame (q : SPSCQueue T) p q' p' :
  prod_step q p = Some (q', p') ->
  cons_pi q' = cons_pi q /\ cons_ci q' = cons_ci q
  /\ __cons_index q' = __cons_index q /\ cons_event q' = cons_event q
  /\ cons_not q' = cons_not q
  /\ queue_capacity q' = queue_capacity q /\ ring_capacity q' = ring_capacity q.
Proof.
  unfold prod_step, prod_has_space, wait. intros Hs.
  destruct (p_pc p); break_step Hs; cbn; auto 10.
Qed.

Lemma cons_step_frame (q : SPSCQueue T) c q' c' :
  cons_step q c = Some (q', c') ->
  prod_pi q' = prod_pi q /\ prod_ci q' = prod_ci q
  /\ __prod_index q' = __prod_index q /\ prod_event q' = prod_event q
  /\ prod_not q' = prod_not q
  /\ queue_capacity q' = queue_capacity q /\ ring_capacity q' = ring_capacity q.
Proof.
  unfold cons_step, cons_has_data, wait. intros Hs.
  destruct (c_pc c); break_step Hs; cbn; auto 10.
Qed.

Lemma cons_pc_ok_frame (q q' : SPSCQueue T) pc :
  cons_pi q' = cons_pi q -> cons_ci q' = cons_ci q ->
  cons_pc_ok q pc -> cons_pc_ok q' pc.
Proof. intros E1 E2. destruct pc; cbn; rewrite ?E1, ?E2; auto. Qed.

Lemma invariant_prod_step (q : SPSCQueue T) p c q' p' :
  invariant {| queue := q; prod := p; cons := c |} ->
  prod_step q p = Some (q', p') ->
  invariant {| queue := q'; prod := p'; cons := c |}.
Proof.
  unfold invariant, indices_ok, occupancy_chain. cbn [queue prod cons].
  intros (Hc & Hi & Hch & Hp & Hco) Hs.
  destruct (prod_step_frame _ _ _ _ Hs) as (Hf1 & Hf2 & _).
  split; [|split; [|split; [|split]]].
  5: { eapply cons_pc_ok_frame; eauto. }
  all: clear Hco Hf1 Hf2.
  all: destruct p as [pc it how fo].
  all: unfold prod_step, prod_has_space, wait in Hs; cbn [p_pc] in *.
  all: destruct pc; break_step Hs; cbn in *; to_prop.
  all: try tauto.
  all: try (destruct k; cbn in *; tauto).
  all: try wrap_lia.
Qed.

Lemma invariant_cons_step (q : SPSCQueue T) p c q' c' :
  invariant {| queue := q; prod := p; cons := c |} ->
  cons_step q c = Some (q', c') ->
  invariant {| queue := q'; prod := p; cons := c' |}.
Proof.
  unfold invariant, indices_ok, occupancy_chain. cbn [queue prod cons].
  intros (Hc & Hi & Hch & Hp & Hco) Hs.
  split; [|split; [|split; [|split]]]; trivial.
  all: destruct c as [pc it co].
  all: unfold cons_step, cons_has_data, wait in Hs; cbn [c_pc] in *.
  all: destruct pc; break_step Hs; cbn in *; to_prop.
  all: try tauto.
  all: try (destruct k; cbn in *; tauto).
  all: try wrap_lia.
Qed.

Lemma invariant_step (s : system T) e s' :
  invariant s -> step s e s' -> invariant s'.
Proof.
  intros Hi Hs.
  destruct Hs as [s how item force Hf | s q' p' Hs | s item Hf | s co Hf
                 | s q' c' Hs].
  - destruct Hi as (Hc & Hx & Hch & Hp & Hco).
    unfold invariant. cbn. unfold prod_free in Hf.
    destruct (p_pc (prod s)); try discriminate; cbn in *;
      (split; [|split; [|split; [|split]]]); trivial.
  - destruct s. eapply invariant_prod_step; eauto.
  - destruct Hi as (Hc & Hx & Hch & Hp & Hco).
    unfold invariant. cbn. tauto.
  - destruct Hi as (Hc & Hx & Hch & Hp & Hco).
    unfold invariant. cbn. tauto.
  - destruct s. eapply invariant_cons_step; eauto.
Qed.

(** The 64-bit difference of the two private indices follows the unbounded
    count of advances. *)
Lemma in_flight_step (s : system T) e s' :
  invariant s -> step s e s' ->
  dist (prod_pi (queue s')) (cons_ci (queue s'))
  = dist (prod_pi (queue s)) (cons_ci (queue s)) + pushed_by e - popped_by e.
Proof.
  intros (Hc & Hx & Hch & Hp & Hco) Hs.
  unfold occupancy_chain in Hch.
  destruct Hs as [s how item force Hf | s q' p' Hs | s item Hf | s co Hf
                 | s q' c' Hs]; cbn [queue prod cons pushed_by popped_by];
    try lia.
  - destruct (prod_step_frame _ _ _ _ Hs) as (_ & -> & _).
    destruct s as [q p c]; cbn [queue prod cons] in *.
    destruct p as [pc it how fo].
    unfold prod_effect, prod_step, prod_has_space, wait in *; cbn [p_pc] in *.
    destruct pc; break_step Hs; cbn in *; to_prop; try lia.
    wrap_lia.
  - destruct (cons_step_frame _ _ _ _ Hs) as (-> & _).
    destruct s as [q p c]; cbn [queue prod cons] in *.
    destruct c as [pc it co].
    unfold cons_effect, cons_step, cons_has_data, wait in *; cbn [c_pc] in *.
    assert (0 <= prod_granted (p_pc p)) by (destruct (p_pc p); cbn; lia).
    destruct pc; break_step Hs; cbn in *; to_prop; try lia.
    wrap_lia.
Qed.

Lemma invariant_steps (s : system T) pushed popped s' :
  invariant s -> steps s pushed popped s' ->
  invariant s'
  /\ dist (prod_pi (queue s')) (cons_ci (queue s'))
     = dist (prod_pi (queue s)) (cons_ci (queue s)) + pushed - popped
  /\ queue_capacity (queue s') = queue_capacity (queue s)
  /\ ring_capacity (queue s') = ring_capacity (queue s).
Proof.
  intros Hi Hs. induction Hs as [s | s1 a b s2 e s3 Hs IH Hst].
  - split; [assumption|split; [lia|split; reflexivity]].
  - destruct (IH Hi) as (Hi2 & Hd & Hq & Hr).
    split; [eapply invariant_step; eauto|].
    split; [rewrite (in_flight_step _ _ _ Hi2 Hst); lia|].
    rewrite <- Hq, <- Hr.
    destruct Hst as [? ? ? ? ? | ? ? ? Hx | ? ? ? | ? ? ? | ? ? ? Hx]; cbn; auto.
    + destruct (prod_step_frame _ _ _ _ Hx) as (_ & _ & _ & _ & _ & ? & ?); auto.
    + destruct (cons_step_frame _ _ _ _ Hx) as (_ & _ & _ & _ & _ & ? & ?); auto.
Qed.

Lemma invariant_start ring_cap c :
  1 <= c < modulus -> invariant (start (initial ring_cap c)).
Proof.
  intros Hc. unfold invariant, indices_ok, occupancy_chain. cbn.
  repeat split; trivial; try wrap_lia; try (unwrap; lia).
Qed.

End Interleavings.

(** ** What the constructor builds *)

Section Construction.

Context {T : Type} `{Element T}.

(** Rounding to [double] never goes below the leading power of two. *)
Lemma double_of_size_t_lower c :
  1 <= c -> 2 ^ Z.log2 c <= double_of_size_t c.
Proof.
  intros Hc. unfold double_of_size_t.
  pose proof (Z.log2_spec c ltac:(lia)) as [Hlo _].
  destruct (Z.leb_spec (Z.log2 c - 52) 0) as [He | He]; [lia|].
  set (e := Z.log2 c - 52) in *.
  assert (Hp : 2 ^ Z.log2 c = 2 ^ 52 * 2 ^ e).
  { replace (Z.log2 c) with (52 + e) by (unfold e; lia).
    apply Z.pow_add_r; lia. }
  assert (Hu : 0 < 2 ^ e) by (apply Z.pow_pos_nonneg; lia).
  assert (Hm : 2 ^ 52 <= c / 2 ^ e).
  { apply Z.div_le_lower_bound; lia. }
  rewrite Hp.
  apply Z.mul_le_mono_nonneg_r; [lia|].
  repeat match goal with |- context [if ?b then _ else _] => destruct b end;
    lia.
Qed.

(** Integers of at most 53 bits are doubles. *)
Lemma double_of_size_t_exact c :
  0 <= c <= 2 ^ 53 -> double_of_size_t c = c.
Proof.
  intros Hc. unfold double_of_size_t.
  destruct (Z.leb_spec (Z.log2 c - 52) 0) as [He | He]; [reflexivity|].
  assert (0 < c).
  { destruct (Z.eq_dec c 0) as [-> | ]; [cbn in He|]; lia. }
  assert (Z.log2 c <= 53).
  { change 53 with (Z.log2 (2 ^ 53)). apply Z.log2_le_mono. lia. }
  assert (Hl : Z.log2 c = 53) by lia.
  assert (c = 2 ^ 53).
  { pose proof (Z.log2_spec c ltac:(lia)) as [Hlo _]. rewrite Hl in Hlo. lia. }
  subst c. reflexivity.
Qed.

(** What the constructor builds when it builds something. *)
Lemma SPSCQueue_new_Constructed c (q : SPSCQueue T) :
  1 <= c -> SPSCQueue_new c = Constructed q ->
  c < modulus
  /\ exists e, 0 <= e < 64 /\ e = Z.log2_up (double_of_size_t c)
               /\ q = initial (2 ^ e) c.
Proof.
  intros Hc. unfold SPSCQueue_new.
  pose proof (double_of_size_t_lower c Hc) as Hd.
  pose proof (Z.log2_spec c ltac:(lia)) as [Hlo Hhi].
  assert (0 < 2 ^ Z.log2 c) by (apply Z.pow_pos_nonneg; [lia|apply Z.log2_nonneg]).
  destruct (Z.eqb_spec (double_of_size_t c) 0); [discriminate|].
  destruct (Z.leb_spec 64 (Z.log2_up (double_of_size_t c))) as [|He];
    [discriminate|].
  destruct (Z.leb_spec (Z.shiftl 1 (Z.log2_up (double_of_size_t c))) max_size);
    [|discriminate].
  intros [= <-].
  pose proof (Z.log2_up_nonneg (double_of_size_t c)).
  split.
  - destruct (Z.ltb_spec c modulus) as [|Hbig]; [assumption|exfalso].
    assert (64 <= Z.log2 c).
    { change 64 with (Z.log2 modulus). apply Z.log2_le_mono. assumption. }
    assert (2 ^ 64 <= 2 ^ Z.log2 c) by (apply Z.pow_le_mono_r; lia).
    assert (64 <= Z.log2_up (double_of_size_t c)); [|lia].
    change 64 with (Z.log2_up (2 ^ 64)). apply Z.log2_up_le_mono. lia.
  - eexists. split; [|split; [reflexivity|]]; [lia|].
    rewrite Z.shiftl_1_l. reflexivity.
Qed.

End Construction.

(** ** Occupancy *)

Section Occupancy.

Context {T : Type} `{Element T}.

Lemma act_step (a : action) (s : system T) e s' :
  act a s = Some (e, s') -> step s e s'.
Proof.
  unfold act. intros Ha. destruct a; break_step Ha; now constructor.
Qed.

Lemma exec_steps sched : forall (s0 s : system T) a b a' b' s',
  steps s0 a b s -> exec sched a b s = Some (a', b', s') -> steps s0 a' b' s'.
Proof.
  induction sched as [|x sched IH]; cbn; intros s0 s a b a' b' s' Hs He.
  - now inversion He; subst.
  - destruct (act x s) as [[e s1]|] eqn:Ha; [|discriminate].
    eapply IH; [|eassumption]. econstructor; [eassumption|].
    eapply act_step; eassumption.
Qed.

(** C2.  Occupancy invariant: on a queue constructed with capacity
    [c >= 1], after any interleaving of producer and consumer steps, the
    64-bit difference of the producer index and the consumer index is the
    true number of elements in flight (advances of the one minus advances of
    the other) and lies in [0, c]; the same bound holds between the published
    indices and in each side's own view; and from the moment
    [prod_wait_space(1)] has found space until [prod_advance] has counted the
    element, at most [c - 1] elements are in flight. *)
Theorem occupancy_invariant c (q : SPSCQueue T) pushed popped s :
  1 <= c ->
  SPSCQueue_new c = Constructed q ->
  steps (start q) pushed popped s ->
  queue_capacity (queue s) = c
  /\ dist (prod_pi (queue s)) (cons_ci (queue s)) = pushed - popped
  /\ 0 <= pushed - popped <= c
  /\ dist (__prod_index (queue s)) (__cons_index (queue s)) <= c
  /\ dist (prod_pi (queue s)) (prod_ci (queue s)) <= c
  /\ dist (cons_pi (queue s)) (cons_ci (queue s)) <= c
  /\ (prod_granted (p_pc (prod s)) = 1 ->
      dist (prod_pi (queue s)) (prod_ci (queue s)) <= c - 1
      /\ pushed - popped <= c - 1).
Proof.
  intros Hc Hnew Hs.
  destruct (SPSCQueue_new_Constructed c q Hc Hnew) as (Hlt & e & He & _ & ->).
  destruct (invariant_steps _ _ _ _ (invariant_start (2 ^ e) c (conj Hc Hlt)) Hs)
    as ((_ & Hx & Hch & _ & _) & Hd & Hq & _).
  cbn in Hd, Hq. rewrite Hq in Hch. unfold occupancy_chain in Hch.
  assert (Hg : 0 <= prod_granted (p_pc (prod s)))
    by (destruct (p_pc (prod s)); cbn; lia).
  change (dist 0 0) with 0 in Hd.
  split; [assumption|]. split; [lia|].
  replace (pushed - popped) with (dist (prod_pi (queue s)) (cons_ci (queue s)))
    by lia.
  clear Hd Hs Hnew Hq He.
  repeat apply conj; wrap_lia.
Qed.

End Occupancy.

(** ** Runs of one thread *)

Section RunFacts.

Context {Q L : Type}.
Variable next : Q -> L -> option (Q * L).
Variable finished : L -> bool.
Hypothesis finished_stuck : forall q l, finished l = true -> next q l = None.

Lemma runs_app n m q l q1 l1 q2 l2 :
  runs next n q l q1 l1 -> runs next m q1 l1 q2 l2 ->
  runs next (n + m) q l q2 l2.
Proof.
  induction 1 as [|n q l qa la qb lb Hn _ IH]; cbn; intros Hm; [assumption|].
  econstructor; eauto.
Qed.

(** Enough fuel gives the result. *)
Lemma run_complete n q l q' l' :
  runs next n q l q' l' -> finished l' = true ->
  forall fuel, (n <= fuel)%nat -> run next finished fuel q l = Some (q', l').
Proof.
  induction 1 as [q l|n q l qa la qb lb Hn _ IH]; intros Hf fuel Hle.
  - destruct fuel; cbn; now rewrite Hf.
  - destruct fuel as [|fuel]; [lia|]. cbn.
    destruct (finished l) eqn:Hl.
    + rewrite (finished_stuck q l Hl) in Hn. discriminate.
    + rewrite Hn. apply IH; [assumption|lia].
Qed.

(** A thread that reaches a point where it cannot move never returns. *)
Lemma run_stuck n q l q' l' :
  runs next n q l q' l' -> finished l' = false -> next q' l' = None ->
  forall fuel, run next finished fuel q l = None.
Proof.
  induction 1 as [q l|n q l qa la qb lb Hn _ IH]; intros Hf Hs fuel.
  - destruct fuel; cbn; rewrite Hf; [reflexivity|now rewrite Hs].
  - destruct fuel as [|fuel]; cbn.
    + destruct (finished l) eqn:Hl; [|reflexivity].
      rewrite (finished_stuck q l Hl) in Hn. discriminate.
    + destruct (finished l) eqn:Hl.
      * rewrite (finished_stuck q l Hl) in Hn. discriminate.
      * rewrite Hn. now apply IH.
Qed.

(** Whatever the fuel, a run gives the result or nothing. *)
Lemma run_complete_or_none n q l q' l' :
  runs next n q l q' l' -> finished l' = true ->
  forall fuel, run next finished fuel q l = Some (q', l')
               \/ run next finished fuel q l = None.
Proof.
  induction 1 as [q l|n q l qa la qb lb Hn _ IH]; intros Hf fuel.
  - left. destruct fuel; cbn; now rewrite Hf.
  - destruct (finished l) eqn:Hl.
    { rewrite (finished_stuck q l Hl) in Hn. discriminate. }
    destruct fuel as [|fuel]; cbn; rewrite Hl; [now right|].
    rewrite Hn. now apply IH.
Qed.

End RunFacts.

(** ** The member functions step by step *)

Section Blocks.

Context {T : Type} `{Element T}.

Lemma prod_free_stuck (q : SPSCQueue T) p :
  prod_free p = true -> prod_step q p = None.
Proof. unfold prod_free, prod_step. destruct (p_pc p); easy. Qed.

Lemma cons_free_stuck (q : SPSCQueue T) c :
  cons_free c = true -> cons_step q c = None.
Proof. unfold cons_free, cons_step. destruct (c_pc c); easy. Qed.

(** The steps of [prod_notify] add up to the block. *)
Lemma prod_notify_runs (q : SPSCQueue T) p k :
  exists n, (n <= 6)%nat
    /\ runs prod_step n q (prod_goto (P_notify_old k) p)
            (prod_notify q) (prod_goto (prod_notify_return k) p).
Proof.
  unfold prod_notify. cbn.
  destruct (crossed (prod_pi q) (__prod_index q) (cons_event q)) eqn:Hx.
  - exists 6%nat. split; [lia|].
    do 3 (eapply runs_step; [reflexivity|]).
    eapply runs_step; [cbn; rewrite Hx; reflexivity|].
    do 2 (eapply runs_step; [reflexivity|]). apply runs_done.
  - exists 4%nat. split; [lia|].
    do 3 (eapply runs_step; [reflexivity|]).
    eapply runs_step; [cbn; rewrite Hx; reflexivity|]. apply runs_done.
Qed.

Lemma cons_notify_runs (q : SPSCQueue T) c k :
  exists n, (n <= 6)%nat
    /\ runs cons_step n q (cons_goto (C_notify_old k) c)
            (cons_notify q) (cons_goto (cons_notify_return k) c).
Proof.
  unfold cons_notify. cbn.
  destruct (crossed (cons_ci q) (__cons_index q) (prod_event q)) eqn:Hx.
  - exists 6%nat. split; [lia|].
    do 3 (eapply runs_step; [reflexivity|]).
    eapply runs_step; [cbn; rewrite Hx; reflexivity|].
    do 2 (eapply runs_step; [reflexivity|]). apply runs_done.
  - exists 4%nat. split; [lia|].
    do 3 (eapply runs_step; [reflexivity|]).
    eapply runs_step; [cbn; rewrite Hx; reflexivity|]. apply runs_done.
Qed.

End Blocks.

(** ** The notify test *)

Section Notify.

Context {T : Type} `{Element T}.

(** Walking forward from [old - 1], the event is met after at least one and
    at most [now - old] steps. *)
Lemma in_crossed_interval_dist now old event :
  is_index event ->
  in_crossed_interval now old event
  <-> 0 < dist event (old - 1) <= dist now old.
Proof.
  intros He. unfold in_crossed_interval. split.
  - intros (k & Hk & ->). wrap_lia.
  - intros Hd. exists (dist now old - dist event (old - 1)). wrap_lia.
Qed.

(** C1.  Threshold-crossing test.  For 64-bit [old], [now] and [event] with
    [now - old <= 2^63], the comparison
    [index_t(now - event - 1) < index_t(now - old)] holds exactly when
    [event] lies in the half-open interval (old - 1, now - 1] modulo 2^64;
    [event = now - 1] is crossed by any advance that moved, [event = old - 1]
    is not; and [cons_notify] (with [now = cons_ci], [old = __cons_index],
    [event = prod_event]) signals the producer semaphore and counts the
    signal exactly in that case, as [prod_notify] does on the other side. *)
Theorem threshold_crossing (q : SPSCQueue T) now old event :
  is_index now -> is_index old -> is_index event ->
  dist now old <= 2 ^ 63 ->
  (crossed now old event = true <-> in_crossed_interval now old event)
  /\ (crossed now old event = true
      <-> 0 < dist event (old - 1) <= dist now old)
  /\ (now <> old -> crossed now old (wrap (now - 1)) = true)
  /\ crossed now old (wrap (old - 1)) = false
  /\ (cons_ci q = now -> __cons_index q = old -> prod_event q = event ->
      __cons_index (cons_notify q) = now
      /\ (in_crossed_interval now old event ->
          prod_sem (cons_notify q) = signal (prod_sem q)
          /\ cons_not (cons_notify q) = wrap (cons_not q + 1))
      /\ (~ in_crossed_interval now old event ->
          prod_sem (cons_notify q) = prod_sem q
          /\ cons_not (cons_notify q) = cons_not q))
  /\ (prod_pi q = now -> __prod_index q = old -> cons_event q = event ->
      __prod_index (prod_notify q) = now
      /\ (in_crossed_interval now old event ->
          cons_sem (prod_notify q) = signal (cons_sem q)
          /\ prod_not (prod_notify q) = wrap (prod_not q + 1))
      /\ (~ in_crossed_interval now old event ->
          cons_sem (prod_notify q) = cons_sem q
          /\ prod_not (prod_notify q) = prod_not q)).
Proof.
  intros Hn Ho He _.
  pose proof (crossed_spec now old event He) as Hx.
  split; [assumption|]. split.
  { rewrite Hx. now apply in_crossed_interval_dist. }
  split. { intros Hne. unfold crossed. apply Z.ltb_lt. wrap_lia. }
  split. { unfold crossed. apply Z.ltb_ge. wrap_lia. }
  split.
  - intros <- <- <-. unfold cons_notify. cbn.
    destruct (crossed (cons_ci q) (__cons_index q) (prod_event q)); cbn.
    + split; [reflexivity|]. split; [now split|].
      intros Hno. exfalso. apply Hno, Hx. reflexivity.
    + split; [reflexivity|]. split; [|now split].
      intros Hin. apply Hx in Hin. discriminate.
  - intros <- <- <-. unfold prod_notify. cbn.
    destruct (crossed (prod_pi q) (__prod_index q) (cons_event q)); cbn.
    + split; [reflexivity|]. split; [now split|].
      intros Hno. exfalso. apply Hno, Hx. reflexivity.
    + split; [reflexivity|]. split; [|now split].
      intros Hin. apply Hx in Hin. discriminate.
Qed.

End Notify.

(** ** Calls that find space or data at once *)

Section Calls.

Context {T : Type} `{Element T}.

Lemma push_front_fast_runs how (x : T) force (q : SPSCQueue T) :
  fst (prod_has_space 1 q) = true ->
  exists n, (n <= 11)%nat
    /\ runs prod_step n q (push_front_call how x force)
            (push_front_fast how x force q)
            (prod_goto (P_return true) (push_front_call how x force)).
Proof.
  intros Hs. unfold push_front_fast.
  set (q3 := set_prod_pi _ _).
  assert (R5 : runs prod_step 5 q (push_front_call how x force) q3
                 (prod_goto (if force then P_notify_old Prod_advance
                             else P_return true)
                            (push_front_call how x force))).
  { eapply runs_step.
    { unfold prod_step, push_front_call, prod_has_space in *.
      cbn [p_pc fst] in *. rewrite Hs. reflexivity. }
    do 3 (eapply runs_step; [reflexivity|]).
    eapply runs_step; [|apply runs_done].
    cbn. destruct force; reflexivity. }
  destruct force.
  - destruct (prod_notify_runs q3 (push_front_call how x true) Prod_advance)
      as (n & Hn & R).
    exists (5 + n)%nat. split; [lia|]. eapply runs_app; eassumption.
  - exists 5%nat. split; [lia|]. exact R5.
Qed.

Lemma push_front_fast_ok how (x : T) force (q : SPSCQueue T) fuel :
  fst (prod_has_space 1 q) = true -> (11 <= fuel)%nat ->
  push_front fuel how x force q = Some (true, push_front_fast how x force q).
Proof.
  intros Hs Hf.
  destruct (push_front_fast_runs how x force q Hs) as (n & Hn & R).
  unfold push_front, run_prod.
  rewrite (run_complete _ _ prod_free_stuck _ _ _ _ _ R eq_refl fuel)
    by lia.
  reflexivity.
Qed.

Lemma cons_advance_runs have (q : SPSCQueue T) c :
  exists n, (n <= 8)%nat
    /\ runs cons_step n q (cons_goto (C_advance have) c)
            (cons_advance have q) (cons_goto (C_return true) c).
Proof.
  unfold cons_advance. set (q1 := set_cons_ci _ q).
  assert (R1 : runs cons_step 1 q (cons_goto (C_advance have) c) q1
                 (cons_goto C_advance_test c)).
  { eapply runs_step; [reflexivity|apply runs_done]. }
  destruct (cons_pi q1 =? cons_ci q1) eqn:E.
  - destruct (cons_notify_runs q1 c Cons_advance) as (n & Hn & R).
    exists (1 + (1 + n))%nat. split; [lia|].
    eapply runs_app; [exact R1|].
    eapply runs_step; [|exact R].
    unfold cons_step. cbn [c_pc cons_goto]. rewrite E. reflexivity.
  - exists (1 + 1)%nat. split; [lia|].
    eapply runs_app; [exact R1|].
    eapply runs_step; [|apply runs_done].
    unfold cons_step. cbn [c_pc cons_goto]. rewrite E. reflexivity.
Qed.

Lemma pop_back_fast_runs (item : T) c (q : SPSCQueue T) :
  fst (cons_has_data 1 q) = true ->
  exists n, (n <= 12)%nat
    /\ runs cons_step n q (pop_back_item_call item c)
            (snd (pop_back_fast q))
            {| c_pc := C_return true; c_item := fst (pop_back_fast q);
               c_container := c_container c |}.
Proof.
  intros Hs. unfold pop_back_fast.
  set (q1 := set_cons_pi _ q).
  destruct (elt_move (ring q1 (normalize_index q1 (cons_ci q1))))
    as [v rest] eqn:Em.
  cbn [fst snd].
  set (q2 := set_ring _ q1).
  assert (R4 : runs cons_step 4 q (pop_back_item_call item c) q2
                 {| c_pc := C_advance 1; c_item := v;
                    c_container := c_container c |}).
  { eapply runs_step; [reflexivity|].
    eapply runs_step.
    { unfold cons_step, cons_has_data in *. cbn [c_pc cons_goto fst] in *.
      rewrite Hs. reflexivity. }
    eapply runs_step; [reflexivity|].
    eapply runs_step; [|apply runs_done].
    unfold cons_step. cbn [c_pc cons_goto]. fold q1. rewrite Em. reflexivity. }
  destruct (cons_advance_runs 1 q2 {| c_pc := C_advance 1; c_item := v;
                                      c_container := c_container c |})
    as (n & Hn & R).
  exists (4 + n)%nat. split; [lia|]. eapply runs_app; [exact R4|exact R].
Qed.

Lemma pop_back_fast_ok (item : T) (q : SPSCQueue T) fuel :
  fst (cons_has_data 1 q) = true -> (12 <= fuel)%nat ->
  pop_back fuel item q
  = Some (true, fst (pop_back_fast q), snd (pop_back_fast q)).
Proof.
  intros Hs Hf.
  destruct (pop_back_fast_runs item idle_consumer q Hs) as (n & Hn & R).
  unfold pop_back, run_cons.
  rewrite (run_complete _ _ cons_free_stuck _ _ _ _ _ R eq_refl fuel)
    by lia.
  reflexivity.
Qed.

(** The [for] loop of [pop_back(&container)]: [n] turns and the exit. *)
Lemma for_runs num n : forall i (q : SPSCQueue T) item acc,
  0 <= i -> i + Z.of_nat n = num -> num < modulus ->
  runs cons_step (S n) q
       {| c_pc := C_for num i; c_item := item; c_container := acc |}
       (fst (move_out n i q acc))
       {| c_pc := C_advance num; c_item := item;
          c_container := snd (move_out n i q acc) |}.
Proof.
  induction n as [|n IH]; intros i q item acc Hi Hn Hnum.
  - eapply runs_step; [|apply runs_done].
    unfold cons_step. cbn [c_pc].
    replace (i <? num) with false by (symmetry; apply Z.ltb_ge; lia).
    reflexivity.
  - cbn [move_out].
    destruct (elt_move (ring q (normalize_index q (wrap (cons_ci q + i)))))
      as [v rest] eqn:Em.
    eapply runs_step.
    { unfold cons_step. cbn [c_pc c_item c_container].
      replace (i <? num) with true by (symmetry; apply Z.ltb_lt; lia).
      rewrite Em. reflexivity. }
    apply IH; trivial; wrap_lia.
Qed.

Lemma pop_back_vector_fast_runs (container : list T) c (q : SPSCQueue T) :
  fst (cons_has_data 1 q) = true ->
  exists n,
    (n <= Z.to_nat (dist (__prod_index q) (cons_ci q)) + 12)%nat
    /\ runs cons_step n q (pop_back_vector_call container c)
            (snd (pop_back_vector_fast container q))
            {| c_pc := C_return true; c_item := c_item c;
               c_container := fst (pop_back_vector_fast container q) |}.
Proof.
  intros Hs. unfold pop_back_vector_fast.
  set (q1 := set_cons_pi _ q).
  change (dist (cons_pi q1) (cons_ci q1))
    with (dist (__prod_index q) (cons_ci q)).
  set (num := dist (__prod_index q) (cons_ci q)).
  destruct (move_out (Z.to_nat num) 0 q1 container) as [q2 co] eqn:Em.
  cbn [fst snd].
  assert (Hnum : 0 <= num < modulus) by (subst num; wrap_lia).
  assert (R3 : runs cons_step 3 q (pop_back_vector_call container c) q1
                 {| c_pc := C_for num 0; c_item := c_item c;
                    c_container := container |}).
  { eapply runs_step; [reflexivity|].
    eapply runs_step.
    { unfold cons_step, cons_has_data in *. cbn [c_pc cons_goto fst] in *.
      rewrite Hs. reflexivity. }
    eapply runs_step; [reflexivity|apply runs_done]. }
  pose proof (for_runs num (Z.to_nat num) 0 q1 (c_item c) container) as Rf.
  rewrite Em in Rf. cbn [fst snd] in Rf.
  destruct (cons_advance_runs num q2 {| c_pc := C_advance num;
                                        c_item := c_item c;
                                        c_container := co |})
    as (n & Hn & R).
  exists (3 + (S (Z.to_nat num) + n))%nat. split; [lia|].
  eapply runs_app; [exact R3|]. eapply runs_app; [|exact R].
  apply Rf; lia.
Qed.

Lemma pop_back_vector_fast_ok (container : list T) (q : SPSCQueue T) fuel :
  fst (cons_has_data 1 q) = true ->
  (Z.to_nat (dist (__prod_index q) (cons_ci q)) + 12 <= fuel)%nat ->
  pop_back_vector fuel container q
  = Some (true, fst (pop_back_vector_fast container q),
          snd (pop_back_vector_fast container q)).
Proof.
  intros Hs Hf.
  destruct (pop_back_vector_fast_runs container idle_consumer q Hs)
    as (n & Hn & R).
  unfold pop_back_vector, run_cons.
  rewrite (run_complete _ _ cons_free_stuck _ _ _ _ _ R eq_refl fuel)
    by lia.
  reflexivity.
Qed.

End Calls.

(** ** Ring positions *)

Section Ring.

Context {T : Type} `{Element T}.

Lemma pow2_range e : 0 <= e < 64 -> 1 <= 2 ^ e <= 2 ^ 63.
Proof.
  intros He. split.
  - change 1 with (2 ^ 0). apply Z.pow_le_mono_r; lia.
  - apply Z.pow_le_mono_r; lia.
Qed.

(** With a power of two the mask is a remainder. *)
Lemma normalize_index_mod (q : SPSCQueue T) e index :
  ring_sized q e -> 0 <= index ->
  normalize_index q index = index mod 2 ^ e.
Proof.
  intros [He Hr] Hi. unfold normalize_index. rewrite Hr.
  pose proof (pow2_range e He) as Hp.
  rewrite wrap_small by (unwrap; lia).
  rewrite <- Z.land_ones by lia. f_equal.
  rewrite Z.ones_equiv. lia.
Qed.

Lemma normalize_index_range (q : SPSCQueue T) e index :
  ring_sized q e -> 0 <= index ->
  0 <= normalize_index q index < ring_capacity q.
Proof.
  intros Hs Hi. rewrite (normalize_index_mod q e index Hs Hi).
  destruct Hs as [He ->]. apply Z.mod_pos_bound.
  pose proof (pow2_range e He). lia.
Qed.

Lemma wrap_mod_pow2 e z : 0 <= e < 64 -> wrap z mod 2 ^ e = z mod 2 ^ e.
Proof.
  intros He. unfold wrap. apply Z.mod_mod_divide.
  exists (2 ^ (64 - e)). unfold modulus, index_bits.
  rewrite <- Z.pow_add_r by lia. f_equal. lia.
Qed.

(** Two counters less than a ring apart sit in different slots. *)
Lemma normalize_index_distinct (q : SPSCQueue T) e a j k :
  ring_sized q e -> 0 <= j < k -> k - j < 2 ^ e ->
  normalize_index q (wrap (a + j)) <> normalize_index q (wrap (a + k)).
Proof.
  intros Hs Hjk Hlt.
  rewrite !(normalize_index_mod q e) by (trivial; apply wrap_range).
  destruct Hs as [He _]. rewrite !wrap_mod_pow2 by assumption.
  intros Heq.
  assert (Hz : (k - j) mod 2 ^ e = 0).
  { replace (k - j) with ((a + k) - (a + j)) by lia.
    rewrite Zminus_mod, Heq, Z.sub_diag. apply Z.mod_0_l.
    pose proof (pow2_range e He). lia. }
  rewrite Z.mod_small in Hz by lia. lia.
Qed.

Lemma slots_from_length (q : SPSCQueue T) n : length (slots_from q n) = n.
Proof. unfold slots_from. now rewrite length_map, length_seq. Qed.

Lemma slots_from_S (q : SPSCQueue T) n :
  slots_from q (S n)
  = slots_from q n
    ++ [ring q (normalize_index q (wrap (cons_ci q + Z.of_nat n)))].
Proof. unfold slots_from. now rewrite seq_S, map_app. Qed.

(** Slots that were not written hold what they held. *)
Lemma slots_from_ext (q q' : SPSCQueue T) n :
  ring_capacity q' = ring_capacity q -> cons_ci q' = cons_ci q ->
  (forall i, 0 <= i < Z.of_nat n ->
     ring q' (normalize_index q (wrap (cons_ci q + i)))
     = ring q (normalize_index q (wrap (cons_ci q + i)))) ->
  slots_from q' n = slots_from q n.
Proof.
  intros Hr Hc Hs. unfold slots_from. apply map_ext_in. intros i Hi.
  apply in_seq in Hi. unfold normalize_index in *. rewrite Hr, Hc.
  apply Hs. lia.
Qed.

(** After the consumer index moved on by one. *)
Lemma slots_from_shift (q q' : SPSCQueue T) n :
  ring_capacity q' = ring_capacity q -> cons_ci q' = wrap (cons_ci q + 1) ->
  (forall i, 1 <= i <= Z.of_nat n ->
     ring q' (normalize_index q (wrap (cons_ci q + i)))
     = ring q (normalize_index q (wrap (cons_ci q + i)))) ->
  slots_from q' n = tl (slots_from q (S n)).
Proof.
  intros Hr Hc Hs. unfold slots_from. cbn [seq map tl].
  rewrite <- seq_shift, map_map. apply map_ext_in. intros i Hi.
  apply in_seq in Hi. unfold normalize_index in *. rewrite Hr, Hc.
  replace (wrap (wrap (cons_ci q + 1) + Z.of_nat i))
    with (wrap (cons_ci q + Z.of_nat (S i))) by wrap_lia.
  apply Hs. lia.
Qed.

Lemma prod_notify_fields (q : SPSCQueue T) :
  ring (prod_notify q) = ring q
  /\ __prod_index (prod_notify q) = prod_pi q
  /\ prod_pi (prod_notify q) = prod_pi q
  /\ prod_ci (prod_notify q) = prod_ci q
  /\ prod_event (prod_notify q) = prod_event q
  /\ prod_sem (prod_notify q) = prod_sem q
  /\ cons_ci (prod_notify q) = cons_ci q
  /\ cons_pi (prod_notify q) = cons_pi q
  /\ __cons_index (prod_notify q) = __cons_index q
  /\ cons_event (prod_notify q) = cons_event q
  /\ cons_not (prod_notify q) = cons_not q
  /\ ring_capacity (prod_notify q) = ring_capacity q
  /\ queue_capacity (prod_notify q) = queue_capacity q.
Proof.
  unfold prod_notify. cbn.
  destruct (crossed (prod_pi q) (__prod_index q) (cons_event q)); cbn;
    repeat split.
Qed.

Lemma cons_notify_fields (q : SPSCQueue T) :
  ring (cons_notify q) = ring q
  /\ __cons_index (cons_notify q) = cons_ci q
  /\ cons_ci (cons_notify q) = cons_ci q
  /\ cons_pi (cons_notify q) = cons_pi q
  /\ cons_event (cons_notify q) = cons_event q
  /\ cons_sem (cons_notify q) = cons_sem q
  /\ prod_ci (cons_notify q) = prod_ci q
  /\ prod_pi (cons_notify q) = prod_pi q
  /\ __prod_index (cons_notify q) = __prod_index q
  /\ prod_event (cons_notify q) = prod_event q
  /\ prod_not (cons_notify q) = prod_not q
  /\ ring_capacity (cons_notify q) = ring_capacity q
  /\ queue_capacity (cons_notify q) = queue_capacity q.
Proof.
  unfold cons_notify. cbn.
  destruct (crossed (cons_ci q) (__cons_index q) (prod_event q)); cbn;
    repeat split.
Qed.

Lemma cons_advance_fields have (q : SPSCQueue T) :
  ring (cons_advance have q) = ring q
  /\ cons_ci (cons_advance have q) = wrap (cons_ci q + have)
  /\ cons_pi (cons_advance have q) = cons_pi q
  /\ prod_pi (cons_advance have q) = prod_pi q
  /\ __prod_index (cons_advance have q) = __prod_index q
  /\ ring_capacity (cons_advance have q) = ring_capacity q
  /\ queue_capacity (cons_advance have q) = queue_capacity q
  /\ (cons_pi q = wrap (cons_ci q + have) ->
      __cons_index (cons_advance have q) = wrap (cons_ci q + have)).
Proof.
  unfold cons_advance. cbn.
  destruct (Z.eqb_spec (cons_pi q) (wrap (cons_ci q + have))) as [E|E].
  - pose proof (cons_notify_fields
                  (set_cons_ci (wrap (cons_ci q + have)) q)) as F.
    cbn in F. repeat split; try apply F. intros _. apply F.
  - cbn. repeat split. intros E'. contradiction.
Qed.

(** A forced push appends to what the consumer can take. *)
Lemma push_front_fast_available how (x : T) (q : SPSCQueue T) e :
  ring_sized q e ->
  is_index (prod_pi q) -> is_index (cons_ci q) ->
  __prod_index q = prod_pi q ->
  dist (prod_pi q) (cons_ci q) < 2 ^ e ->
  available (push_front_fast how x true q)
  = available q ++ [elt_forward how x].
Proof.
  intros Hs Hp Hc Hpub Hlt. unfold push_front_fast.
  match goal with |- available (prod_notify ?x) = _ => set (q3 := x) end.
  destruct (prod_notify_fields q3) as (Fr & Fpi & _ & _ & _ & _ & Fci & _ & _
                                       & _ & _ & Frc & _).
  pose proof (pow2_range e (proj1 Hs)) as Hpow.
  unfold available. rewrite Fpi, Fci, Hpub. cbn [q3 prod_pi cons_ci set_prod_pi
    set_ring set_prod_ci].
  set (n := dist (prod_pi q) (cons_ci q)) in *.
  assert (Hn : 0 <= n) by (subst n; wrap_lia).
  replace (dist (wrap (prod_pi q + 1)) (cons_ci q)) with (n + 1)
    by (subst n; wrap_lia).
  rewrite Z2Nat.inj_add by lia. change (Z.to_nat 1) with 1%nat.
  rewrite Nat.add_1_r, slots_from_S. f_equal.
  - apply slots_from_ext; [assumption|assumption|].
    intros i Hi. rewrite Fr. cbn. unfold store.
    change (normalize_index (set_prod_ci (__cons_index q) q) (prod_pi q))
      with (normalize_index q (prod_pi q)).
    destruct (Z.eqb_spec (normalize_index q (wrap (cons_ci q + i)))
                         (normalize_index q (prod_pi q))) as [E|E];
      [|reflexivity].
    exfalso. revert E.
    replace (prod_pi q) with (wrap (cons_ci q + n)) by (subst n; wrap_lia).
    apply (normalize_index_distinct q e); [assumption|lia|lia].
  - f_equal. rewrite Fr, Fci. cbn. unfold store, normalize_index.
    rewrite Frc. cbn.
    rewrite Z2Nat.id by lia.
    replace (wrap (cons_ci q + n)) with (prod_pi q) by (subst n; wrap_lia).
    now rewrite Z.eqb_refl.
Qed.

End Ring.

(** ** What the consumer takes *)

Section Taking.

Context {T : Type} `{Element T}.

(** A pop hands over the oldest element and leaves the rest. *)
Lemma pop_back_fast_available (q : SPSCQueue T) e :
  ring_sized q e -> is_index (cons_ci q) ->
  1 <= dist (__prod_index q) (cons_ci q) <= 2 ^ e ->
  fst (pop_back_fast q) = received (hd elt_default (available q))
  /\ available (snd (pop_back_fast q)) = tl (available q).
Proof.
  intros Hs Hc Hn. unfold pop_back_fast.
  set (q1 := set_cons_pi (__prod_index q) q).
  change (normalize_index q1 (cons_ci q1)) with (normalize_index q (cons_ci q)).
  change (ring q1) with (ring q).
  destruct (elt_move (ring q (normalize_index q (cons_ci q)))) as [v rest] eqn:Em.
  cbn [fst snd].
  set (q2 := set_ring _ q1).
  destruct (cons_advance_fields 1 q2) as (Fr & Fci & _ & _ & Fpi & Frc & _).
  pose proof (pow2_range e (proj1 Hs)) as Hpow.
  unfold available.
  set (n := dist (__prod_index q) (cons_ci q)) in *.
  replace (Z.to_nat n) with (S (Z.to_nat (n - 1))) by lia.
  split.
  - cbn. rewrite Z.add_0_r, (wrap_small _ Hc).
    unfold received. now rewrite Em.
  - rewrite Fpi, Fci. cbn [q2 q1 __prod_index cons_ci set_ring set_cons_pi].
    replace (dist (__prod_index q) (wrap (cons_ci q + 1))) with (n - 1)
      by (subst n; wrap_lia).
    apply slots_from_shift; [assumption|assumption|].
    intros i Hi. rewrite Fr. cbn. unfold store.
    destruct (Z.eqb_spec (normalize_index q (wrap (cons_ci q + i)))
                         (normalize_index q (cons_ci q))) as [E|E];
      [|reflexivity].
    exfalso. symmetry in E. revert E.
    rewrite <- (wrap_small _ Hc) at 1.
    replace (cons_ci q) with (cons_ci q + 0) at 1 by lia.
    apply (normalize_index_distinct q e); [assumption|lia|lia].
Qed.

(** The loop moves out the slots in index order and touches nothing but the
    ring. *)
Lemma move_out_spec e n : forall i (q : SPSCQueue T) acc,
  ring_sized q e -> 0 <= i -> i + Z.of_nat n < modulus ->
  Z.of_nat n <= 2 ^ e ->
  snd (move_out n i q acc)
  = acc ++ map (fun k => received
                  (ring q (normalize_index q
                             (wrap (cons_ci q + (i + Z.of_nat k))))))
               (seq 0 n)
  /\ exists r, fst (move_out n i q acc) = set_ring r q.
Proof.
  induction n as [|n IH]; intros i q acc Hs Hi Hin Hn.
  - cbn. rewrite app_nil_r. split; [reflexivity|].
    exists (ring q). now destruct q.
  - cbn [move_out].
    destruct (elt_move (ring q (normalize_index q (wrap (cons_ci q + i)))))
      as [v rest] eqn:Em.
    set (q' := set_ring _ q).
    replace (wrap (i + 1)) with (i + 1) by wrap_lia.
    destruct (IH (i + 1) q' (acc ++ [v]) Hs) as (Hc & r & Hr); try lia.
    split; [|exists r; rewrite Hr; reflexivity].
    rewrite Hc, <- app_assoc. f_equal.
    cbn [seq map]. rewrite Z.add_0_r. unfold received at 2. rewrite Em.
    cbn [fst app]. f_equal.
    rewrite <- seq_shift, map_map. apply map_ext_in. intros k Hk.
    apply in_seq in Hk. f_equal.
    change (cons_ci q') with (cons_ci q).
    change (normalize_index q') with (normalize_index q).
    change (ring q')
      with (store (ring q) (normalize_index q (wrap (cons_ci q + i))) rest).
    unfold store.
    replace (i + 1 + Z.of_nat k) with (i + Z.of_nat (S k)) by lia.
    destruct (Z.eqb_spec
                (normalize_index q (wrap (cons_ci q + (i + Z.of_nat (S k)))))
                (normalize_index q (wrap (cons_ci q + i)))) as [E|E];
      [|reflexivity].
    exfalso. symmetry in E. revert E.
    apply (normalize_index_distinct q e); [assumption|lia|lia].
Qed.

(** [pop_back(&container)] takes everything that is available and appends
    it. *)
Lemma pop_back_vector_fast_available container (q : SPSCQueue T) e :
  ring_sized q e -> is_index (cons_ci q) -> is_index (__prod_index q) ->
  dist (__prod_index q) (cons_ci q) <= 2 ^ e ->
  fst (pop_back_vector_fast container q)
  = container ++ map received (available q)
  /\ available (snd (pop_back_vector_fast container q)) = []
  /\ cons_ci (snd (pop_back_vector_fast container q)) = __prod_index q
  /\ __cons_index (snd (pop_back_vector_fast container q)) = __prod_index q
  /\ __prod_index (snd (pop_back_vector_fast container q)) = __prod_index q
  /\ prod_pi (snd (pop_back_vector_fast container q)) = prod_pi q.
Proof.
  intros Hs Hc Hp Hn. unfold pop_back_vector_fast.
  set (q1 := set_cons_pi (__prod_index q) q).
  change (dist (cons_pi q1) (cons_ci q1))
    with (dist (__prod_index q) (cons_ci q)).
  set (num := dist (__prod_index q) (cons_ci q)) in *.
  assert (Hnum : 0 <= num < modulus) by (subst num; wrap_lia).
  destruct (move_out_spec e (Z.to_nat num) 0 q1 container Hs)
    as (Hco & r & Hq2); try lia.
  destruct (move_out (Z.to_nat num) 0 q1 container) as [q2 co].
  cbn [fst snd] in *. subst q2 co.
  destruct (cons_advance_fields num (set_ring r q1))
    as (_ & Fci & _ & Fpi & Fpub & _ & _ & Fidx).
  cbn in Fci, Fpi, Fpub, Fidx.
  assert (Hw : wrap (cons_ci q + num) = __prod_index q)
    by (subst num; wrap_lia).
  rewrite Hw in *.
  repeat apply conj; trivial.
  - f_equal. unfold available, slots_from. fold num. rewrite map_map.
    reflexivity.
  - unfold available. rewrite Fpub, Fci.
    replace (dist (__prod_index q) (__prod_index q)) with 0 by wrap_lia.
    reflexivity.
  - now apply Fidx.
Qed.

End Taking.

(** ** Order of delivery *)

Section Fifo.

Context {T : Type} `{Element T}.

Lemma available_length (q : SPSCQueue T) :
  length (available q) = Z.to_nat (dist (__prod_index q) (cons_ci q)).
Proof. apply slots_from_length. Qed.

Lemma push_front_fast_fields how (x : T) (q : SPSCQueue T) :
  prod_pi (push_front_fast how x true q) = wrap (prod_pi q + 1)
  /\ __prod_index (push_front_fast how x true q) = wrap (prod_pi q + 1)
  /\ cons_ci (push_front_fast how x true q) = cons_ci q
  /\ __cons_index (push_front_fast how x true q) = __cons_index q
  /\ ring_capacity (push_front_fast how x true q) = ring_capacity q
  /\ queue_capacity (push_front_fast how x true q) = queue_capacity q.
Proof.
  unfold push_front_fast.
  match goal with |- prod_pi (prod_notify ?x) = _ /\ _ => set (q3 := x) end.
  destruct (prod_notify_fields q3) as (_ & F1 & F2 & _ & _ & _ & F3 & _ & F4
                                       & _ & _ & F5 & F6).
  rewrite F1, F2, F3, F4, F5, F6. cbn. repeat split.
Qed.

Lemma push_all_spec e fuel how (xs : list T) : forall q : SPSCQueue T,
  ring_sized q e -> queue_capacity q < modulus ->
  is_index (prod_pi q) -> is_index (cons_ci q) ->
  __prod_index q = prod_pi q ->
  dist (prod_pi q) (__cons_index q) + Z.of_nat (length xs)
  <= queue_capacity q ->
  dist (prod_pi q) (cons_ci q) + Z.of_nat (length xs) <= 2 ^ e ->
  (11 <= fuel)%nat ->
  exists q',
    push_all fuel how xs true q = Some (repeat true (length xs), q')
    /\ available q' = available q ++ map (elt_forward how) xs
    /\ prod_pi q' = wrap (prod_pi q + Z.of_nat (length xs))
    /\ __prod_index q' = prod_pi q'
    /\ cons_ci q' = cons_ci q
    /\ __cons_index q' = __cons_index q
    /\ ring_capacity q' = ring_capacity q
    /\ queue_capacity q' = queue_capacity q.
Proof.
  induction xs as [|x xs IH]; intros q Hs Hcap Hp Hc Hpub Hroom Hring Hfuel.
  - exists q. cbn. rewrite app_nil_r, Z.add_0_r, (wrap_small _ Hp).
    repeat split; trivial.
  - cbn [push_all length map repeat]. cbn [length] in Hroom, Hring.
    assert (Hd1 : 0 <= dist (prod_pi q) (__cons_index q)) by wrap_lia.
    assert (Hd2 : 0 <= dist (prod_pi q) (cons_ci q)) by wrap_lia.
    assert (Hspace : fst (prod_has_space 1 q) = true).
    { unfold prod_has_space. cbn. apply Z.leb_le.
      rewrite (wrap_small (queue_capacity q - 1)) by (unwrap; lia). lia. }
    rewrite (push_front_fast_ok how x true q fuel Hspace Hfuel).
    destruct (push_front_fast_fields how x q)
      as (F1 & F2 & F3 & F4 & F5 & F6).
    pose proof (push_front_fast_available how x q e Hs Hp Hc Hpub
                  ltac:(lia)) as Hav.
    set (q1 := push_front_fast how x true q) in *.
    pose proof (pow2_range e (proj1 Hs)) as Hpow.
    destruct (IH q1) as (q' & Hq' & Av & G1 & G2 & G3 & G4 & G5 & G6).
    + destruct Hs as [He Hr]. split; [assumption|]. now rewrite F5.
    + now rewrite F6.
    + rewrite F1. apply wrap_range.
    + now rewrite F3.
    + now rewrite F1, F2.
    + rewrite F1, F4, F6.
      replace (dist (wrap (prod_pi q + 1)) (__cons_index q))
        with (dist (prod_pi q) (__cons_index q) + 1) by wrap_lia.
      lia.
    + rewrite F1, F3.
      replace (dist (wrap (prod_pi q + 1)) (cons_ci q))
        with (dist (prod_pi q) (cons_ci q) + 1) by wrap_lia.
      lia.
    + assumption.
    + exists q'. rewrite Hq'. split; [reflexivity|].
      split. { rewrite Av, Hav, <- app_assoc. reflexivity. }
      split. { rewrite G1, F1. wrap_lia. }
      split; [assumption|]. repeat split; congruence.
Qed.

Lemma pop_all_spec e fuel n : forall (item : T) (q : SPSCQueue T),
  ring_sized q e -> is_index (cons_ci q) -> is_index (__prod_index q) ->
  Z.of_nat n <= dist (__prod_index q) (cons_ci q) <= 2 ^ e ->
  (12 <= fuel)%nat ->
  exists q',
    pop_all fuel n item q
    = Some (repeat true n, map received (firstn n (available q)), q')
    /\ available q' = skipn n (available q)
    /\ cons_ci q' = wrap (cons_ci q + Z.of_nat n)
    /\ __prod_index q' = __prod_index q
    /\ prod_pi q' = prod_pi q
    /\ ring_capacity q' = ring_capacity q
    /\ queue_capacity q' = queue_capacity q
    /\ ((0 < n)%nat -> Z.of_nat n = dist (__prod_index q) (cons_ci q) ->
        __cons_index q' = cons_ci q').
Proof.
  induction n as [|n IH]; intros item q Hs Hc Hp Hn Hfuel.
  - exists q. cbn. rewrite Z.add_0_r, (wrap_small _ Hc).
    repeat split; trivial. lia.
  - cbn [pop_all repeat].
    assert (Hdata : fst (cons_has_data 1 q) = true).
    { unfold cons_has_data. cbn. apply Z.leb_le. lia. }
    rewrite (pop_back_fast_ok item q fuel Hdata Hfuel).
    destruct (pop_back_fast_available q e Hs Hc ltac:(lia)) as (Hv & Hav).
    pose proof (available_length q) as Hlen.
    destruct (available q) as [|y ys] eqn:Eav; [cbn in Hlen; lia|].
    cbn [hd tl firstn skipn map] in *.
    assert (F : cons_ci (snd (pop_back_fast q)) = wrap (cons_ci q + 1)
                /\ __prod_index (snd (pop_back_fast q)) = __prod_index q
                /\ prod_pi (snd (pop_back_fast q)) = prod_pi q
                /\ ring_capacity (snd (pop_back_fast q)) = ring_capacity q
                /\ queue_capacity (snd (pop_back_fast q)) = queue_capacity q
                /\ (__prod_index q = wrap (cons_ci q + 1) ->
                    __cons_index (snd (pop_back_fast q))
                    = wrap (cons_ci q + 1))).
    { unfold pop_back_fast.
      destruct (elt_move _) as [v rest]. cbn [snd].
      match goal with |- cons_ci (cons_advance 1 ?x) = _ /\ _ =>
        destruct (cons_advance_fields 1 x) as (_ & A1 & _ & A2 & A3 & A4 & A5 & A6)
      end.
      cbn in A1, A2, A3, A4, A5, A6. auto 10. }
    destruct F as (F1 & F2 & F3 & F4 & F5 & F6).
    set (q1 := snd (pop_back_fast q)) in *.
    pose proof (pow2_range e (proj1 Hs)) as Hpow.
    destruct (IH (fst (pop_back_fast q)) q1)
      as (q' & Hq' & Av & G1 & G2 & G3 & G4 & G5 & G6).
    + destruct Hs as [He Hr]. split; [assumption|]. now rewrite F4.
    + rewrite F1. apply wrap_range.
    + now rewrite F2.
    + rewrite F1, F2. wrap_lia.
    + assumption.
    + exists q'. rewrite Hq', Hav, Hv.
      split; [reflexivity|].
      split; [congruence|].
      split. { rewrite G1, F1. wrap_lia. }
      split; [congruence|]. split; [congruence|]. split; [congruence|].
      split; [congruence|].
      intros _ Hall. destruct n as [|n'].
      * cbn in Hq'. injection Hq' as <-. rewrite F1. apply F6. wrap_lia.
      * apply G6; [lia|]. rewrite F1, F2. wrap_lia.
Qed.

(** C3.  FIFO round trip.  On a queue with nothing in flight, whose element
    type hands values over unchanged, [k] forced pushes of [x1..xk]
    ([1 <= k <= C], and the ring holds [k] slots) followed by [k] calls of
    [pop_back(&item)], producer first and consumer after, all return [true],
    yield [x1..xk] in push order, each equal to the value pushed, and leave
    the queue empty with all its indices equal ([P == Q]); enough fuel is 12
    steps per call. *)
Theorem fifo_round_trip e fuel how (xs : list T) item (q : SPSCQueue T) :
  identity_semantics T ->
  ring_sized q e ->
  drained q ->
  queue_capacity q < modulus ->
  1 <= Z.of_nat (length xs) <= queue_capacity q ->
  Z.of_nat (length xs) <= ring_capacity q ->
  (12 <= fuel)%nat ->
  exists q1 q2,
    push_all fuel how xs true q = Some (repeat true (length xs), q1)
    /\ pop_all fuel (length xs) item q1
       = Some (repeat true (length xs), xs, q2)
    /\ prod_pi q2 = cons_ci q2
    /\ available q2 = []
    /\ drained q2.
Proof.
  intros Hid Hs (Hp & Hpub & Hci & Hidx) Hcap Hk Hring Hfuel.
  pose proof (pow2_range e (proj1 Hs)) as Hpow.
  assert (Hr : ring_capacity q = 2 ^ e) by apply Hs.
  assert (Hc : is_index (cons_ci q)) by now rewrite Hci.
  destruct (push_all_spec e fuel how xs q Hs Hcap Hp Hc Hpub)
    as (q1 & Hq1 & Av & G1 & G2 & G3 & G4 & G5 & G6); try lia.
  { rewrite Hidx. replace (dist (prod_pi q) (prod_pi q)) with 0 by wrap_lia.
    lia. }
  { rewrite Hci. replace (dist (prod_pi q) (prod_pi q)) with 0 by wrap_lia.
    lia. }
  assert (Hav0 : available q = []).
  { unfold available. rewrite Hpub, Hci.
    replace (dist (prod_pi q) (prod_pi q)) with 0 by wrap_lia. reflexivity. }
  assert (Hfwd : map (elt_forward how) xs = xs).
  { rewrite <- (map_id xs) at 2. apply map_ext. intros x.
    destruct (Hid x) as [Hcopy Hmove]. destruct how; assumption. }
  rewrite Hav0, Hfwd in Av. cbn [app] in Av.
  assert (Hd : dist (__prod_index q1) (cons_ci q1) = Z.of_nat (length xs)).
  { rewrite G2, G1, G3, Hci. wrap_lia. }
  destruct (pop_all_spec e fuel (length xs) item q1)
    as (q2 & Hq2 & Av2 & K1 & K2 & K3 & K4 & K5 & K6); try lia.
  { destruct Hs as [He _]. split; [assumption|]. congruence. }
  { rewrite G3. assumption. }
  { rewrite G2, G1. apply wrap_range. }
  exists q1, q2. split; [assumption|].
  assert (Hrecv : map received xs = xs).
  { rewrite <- (map_id xs) at 2. apply map_ext. intros x. apply Hid. }
  rewrite Av, firstn_all, Hrecv in Hq2. split; [assumption|].
  assert (Heq : prod_pi q2 = cons_ci q2).
  { rewrite K3, K1, G1, G3, Hci. wrap_lia. }
  split; [assumption|].
  split. { rewrite Av2, Av. apply skipn_all. }
  unfold drained. rewrite K3, K2, G2, G1.
  split; [apply wrap_range|]. split; [reflexivity|].
  split; [rewrite <- G1, <- K3; congruence|].
  rewrite K6 by lia. rewrite <- G1, <- K3. congruence.
Qed.

End Fifo.

(** ** The wait loops *)

Section Waiting.

Context {T : Type} `{Element T}.

(** [prod_has_space] only looks at the producer index, the shared consumer
    index and the capacity. *)
Lemma prod_has_space_eq want (q q' : SPSCQueue T) :
  prod_pi q' = prod_pi q -> __cons_index q' = __cons_index q ->
  queue_capacity q' = queue_capacity q ->
  fst (prod_has_space want q') = fst (prod_has_space want q).
Proof. unfold prod_has_space. cbn. now intros -> -> ->. Qed.

Lemma cons_has_data_eq want (q q' : SPSCQueue T) :
  cons_ci q' = cons_ci q -> __prod_index q' = __prod_index q ->
  fst (cons_has_data want q') = fst (cons_has_data want q).
Proof. unfold cons_has_data. cbn. now intros -> ->. Qed.

Lemma prod_wait_publish_fields want (q : SPSCQueue T) :
  prod_pi (prod_wait_publish want q) = prod_pi q
  /\ __cons_index (prod_wait_publish want q) = __cons_index q
  /\ queue_capacity (prod_wait_publish want q) = queue_capacity q
  /\ prod_sem (prod_wait_publish want q) = prod_sem q
  /\ __prod_index (prod_wait_publish want q) = prod_pi q
  /\ prod_event (prod_wait_publish want q)
     = wrap (__cons_index q + dist (prod_pi q) (__cons_index q) / 4).
Proof.
  unfold prod_wait_publish.
  match goal with |- prod_pi (prod_notify ?x) = _ /\ _ => set (q2 := x) end.
  destruct (prod_notify_fields q2) as (_ & F1 & F2 & _ & F3 & F4 & _ & _ & F5
                                       & _ & _ & _ & F6).
  rewrite F1, F2, F3, F4, F5, F6. cbn. repeat split.
Qed.

Lemma cons_wait_publish_fields want (q : SPSCQueue T) :
  cons_ci (cons_wait_publish want q) = cons_ci q
  /\ __prod_index (cons_wait_publish want q) = __prod_index q
  /\ cons_sem (cons_wait_publish want q) = cons_sem q
  /\ __cons_index (cons_wait_publish want q) = cons_ci q
  /\ cons_event (cons_wait_publish want q) = wrap (cons_ci q + want - 1).
Proof.
  unfold cons_wait_publish.
  match goal with |- cons_ci (cons_notify ?x) = _ /\ _ => set (q2 := x) end.
  destruct (cons_notify_fields q2) as (_ & F1 & F2 & _ & F3 & F4 & _ & _ & F5
                                       & _).
  rewrite F1, F2, F3, F4, F5. cbn. repeat split.
Qed.

(** From a failed first check to the re-check. *)
Lemma prod_wait_publish_runs want (q : SPSCQueue T) p :
  fst (prod_has_space want q) = false ->
  exists n, (n <= 8)%nat
    /\ runs prod_step n q (prod_goto (P_has_space want false) p)
            (prod_wait_publish want q) (prod_goto (P_has_space want true) p).
Proof.
  intros Hs. unfold prod_wait_publish.
  set (q1 := snd (prod_has_space want q)).
  set (q2 := set_prod_event _ q1).
  destruct (prod_notify_runs q2 p (Prod_wait want)) as (n & Hn & R).
  exists (2 + n)%nat. split; [lia|].
  eapply runs_step.
  { unfold prod_step, prod_has_space in *. cbn [p_pc prod_goto fst] in *.
    rewrite Hs. reflexivity. }
  eapply runs_step; [reflexivity|]. exact R.
Qed.

(** A failed re-check leads to the semaphore. *)
Lemma prod_recheck_step want (q : SPSCQueue T) p :
  prod_step q (prod_goto (P_has_space want true) p)
  = Some (snd (prod_has_space want q),
          prod_goto (if fst (prod_has_space want q)
                     then P_wait_return want else P_sem_wait want) p).
Proof.
  unfold prod_step, prod_has_space. cbn [p_pc prod_goto fst snd].
  now destruct (_ <=? _).
Qed.

(** With the consumer standing still, a producer that finds no space never
    returns. *)
Lemma prod_wait_blocked want (q : SPSCQueue T) p fuel :
  fst (prod_has_space want q) = false ->
  run_prod fuel q (prod_goto (P_has_space want false) p) = None.
Proof.
  intros Hs.
  assert (Turn : forall q0 : SPSCQueue T,
            fst (prod_has_space want q0) = false ->
            exists n q4,
              runs prod_step n q0 (prod_goto (P_has_space want false) p)
                   q4 (prod_goto (P_sem_wait want) p)
              /\ prod_sem q4 = prod_sem q0
              /\ fst (prod_has_space want q4) = false).
  { intros q0 H0.
    destruct (prod_wait_publish_runs want q0 p H0) as (n & _ & R).
    destruct (prod_wait_publish_fields want q0) as (F1 & F2 & F3 & F4 & _).
    pose proof (prod_has_space_eq want q0 _ F1 F2 F3) as E. rewrite H0 in E.
    exists (n + 1)%nat, (snd (prod_has_space want (prod_wait_publish want q0))).
    split; [|split].
    - eapply runs_app; [exact R|].
      eapply runs_step; [|apply runs_done].
      rewrite prod_recheck_step, E. reflexivity.
    - unfold prod_has_space. cbn. exact F4.
    - unfold prod_has_space in *. cbn in *. exact E. }
  destruct (Turn q Hs) as (n & q4 & R & Hsem & Hs4).
  destruct (flag (prod_sem q4)) eqn:Hflag.
  - set (q6 := set_prod_ci (__cons_index q4)
                 (set_prod_sem {| flag := false |} q4)).
    assert (R2 : runs prod_step 2 q4 (prod_goto (P_sem_wait want) p) q6
                   (prod_goto (P_has_space want false) p)).
    { eapply runs_step.
      { unfold prod_step, wait. cbn [p_pc prod_goto]. rewrite Hflag.
        reflexivity. }
      eapply runs_step; [reflexivity|apply runs_done]. }
    destruct (Turn q6) as (m & q8 & R3 & Hsem8 & _).
    { unfold prod_has_space in *. cbn in *. exact Hs4. }
    unfold run_prod.
    eapply (run_stuck _ _ prod_free_stuck).
    + eapply runs_app; [exact R|]. eapply runs_app; [exact R2|exact R3].
    + reflexivity.
    + unfold prod_step, wait. cbn [p_pc prod_goto]. rewrite Hsem8. reflexivity.
  - unfold run_prod. eapply (run_stuck _ _ prod_free_stuck).
    + exact R.
    + reflexivity.
    + unfold prod_step, wait. cbn [p_pc prod_goto]. rewrite Hflag. reflexivity.
Qed.

Lemma cons_has_data_step chk want kind (q : SPSCQueue T) c :
  cons_step q (cons_goto (C_has_data chk want kind) c)
  = Some (snd (cons_has_data want q),
          cons_goto (if fst (cons_has_data want q)
                     then C_wait_return kind
                     else match chk with
                          | Check_first => C_sleep want kind
                          | Check_slept => C_set_event want kind
                          | Check_double => C_sem_wait want kind
                          end) c).
Proof.
  unfold cons_step, cons_has_data. cbn [c_pc cons_goto fst snd].
  destruct (_ <=? _); [reflexivity|]. now destruct chk.
Qed.

Lemma cons_wait_publish_runs want kind (q : SPSCQueue T) c :
  fst (cons_has_data want q) = false ->
  exists n, (n <= 10)%nat
    /\ runs cons_step n q (cons_goto (C_has_data Check_first want kind) c)
            (cons_wait_publish want q)
            (cons_goto (C_has_data Check_double want kind) c).
Proof.
  intros Hs. unfold cons_wait_publish.
  set (q1 := snd (cons_has_data want q)).
  set (q2 := set_cons_event _ q1).
  destruct (cons_notify_runs q2 c (Cons_wait want kind)) as (n & Hn & R).
  exists (4 + n)%nat. split; [lia|].
  eapply runs_step; [rewrite cons_has_data_step, Hs; reflexivity|].
  eapply runs_step; [reflexivity|].
  eapply runs_step.
  { rewrite cons_has_data_step.
    rewrite (cons_has_data_eq want q (snd (cons_has_data want q))), Hs;
      reflexivity. }
  eapply runs_step; [reflexivity|]. exact R.
Qed.

(** With the producer standing still, a consumer that finds no data never
    returns. *)
Lemma cons_wait_blocked want kind (q : SPSCQueue T) c fuel :
  fst (cons_has_data want q) = false ->
  run_cons fuel q (cons_goto (C_has_data Check_first want kind) c) = None.
Proof.
  intros Hs.
  assert (Turn : forall q0 : SPSCQueue T,
            fst (cons_has_data want q0) = false ->
            exists n q4,
              runs cons_step n q0
                   (cons_goto (C_has_data Check_first want kind) c)
                   q4 (cons_goto (C_sem_wait want kind) c)
              /\ cons_sem q4 = cons_sem q0
              /\ fst (cons_has_data want q4) = false).
  { intros q0 H0.
    destruct (cons_wait_publish_runs want kind q0 c H0) as (n & _ & R).
    destruct (cons_wait_publish_fields want q0) as (F1 & F2 & F3 & _).
    pose proof (cons_has_data_eq want q0 _ F1 F2) as E. rewrite H0 in E.
    exists (n + 1)%nat, (snd (cons_has_data want (cons_wait_publish want q0))).
    split; [|split].
    - eapply runs_app; [exact R|].
      eapply runs_step; [|apply runs_done].
      rewrite cons_has_data_step, E. reflexivity.
    - unfold cons_has_data. cbn. exact F3.
    - unfold cons_has_data in *. cbn in *. exact E. }
  destruct (Turn q Hs) as (n & q4 & R & Hsem & Hs4).
  destruct (flag (cons_sem q4)) eqn:Hflag.
  - set (q6 := set_cons_sem {| flag := false |} q4).
    assert (R2 : runs cons_step 1 q4 (cons_goto (C_sem_wait want kind) c) q6
                   (cons_goto (C_has_data Check_first want kind) c)).
    { eapply runs_step; [|apply runs_done].
      unfold cons_step, wait. cbn [c_pc cons_goto]. rewrite Hflag.
      reflexivity. }
    destruct (Turn q6) as (m & q8 & R3 & Hsem8 & _).
    { unfold cons_has_data in *. cbn in *. exact Hs4. }
    unfold run_cons.
    eapply (run_stuck _ _ cons_free_stuck).
    + eapply runs_app; [exact R|]. eapply runs_app; [exact R2|exact R3].
    + reflexivity.
    + unfold cons_step, wait. cbn [c_pc cons_goto]. rewrite Hsem8. reflexivity.
  - unfold run_cons. eapply (run_stuck _ _ cons_free_stuck).
    + exact R.
    + reflexivity.
    + unfold cons_step, wait. cbn [c_pc cons_goto]. rewrite Hflag. reflexivity.
Qed.

End Waiting.

(** ** Return values *)

Section NeverFail.

Context {T : Type} `{Element T}.

Lemma returned_true_step (s : system T) e s' :
  returned_true s -> step s e s' -> returned_true s'.
Proof.
  intros [Hp Hc] Hs.
  destruct Hs as [s how item force Hf | s q' p' Hs | s item Hf | s co Hf
                 | s q' c' Hs]; split; cbn; trivial; try discriminate.
  - destruct (prod s) as [pc it how fo].
    unfold prod_step, prod_has_space, wait in Hs; cbn [p_pc] in *.
    destruct pc; break_step Hs; cbn; try discriminate;
      try (destruct k; cbn; try discriminate); intros b [= <-]; reflexivity.
  - destruct (cons s) as [pc it co].
    unfold cons_step, cons_has_data, wait in Hs; cbn [c_pc] in *.
    destruct pc; break_step Hs; cbn; try discriminate;
      try (destruct k; cbn; try discriminate); intros b [= <-]; reflexivity.
Qed.

Lemma returned_true_steps (s : system T) pushed popped s' :
  returned_true s -> steps s pushed popped s' -> returned_true s'.
Proof.
  intros Hr Hs. induction Hs as [s | s1 a b s2 e s3 Hs IH Hst]; [assumption|].
  eapply returned_true_step; [apply IH; assumption|eassumption].
Qed.

Lemma push_front_cases fuel how (x : T) force (q : SPSCQueue T) :
  (fst (prod_has_space 1 q) = true
   /\ (push_front fuel how x force q
       = Some (true, push_front_fast how x force q)
       \/ push_front fuel how x force q = None))
  \/ (fst (prod_has_space 1 q) = false
      /\ push_front fuel how x force q = None).
Proof.
  destruct (fst (prod_has_space 1 q)) eqn:Hs; [left|right]; split; trivial.
  - destruct (push_front_fast_runs how x force q Hs) as (n & _ & R).
    unfold push_front, run_prod.
    destruct (run_complete_or_none _ _ prod_free_stuck _ _ _ _ _ R eq_refl fuel)
      as [-> | ->]; [left|right]; reflexivity.
  - unfold push_front.
    change (push_front_call how x force)
      with (prod_goto (P_has_space 1 false) (push_front_call how x force)).
    now rewrite prod_wait_blocked.
Qed.

Lemma cons_wait_old_blocked want kind (q : SPSCQueue T) c fuel :
  fst (cons_has_data want q) = false ->
  run_cons fuel q (cons_goto (C_wait_old want kind) c) = None.
Proof.
  intros Hs. destruct fuel as [|fuel]; [reflexivity|].
  unfold run_cons. cbn.
  change (run cons_step cons_free fuel q
            (cons_goto (C_has_data Check_first want kind) c) = None).
  now apply cons_wait_blocked.
Qed.

Lemma pop_back_cases fuel (item : T) (q : SPSCQueue T) :
  (fst (cons_has_data 1 q) = true
   /\ (pop_back fuel item q
       = Some (true, fst (pop_back_fast q), snd (pop_back_fast q))
       \/ pop_back fuel item q = None))
  \/ (fst (cons_has_data 1 q) = false /\ pop_back fuel item q = None).
Proof.
  destruct (fst (cons_has_data 1 q)) eqn:Hs; [left|right]; split; trivial.
  - destruct (pop_back_fast_runs item idle_consumer q Hs) as (n & _ & R).
    unfold pop_back, run_cons.
    destruct (run_complete_or_none _ _ cons_free_stuck _ _ _ _ _ R eq_refl fuel)
      as [-> | ->]; [left|right]; reflexivity.
  - unfold pop_back.
    change (pop_back_item_call item idle_consumer)
      with (cons_goto (C_wait_old 1 Pop_item)
              (pop_back_item_call item idle_consumer)).
    now rewrite cons_wait_old_blocked.
Qed.

Lemma pop_back_vector_cases fuel (container : list T) (q : SPSCQueue T) :
  (fst (cons_has_data 1 q) = true
   /\ (pop_back_vector fuel container q
       = Some (true, fst (pop_back_vector_fast container q),
               snd (pop_back_vector_fast container q))
       \/ pop_back_vector fuel container q = None))
  \/ (fst (cons_has_data 1 q) = false
      /\ pop_back_vector fuel container q = None).
Proof.
  destruct (fst (cons_has_data 1 q)) eqn:Hs; [left|right]; split; trivial.
  - destruct (pop_back_vector_fast_runs container idle_consumer q Hs)
      as (n & _ & R).
    unfold pop_back_vector, run_cons.
    destruct (run_complete_or_none _ _ cons_free_stuck _ _ _ _ _ R eq_refl fuel)
      as [-> | ->]; [left|right]; reflexivity.
  - unfold pop_back_vector.
    change (pop_back_vector_call container idle_consumer)
      with (cons_goto (C_wait_old 1 Pop_vector)
              (pop_back_vector_call container idle_consumer)).
    now rewrite cons_wait_old_blocked.
Qed.

(** What the calls return.  Under any interleaving a call of [push_front]
    or of either [pop_back] that has returned has returned [true]; run on
    its own, a call gives [true] or does not return, whatever the fuel; with
    a free slot [push_front] returns [true] within 11 steps, forced or not,
    and the item is in its slot with the producer index moved on by one (a
    push that is not forced does not drop it); with data [pop_back] returns
    [true] within 12 steps and the container form within 12 steps plus one
    per element; without space or data the call never returns while the
    other thread stands still. *)
Lemma push_pop_results (q : SPSCQueue T) :
  (forall pushed popped s,
     steps (start q) pushed popped s -> returned_true s)
  /\ (forall fuel how x force b q',
        push_front fuel how x force q = Some (b, q') -> b = true)
  /\ (forall fuel item b x q',
        pop_back fuel item q = Some (b, x, q') -> b = true)
  /\ (forall fuel container b v q',
        pop_back_vector fuel container q = Some (b, v, q') -> b = true)
  /\ (forall how x force fuel,
        fst (prod_has_space 1 q) = true -> (11 <= fuel)%nat ->
        push_front fuel how x force q
        = Some (true, push_front_fast how x force q)
        /\ ring (push_front_fast how x force q)
                (normalize_index q (prod_pi q)) = elt_forward how x
        /\ prod_pi (push_front_fast how x force q) = wrap (prod_pi q + 1))
  /\ (forall how x force fuel,
        fst (prod_has_space 1 q) = false ->
        push_front fuel how x force q = None)
  /\ (forall item fuel,
        fst (cons_has_data 1 q) = true -> (12 <= fuel)%nat ->
        exists x q', pop_back fuel item q = Some (true, x, q'))
  /\ (forall container fuel,
        fst (cons_has_data 1 q) = true ->
        (Z.to_nat (dist (__prod_index q) (cons_ci q)) + 12 <= fuel)%nat ->
        exists v q', pop_back_vector fuel container q = Some (true, v, q'))
  /\ (forall item container fuel,
        fst (cons_has_data 1 q) = false ->
        pop_back fuel item q = None
        /\ pop_back_vector fuel container q = None).
Proof.
  repeat apply conj.
  - intros pushed popped s Hs.
    eapply returned_true_steps; [|exact Hs].
    split; cbn; discriminate.
  - intros fuel how x force b q' Hr.
    destruct (push_front_cases fuel how x force q)
      as [[_ [E | E]] | [_ E]]; rewrite E in Hr; congruence.
  - intros fuel item b x q' Hr.
    destruct (pop_back_cases fuel item q)
      as [[_ [E | E]] | [_ E]]; rewrite E in Hr; congruence.
  - intros fuel container b v q' Hr.
    destruct (pop_back_vector_cases fuel container q)
      as [[_ [E | E]] | [_ E]]; rewrite E in Hr; congruence.
  - intros how x force fuel Hs Hf.
    split; [now apply push_front_fast_ok|].
    unfold push_front_fast.
    destruct force;
      [match goal with |- context [prod_notify ?y] =>
         destruct (prod_notify_fields y) as (-> & _ & -> & _)
       end|];
      cbn; unfold store; rewrite Z.eqb_refl; split; reflexivity.
  - intros how x force fuel Hs.
    destruct (push_front_cases fuel how x force q) as [[E _] | [_ E]];
      [congruence|assumption].
  - intros item fuel Hs Hf. eexists _, _. now apply pop_back_fast_ok.
  - intros container fuel Hs Hf. eexists _, _.
    now apply pop_back_vector_fast_ok.
  - intros item container fuel Hs. split.
    + destruct (pop_back_cases fuel item q) as [[E _] | [_ E]];
        [congruence|assumption].
    + destruct (pop_back_vector_cases fuel container q) as [[E _] | [_ E]];
        [congruence|assumption].
Qed.

End NeverFail.

(** ** The producer's wake-up threshold *)

Section Hysteresis.

Context {T : Type} `{Element T}.

(** C8.  Producer hysteresis threshold.  When [prod_wait_space(want)] finds
    [P - Q > C - want] (64-bit arithmetic, [Q] freshly loaded into the
    shadow [prod_ci]), it stores [prod_event = Q + (P - Q)/4] computed from
    the shadows [prod_ci] and [prod_pi], runs [prod_notify] (which publishes
    [P]) and comes to the second [prod_has_space]; that re-check returns to
    the caller if there is space now and goes to [prod_sem.wait()] if not;
    the wait parks while the flag is down; once the flag is up the producer
    clears it, reloads [prod_ci] from [__cons_index] and is back at the top
    of the loop. *)
Theorem producer_hysteresis want (q : SPSCQueue T) p :
  wrap (queue_capacity q - want) < dist (prod_pi q) (__cons_index q) ->
  fst (prod_has_space want q) = false
  /\ (exists n, (n <= 8)%nat
        /\ runs prod_step n q (prod_goto (P_has_space want false) p)
                (prod_wait_publish want q)
                (prod_goto (P_has_space want true) p))
  /\ prod_ci (prod_wait_publish want q) = __cons_index q
  /\ prod_event (prod_wait_publish want q)
     = wrap (prod_ci (prod_wait_publish want q)
             + dist (prod_pi (prod_wait_publish want q))
                    (prod_ci (prod_wait_publish want q)) / 4)
  /\ dist (prod_event (prod_wait_publish want q)) (__cons_index q)
     = dist (prod_pi q) (__cons_index q) / 4
  /\ __prod_index (prod_wait_publish want q) = prod_pi q
  /\ (forall q' : SPSCQueue T,
        prod_step q' (prod_goto (P_has_space want true) p)
        = Some (snd (prod_has_space want q'),
                prod_goto (if fst (prod_has_space want q')
                           then P_wait_return want
                           else P_sem_wait want) p))
  /\ (forall q' : SPSCQueue T,
        flag (prod_sem q') = false ->
        prod_step q' (prod_goto (P_sem_wait want) p) = None)
  /\ (forall q' : SPSCQueue T,
        flag (prod_sem q') = true ->
        runs prod_step 2 q' (prod_goto (P_sem_wait want) p)
             (set_prod_ci (__cons_index q')
                (set_prod_sem {| flag := false |} q'))
             (prod_goto (P_has_space want false) p)).
Proof.
  intros Hfull.
  assert (Hs : fst (prod_has_space want q) = false).
  { unfold prod_has_space. cbn. apply Z.leb_gt. exact Hfull. }
  destruct (prod_wait_publish_fields want q) as (F1 & F2 & F3 & F4 & F5 & F6).
  assert (Fci : prod_ci (prod_wait_publish want q) = __cons_index q).
  { unfold prod_wait_publish.
    match goal with |- prod_ci (prod_notify ?x) = _ =>
      destruct (prod_notify_fields x) as (_ & _ & _ & -> & _)
    end.
    reflexivity. }
  split; [assumption|].
  split; [now apply prod_wait_publish_runs|].
  split; [assumption|].
  split; [rewrite F6, Fci, F1; reflexivity|].
  split; [rewrite F6; wrap_lia|].
  split; [assumption|].
  split; [intros q'; apply prod_recheck_step|].
  split.
  - intros q' Hflag. unfold prod_step, wait. cbn [p_pc prod_goto].
    now rewrite Hflag.
  - intros q' Hflag.
    eapply runs_step.
    { unfold prod_step, wait. cbn [p_pc prod_goto]. rewrite Hflag.
      reflexivity. }
    eapply runs_step; [reflexivity|apply runs_done].
Qed.

End Hysteresis.

(** ** Deferred publication *)

Section Deferred.

Context {T : Type} `{Element T}.

(** C9, as the code has it.  A push with [force = false] that finds a free
    slot at its first [prod_has_space] check returns [true] after three
    assignments: the shadow [prod_ci] is refreshed, the slot is written and
    [prod_pi] moves on by one.  [__prod_index], [prod_event], the
    consumer-side fields, both semaphores and both counters are unchanged,
    so the consumer sees as many elements as before.  The same push with
    [force = true] goes on to [prod_notify], which stores the new [prod_pi]
    to [__prod_index].  No producer step of any push writes a consumer-side
    field. *)
Theorem deferred_push_frame how (x : T) (q : SPSCQueue T) fuel :
  fst (prod_has_space 1 q) = true ->
  (11 <= fuel)%nat ->
  push_front fuel how x false q = Some (true, push_front_fast how x false q)
  /\ push_front_fast how x false q
     = set_prod_pi (wrap (prod_pi q + 1))
         (set_ring (store (ring q) (normalize_index q (prod_pi q))
                      (elt_forward how x))
            (set_prod_ci (__cons_index q) q))
  /\ __prod_index (push_front_fast how x false q) = __prod_index q
  /\ prod_event (push_front_fast how x false q) = prod_event q
  /\ __cons_index (push_front_fast how x false q) = __cons_index q
  /\ cons_event (push_front_fast how x false q) = cons_event q
  /\ cons_ci (push_front_fast how x false q) = cons_ci q
  /\ cons_pi (push_front_fast how x false q) = cons_pi q
  /\ prod_sem (push_front_fast how x false q) = prod_sem q
  /\ cons_sem (push_front_fast how x false q) = cons_sem q
  /\ cons_not (push_front_fast how x false q) = cons_not q
  /\ prod_not (push_front_fast how x false q) = prod_not q
  /\ dist (__prod_index (push_front_fast how x false q))
          (cons_ci (push_front_fast how x false q))
     = dist (__prod_index q) (cons_ci q)
  /\ fst (cons_has_data 1 (push_front_fast how x false q))
     = fst (cons_has_data 1 q)
  /\ push_front fuel how x true q = Some (true, push_front_fast how x true q)
  /\ push_front_fast how x true q
     = prod_notify (push_front_fast how x false q)
  /\ __prod_index (push_front_fast how x true q) = wrap (prod_pi q + 1)
  /\ (forall (q0 : SPSCQueue T) p q' p',
        prod_step q0 p = Some (q', p') ->
        __cons_index q' = __cons_index q0 /\ cons_event q' = cons_event q0
        /\ cons_ci q' = cons_ci q0 /\ cons_pi q' = cons_pi q0
        /\ cons_not q' = cons_not q0).
Proof.
  intros Hs Hf.
  split; [now apply push_front_fast_ok|].
  do 13 (split; [reflexivity|]).
  split; [now apply push_front_fast_ok|].
  split; [reflexivity|].
  split; [apply push_front_fast_fields|].
  intros q0 p q' p' Hst.
  destruct (prod_step_frame _ _ _ _ Hst) as (F1 & F2 & F3 & F4 & F5 & _).
  auto.
Qed.

End Deferred.

(** ** The container form of pop_back *)

Section Batch.

Context {T : Type} `{Element T}.

Lemma pop_back_vector_spec container (q : SPSCQueue T) e fuel :
  ring_sized q e -> is_index (cons_ci q) -> is_index (__prod_index q) ->
  1 <= dist (__prod_index q) (cons_ci q) <= ring_capacity q ->
  (Z.to_nat (dist (__prod_index q) (cons_ci q)) + 12 <= fuel)%nat ->
  pop_back_vector fuel container q
  = Some (true, container ++ map received (available q),
          snd (pop_back_vector_fast container q))
  /\ available (snd (pop_back_vector_fast container q)) = []
  /\ cons_ci (snd (pop_back_vector_fast container q)) = __prod_index q
  /\ __cons_index (snd (pop_back_vector_fast container q)) = __prod_index q.
Proof.
  intros Hs Hc Hp Hn Hf.
  assert (Hdata : fst (cons_has_data 1 q) = true).
  { unfold cons_has_data. cbn. apply Z.leb_le. lia. }
  rewrite (pop_back_vector_fast_ok container q fuel Hdata Hf).
  destruct (pop_back_vector_fast_available container q e Hs Hc Hp)
    as (-> & F1 & F2 & F3 & _).
  { destruct Hs as [_ <-]. lia. }
  auto.
Qed.


(** C10.  [pop_back(&container)] appends: no step of the consumer removes
    or changes an element of the caller's vector, and a call on a vector
    holding [s], with the elements [xs] available in the queue, returns with
    the vector holding [s] followed by what the moves from [xs] delivered
    ([xs] itself when moving keeps the value). *)
Theorem pop_back_vector_appends s (q : SPSCQueue T) e fuel :
  ring_sized q e -> is_index (cons_ci q) -> is_index (__prod_index q) ->
  1 <= dist (__prod_index q) (cons_ci q) <= ring_capacity q ->
  (Z.to_nat (dist (__prod_index q) (cons_ci q)) + 12 <= fuel)%nat ->
  (exists v q',
      pop_back_vector fuel s q = Some (true, v, q')
      /\ v = s ++ map received (available q)
      /\ firstn (length s) v = s
      /\ skipn (length s) v = map received (available q)
      /\ (identity_semantics T -> v = s ++ available q))
  /\ (forall (q0 : SPSCQueue T) c q1 c1,
        cons_step q0 c = Some (q1, c1) ->
        exists l, c_container c1 = c_container c ++ l).
Proof.
  intros Hs Hc Hp Hn Hf. split.
  - destruct (pop_back_vector_spec s q e fuel Hs Hc Hp Hn Hf) as (Hr & _).
    eexists _, _. split; [exact Hr|]. split; [reflexivity|].
    split; [|split].
    + rewrite firstn_app, firstn_all, Nat.sub_diag. cbn.
      now rewrite app_nil_r.
    + rewrite skipn_app, skipn_all, Nat.sub_diag. reflexivity.
    + intros Hid. f_equal. rewrite <- (map_id (available q)) at 2.
      apply map_ext. intros x. apply Hid.
  - intros q0 c q1 c1 Hst. destruct c as [pc it co].
    unfold cons_step, cons_has_data, wait in Hst; cbn [c_pc] in *.
    destruct pc; break_step Hst; cbn;
      solve [exists []; now rewrite app_nil_r | eexists; reflexivity].
Qed.

End Batch.

(** ** Arguments the constructor mishandles *)

Section Constructor.

Context {T : Type} `{Element T}.

(** The [assert] of the constructor cannot fail: a shift that is defined
    gives at most [2^63]. *)
Lemma SPSCQueue_new_never_asserts c :
  SPSCQueue_new (T := T) c <> Assertion_failed.
Proof.
  unfold SPSCQueue_new.
  destruct (double_of_size_t c =? 0); [discriminate|].
  destruct (Z.leb_spec 64 (Z.log2_up (double_of_size_t c))) as [|He];
    [discriminate|].
  pose proof (Z.log2_up_nonneg (double_of_size_t c)) as H0.
  destruct (Z.leb_spec (Z.shiftl 1 (Z.log2_up (double_of_size_t c))) max_size)
    as [|Hbig]; [discriminate|].
  exfalso. rewrite Z.shiftl_1_l in Hbig.
  pose proof (pow2_range (Z.log2_up (double_of_size_t c)) ltac:(lia)).
  change max_size with (2 ^ 63) in Hbig. lia.
Qed.

(** Up to [2^32] the conversion to [double] is exact and the logarithm of a
    capacity that is not a power of two is further than [2^-33] from an
    integer, so that [log2] at its mathematical value is what a <cmath>
    gives: the ring is the smallest power of two that holds the capacity. *)
Lemma SPSCQueue_new_exact c :
  1 <= c <= 2 ^ 32 ->
  SPSCQueue_new c = Constructed (initial (2 ^ Z.log2_up c) c)
  /\ c <= 2 ^ Z.log2_up c
  /\ (forall k, 0 <= k -> c <= 2 ^ k -> Z.log2_up c <= k)
  /\ ring_sized (initial (2 ^ Z.log2_up c) c) (Z.log2_up c)
  /\ drained (initial (2 ^ Z.log2_up c) c).
Proof.
  intros Hc32. assert (Hc : 1 <= c <= 2 ^ 53) by lia.
  unfold SPSCQueue_new.
  rewrite double_of_size_t_exact by lia.
  assert (Hup : 0 <= Z.log2_up c <= 53).
  { split; [apply Z.log2_up_nonneg|].
    change 53 with (Z.log2_up (2 ^ 53)). apply Z.log2_up_le_mono. lia. }
  destruct (Z.eqb_spec c 0); [lia|].
  destruct (Z.leb_spec 64 (Z.log2_up c)); [lia|].
  rewrite Z.shiftl_1_l.
  pose proof (pow2_range (Z.log2_up c) ltac:(lia)) as Hp.
  change max_size with (2 ^ 63).
  destruct (Z.leb_spec (2 ^ Z.log2_up c) (2 ^ 63)); [|lia].
  split; [reflexivity|].
  split.
  { destruct (Z.eq_dec c 1) as [-> | ]; [cbn; lia|].
    apply Z.log2_up_spec. lia. }
  split.
  { intros k Hk Hck. rewrite <- (Z.log2_up_pow2 k Hk).
    now apply Z.log2_up_le_mono. }
  split.
  { split; [lia|reflexivity]. }
  unfold drained, is_index. cbn. repeat split; reflexivity || discriminate.
Qed.

(** C4, at the failing inputs.  No capacity makes the constructor stop with
    a failure: for capacity 0 it takes [log2(0)], converts minus infinity to
    [uint64_t] and shifts by the outcome, without any check of the argument;
    its one [assert] can never fail; and capacity [2^63 + 1], which exceeds
    [2^63], is rounded to [2^63] by the conversion to [double] and yields an
    object. *)
Theorem constructor_zero_capacity :
  SPSCQueue_new (T := T) 0 = Undefined
  /\ (forall c, SPSCQueue_new (T := T) c <> Assertion_failed)
  /\ SPSCQueue_new (2 ^ 63 + 1)
     = Constructed (initial (2 ^ 63) (2 ^ 63 + 1)).
Proof.
  split; [reflexivity|]. split; [apply SPSCQueue_new_never_asserts|].
  reflexivity.
Qed.

(** C5, at the failing input.  Capacity [2^53 + 1] is not a [double]: the
    conversion in [log2(max_capacity)] rounds it to [2^53], whose logarithm
    is 53, and the ring gets [2^53] slots, fewer than the logical capacity
    [2^53 + 1] that the object keeps. *)
Theorem ring_sizing_rounding :
  double_of_size_t (2 ^ 53 + 1) = 2 ^ 53
  /\ SPSCQueue_new (T := T) (2 ^ 53 + 1)
     = Constructed (initial (2 ^ 53) (2 ^ 53 + 1))
  /\ ring_capacity (initial (T := T) (2 ^ 53) (2 ^ 53 + 1))
     < queue_capacity (initial (T := T) (2 ^ 53) (2 ^ 53 + 1))
  /\ 2 ^ Z.log2_up (2 ^ 53 + 1) = 2 ^ 54.
Proof. repeat split. Qed.

End Constructor.

(** ** Order of delivery under any interleaving *)

Section History.

Context {T : Type} `{Element T}.

Lemma window_length (q : SPSCQueue T) base n : length (window q base n) = n.
Proof. unfold window. now rewrite length_map, length_seq. Qed.

Lemma window_S (q : SPSCQueue T) base n :
  window q base (S n)
  = window q base n ++ [ring q (normalize_index q (wrap (base + Z.of_nat n)))].
Proof. unfold window. now rewrite seq_S, map_app. Qed.

Lemma window_ext (q q' : SPSCQueue T) base n :
  ring_capacity q' = ring_capacity q ->
  (forall i, 0 <= i < Z.of_nat n ->
     ring q' (normalize_index q (wrap (base + i)))
     = ring q (normalize_index q (wrap (base + i)))) ->
  window q' base n = window q base n.
Proof.
  intros Hr Hs. unfold window. apply map_ext_in. intros i Hi.
  apply in_seq in Hi. unfold normalize_index in *. rewrite Hr.
  apply Hs. lia.
Qed.

Lemma window_shift (q q' : SPSCQueue T) base n :
  ring_capacity q' = ring_capacity q ->
  (forall i, 1 <= i <= Z.of_nat n ->
     ring q' (normalize_index q (wrap (base + i)))
     = ring q (normalize_index q (wrap (base + i)))) ->
  window q' (wrap (base + 1)) n = tl (window q base (S n)).
Proof.
  intros Hr Hs. unfold window. cbn [seq map tl].
  rewrite <- seq_shift, map_map. apply map_ext_in. intros i Hi.
  apply in_seq in Hi. unfold normalize_index in *. rewrite Hr.
  replace (wrap (wrap (base + 1) + Z.of_nat i))
    with (wrap (base + Z.of_nat (S i))) by wrap_lia.
  apply Hs. lia.
Qed.

Lemma window_base (q : SPSCQueue T) base base' n :
  wrap base = wrap base' -> window q base n = window q base' n.
Proof.
  intros Hb. unfold window. apply map_ext. intros k. do 2 f_equal.
  wrap_lia.
Qed.

Lemma taken_ahead_bound (q : SPSCQueue T) pc :
  cons_pc_ok q pc -> 0 <= taken_ahead pc <= dist (cons_pi q) (cons_ci q).
Proof. destruct pc; cbn; intros Hok; try wrap_lia. Qed.

Lemma stored_ahead_bound pc : 0 <= stored_ahead pc <= prod_granted pc.
Proof. destruct pc; cbn; lia. Qed.

(** The number of live elements, without wrap-around. *)
Lemma live_count (s : system T) :
  invariant s ->
  dist (write_index s) (read_index s)
  = dist (prod_pi (queue s)) (cons_ci (queue s))
    + stored_ahead (p_pc (prod s)) - taken_ahead (c_pc (cons s))
  /\ 0 <= dist (write_index s) (read_index s)
  /\ dist (write_index s) (read_index s) + prod_granted (p_pc (prod s))
     - stored_ahead (p_pc (prod s)) <= queue_capacity (queue s).
Proof.
  intros (Hc & Hx & Hch & Hp & Hco). unfold write_index, read_index.
  pose proof (taken_ahead_bound _ _ Hco) as Ht.
  pose proof (stored_ahead_bound (p_pc (prod s))) as Hs.
  unfold occupancy_chain in Hch.
  set (sa := stored_ahead _) in *. set (ta := taken_ahead _) in *.
  set (g := prod_granted _) in *.
  repeat apply conj; wrap_lia.
Qed.

End History.
Section HistorySteps.

Context {T : Type} `{Element T}.

Lemma skipn_cons_firstn (A : Type) n : forall (l : list A) x r,
  skipn n l = x :: r ->
  firstn (S n) l = firstn n l ++ [x] /\ skipn (S n) l = r.
Proof.
  induction n as [|n IH]; intros l x r Hl.
  - cbn in Hl. subst l. split; reflexivity.
  - destruct l as [|y l]; [discriminate|]. cbn [skipn] in Hl.
    destruct (IH l x r Hl) as [Hf Hk]. split.
    + change (firstn (S (S n)) (y :: l)) with (y :: firstn (S n) l).
      rewrite Hf. reflexivity.
    + exact Hk.
Qed.

(** Stored elements are the delivered ones and the live ones. *)
Lemma delivered_in_order_length (s : system T) ins outs :
  delivered_in_order s ins outs ->
  length ins
  = (length outs + Z.to_nat (dist (write_index s) (read_index s)))%nat.
Proof.
  intros [Hout Hlive].
  rewrite <- (firstn_skipn (length outs) ins) at 1.
  rewrite length_app, <- Hlive. unfold live. rewrite window_length.
  f_equal. apply (f_equal (@length T)) in Hout.
  rewrite length_map in Hout. now symmetry.
Qed.

Lemma delivered_in_order_store (q : SPSCQueue T) p c e ins outs :
  invariant {| queue := q; prod := p; cons := c |} ->
  ring_sized q e -> queue_capacity q <= 2 ^ e ->
  delivered_in_order {| queue := q; prod := p; cons := c |} ins outs ->
  p_pc p = P_store ->
  delivered_in_order
    {| queue := set_ring (store (ring q) (normalize_index q (prod_pi q))
                            (elt_forward (p_how p) (p_item p))) q;
       prod := prod_goto (P_advance 1) p; cons := c |}
    (ins ++ [elt_forward (p_how p) (p_item p)]) outs.
Proof.
  intros Hinv Hs Hcap HJ Hpc.
  pose proof (delivered_in_order_length _ _ _ HJ) as Hlen.
  destruct HJ as [Hout Hlive].
  destruct (live_count _ Hinv) as (Hd & Hd0 & Hdc).
  assert (Hx : indices_ok q) by apply Hinv.
  destruct Hx as (_ & _ & _ & Hpi & _ & _ & Hci & _).
  pose proof (pow2_range e (proj1 Hs)) as Hpow.
  unfold delivered_in_order, live, write_index, read_index in *.
  cbn [queue prod cons] in *.
  rewrite Hpc in *. cbn [stored_ahead prod_granted p_pc prod_goto] in *.
  set (R := wrap (cons_ci q + taken_ahead (c_pc c))) in *.
  set (d := dist (wrap (prod_pi q + 0)) R) in *.
  change (cons_ci (set_ring _ q)) with (cons_ci q). fold R.
  change (prod_pi (set_ring _ q)) with (prod_pi q).
  replace (dist (wrap (prod_pi q + 1)) R) with (d + 1)
    by (subst d R; wrap_lia).
  split.
  - rewrite firstn_app. replace (length outs - length ins)%nat with 0%nat by lia.
    cbn [firstn]. now rewrite app_nil_r.
  - rewrite skipn_app. replace (length outs - length ins)%nat with 0%nat by lia.
    cbn [skipn]. rewrite <- Hlive.
    rewrite Z2Nat.inj_add by lia. change (Z.to_nat 1) with 1%nat.
    rewrite Nat.add_1_r, window_S. f_equal.
    + apply window_ext; [reflexivity|].
      intros i Hi. cbn [ring set_ring]. unfold store.
      destruct (Z.eqb_spec (normalize_index q (wrap (R + i)))
                           (normalize_index q (prod_pi q))) as [E|E];
        [|reflexivity].
      exfalso. revert E.
      replace (prod_pi q) with (wrap (R + d)) by (subst d R; wrap_lia).
      apply (normalize_index_distinct q e); [assumption|lia|lia].
    + f_equal. cbn [ring set_ring]. unfold store.
      change (normalize_index (set_ring _ q)) with (normalize_index q).
      rewrite Z2Nat.id by lia.
      replace (wrap (R + d)) with (prod_pi q) by (subst d R; wrap_lia).
      now rewrite Z.eqb_refl.
Qed.

Lemma delivered_in_order_take (q : SPSCQueue T) p c c' e ins outs :
  invariant {| queue := q; prod := p; cons := c |} ->
  ring_sized q e -> queue_capacity q <= 2 ^ e ->
  delivered_in_order {| queue := q; prod := p; cons := c |} ins outs ->
  taken_ahead (c_pc c) < dist (cons_pi q) (cons_ci q) ->
  taken_ahead (c_pc c') = wrap (taken_ahead (c_pc c) + 1) ->
  let pos := normalize_index q (wrap (cons_ci q + taken_ahead (c_pc c))) in
  delivered_in_order
    {| queue := set_ring (store (ring q) pos (snd (elt_move (ring q pos)))) q;
       prod := p; cons := c' |}
    ins (outs ++ [fst (elt_move (ring q pos))]).
Proof.
  intros Hinv Hs Hcap HJ Hta Hta' pos.
  pose proof (delivered_in_order_length _ _ _ HJ) as Hlen.
  destruct HJ as [Hout Hlive].
  destruct (live_count _ Hinv) as (Hd & Hd0 & Hdc).
  destruct Hinv as (Hc & Hx & Hch & Hp & Hco).
  pose proof (taken_ahead_bound _ _ Hco) as Htb.
  pose proof (stored_ahead_bound (p_pc p)) as Hsb.
  destruct Hx as (_ & _ & _ & Hpi & _ & _ & Hci & _).
  pose proof (pow2_range e (proj1 Hs)) as Hpow.
  unfold occupancy_chain in Hch.
  unfold delivered_in_order, live, write_index, read_index in *.
  cbn [queue prod cons] in *.
  change (cons_ci (set_ring _ q)) with (cons_ci q).
  change (prod_pi (set_ring _ q)) with (prod_pi q).
  rewrite Hta'.
  set (ta := taken_ahead (c_pc c)) in *.
  set (sa := stored_ahead (p_pc p)) in *.
  set (g := prod_granted (p_pc p)) in *.
  set (R := wrap (cons_ci q + ta)) in *.
  set (W := wrap (prod_pi q + sa)) in *.
  set (d := dist W R) in *.
  assert (Hd1 : 1 <= d) by (subst d W R; wrap_lia).
  assert (HR' : wrap (cons_ci q + wrap (ta + 1)) = wrap (R + 1))
    by (subst R; wrap_lia).
  rewrite HR'.
  replace (dist W (wrap (R + 1))) with (d - 1) by (subst d W R; wrap_lia).
  assert (Hw : window
                 (set_ring (store (ring q) pos (snd (elt_move (ring q pos)))) q)
                 (wrap (R + 1)) (Z.to_nat (d - 1))
               = tl (window q R (Z.to_nat d))).
  { replace (Z.to_nat d) with (S (Z.to_nat (d - 1))) by lia.
    apply window_shift; [reflexivity|].
    intros i Hi. cbn [ring set_ring]. unfold store.
    destruct (Z.eqb_spec (normalize_index q (wrap (R + i))) pos) as [E|E];
      [|reflexivity].
    exfalso. symmetry in E. revert E. subst pos. fold R.
    replace R with (wrap (R + 0)) at 1 by (subst R; wrap_lia).
    apply (normalize_index_distinct q e); [assumption|lia|lia]. }
  rewrite Hw, Hlive.
  assert (Hhd : skipn (length outs) ins
                = ring q pos :: tl (skipn (length outs) ins)).
  { rewrite <- Hlive.
    replace (Z.to_nat d) with (S (Z.to_nat (d - 1))) by lia.
    unfold window. cbn [seq map tl]. f_equal.
    subst pos. fold R. do 2 f_equal. subst R. wrap_lia. }
  destruct (skipn_cons_firstn _ _ _ _ _ Hhd) as [Hf Hk].
  rewrite length_app. cbn [length]. rewrite Nat.add_1_r.
  split.
  - rewrite Hf, map_app, <- Hout. reflexivity.
  - symmetry. exact Hk.
Qed.

Lemma delivered_in_order_frame (s s' : system T) ins outs :
  ring (queue s') = ring (queue s) ->
  ring_capacity (queue s') = ring_capacity (queue s) ->
  write_index s' = write_index s -> read_index s' = read_index s ->
  delivered_in_order s ins outs -> delivered_in_order s' ins outs.
Proof.
  intros Hr Hc Hw HR [Hout Hlive]. split; [assumption|].
  rewrite <- Hlive. unfold live, window, normalize_index.
  now rewrite Hr, Hc, Hw, HR.
Qed.

End HistorySteps.
Section HistoryInvariant.

Context {T : Type} `{Element T}.

Lemma delivered_in_order_prod_step (q : SPSCQueue T) p c q' p' e ins outs :
  invariant {| queue := q; prod := p; cons := c |} ->
  ring_sized q e -> queue_capacity q <= 2 ^ e ->
  delivered_in_order {| queue := q; prod := p; cons := c |} ins outs ->
  prod_step q p = Some (q', p') ->
  delivered_in_order {| queue := q'; prod := p'; cons := c |}
                     (ins ++ stored_by p) outs.
Proof.
  intros Hinv Hs Hcap HJ Hst.
  destruct (p_pc p) eqn:Hpc.
  13: { unfold prod_step in Hst. rewrite Hpc in Hst. injection Hst as <- <-.
        unfold stored_by. rewrite Hpc.
        now apply (delivered_in_order_store q p c e). }
  all: unfold stored_by; rewrite Hpc, app_nil_r.
  all: destruct (prod_step_frame _ _ _ _ Hst) as (_ & Fci & _ & _ & _ & _ & Frc).
  all: assert (Hok : prod_pc_ok (p_pc p)) by apply Hinv.
  all: rewrite Hpc in Hok; cbn in Hok.
  all: apply (delivered_in_order_frame {| queue := q; prod := p; cons := c |});
    trivial; unfold write_index, read_index; cbn [queue prod cons];
    rewrite ?Fci, ?Hpc; trivial.
  all: unfold prod_step, prod_has_space, wait in Hst; rewrite Hpc in Hst.
  all: break_step Hst; cbn; try reflexivity; try (destruct k; reflexivity).
  all: try wrap_lia.
Qed.

Lemma delivered_in_order_cons_step (q : SPSCQueue T) p c q' c' e ins outs :
  invariant {| queue := q; prod := p; cons := c |} ->
  ring_sized q e -> queue_capacity q <= 2 ^ e ->
  delivered_in_order {| queue := q; prod := p; cons := c |} ins outs ->
  cons_step q c = Some (q', c') ->
  delivered_in_order {| queue := q'; prod := p; cons := c' |}
                     ins (outs ++ delivered_by c c').
Proof.
  intros Hinv Hs Hcap HJ Hst.
  assert (Hok : cons_pc_ok q (c_pc c)) by apply Hinv.
  assert (Hci : is_index (cons_ci q)) by apply Hinv.
  destruct (c_pc c) eqn:Hpc.
  14: { (* C_move_item *)
        unfold cons_step in Hst. rewrite Hpc in Hst.
        pose proof (delivered_in_order_take q p c
                      {| c_pc := C_advance 1; c_item := c_item c';
                         c_container := c_container c |} e ins outs
                      Hinv Hs Hcap HJ) as Ht.
        rewrite Hpc in Ht. cbn [taken_ahead c_pc] in Ht.
        rewrite Z.add_0_r, (wrap_small _ Hci) in Ht.
        destruct (elt_move (ring q (normalize_index q (cons_ci q))))
          as [v rest] eqn:Em.
        injection Hst as <- <-. unfold delivered_by. rewrite Hpc.
        cbn [c_item fst snd] in *. apply Ht; [cbn in Hok; lia|reflexivity]. }
  14: { (* C_for *)
        unfold cons_step in Hst. rewrite Hpc in Hst.
        cbn in Hok. destruct Hok as (Hnum & Hn1 & Hi).
        destruct (Z.ltb_spec i num) as [Hlt|Hge].
        - pose proof (delivered_in_order_take q p c
                        {| c_pc := C_for num (wrap (i + 1));
                           c_item := c_item c;
                           c_container := c_container c' |} e ins outs
                        Hinv Hs Hcap HJ) as Ht.
          rewrite Hpc in Ht. cbn [taken_ahead c_pc] in Ht.
          destruct (elt_move (ring q (normalize_index q (wrap (cons_ci q + i)))))
            as [v rest] eqn:Em.
          injection Hst as <- <-. unfold delivered_by. rewrite Hpc.
          cbn [c_container fst snd] in *.
          rewrite skipn_app, skipn_all, Nat.sub_diag. cbn [skipn app].
          apply Ht; [lia|reflexivity].
        - injection Hst as <- <-. unfold delivered_by. rewrite Hpc.
          cbn [cons_goto c_container]. rewrite skipn_all, app_nil_r.
          apply (delivered_in_order_frame {| queue := q; prod := p; cons := c |});
            trivial; unfold read_index; cbn [queue prod cons cons_goto c_pc].
          rewrite Hpc. cbn [taken_ahead]. f_equal. lia. }
  all: unfold delivered_by; rewrite Hpc, app_nil_r.
  all: destruct (cons_step_frame _ _ _ _ Hst) as (Fpi & _ & _ & _ & _ & _ & Frc).
  all: cbn in Hok.
  all: apply (delivered_in_order_frame {| queue := q; prod := p; cons := c |});
    trivial; unfold write_index, read_index; cbn [queue prod cons];
    rewrite ?Fpi, ?Hpc; trivial.
  all: unfold cons_step, cons_has_data, wait in Hst; rewrite Hpc in Hst.
  all: break_step Hst; cbn; try reflexivity; try (destruct k; reflexivity).
  all: try wrap_lia.
Qed.

Lemma history_steps (s0 s : system T) ins outs :
  history s0 ins outs s -> exists pushed popped, steps s0 pushed popped s.
Proof.
  induction 1 as [s | s0 ins outs s how item force _ IH Hf
                 | s0 ins outs s q' p' _ IH Hst
                 | s0 ins outs s item _ IH Hf
                 | s0 ins outs s container _ IH Hf
                 | s0 ins outs s q' c' _ IH Hst].
  - exists 0, 0. constructor.
  - destruct IH as (a & b & Hs). eexists _, _.
    eapply steps_next; [exact Hs|]. now apply step_push.
  - destruct IH as (a & b & Hs). eexists _, _.
    eapply steps_next; [exact Hs|]. now apply step_prod.
  - destruct IH as (a & b & Hs). eexists _, _.
    eapply steps_next; [exact Hs|]. now apply step_pop_item.
  - destruct IH as (a & b & Hs). eexists _, _.
    eapply steps_next; [exact Hs|]. now apply step_pop_vector.
  - destruct IH as (a & b & Hs). eexists _, _.
    eapply steps_next; [exact Hs|]. now apply step_cons.
Qed.

Lemma delivered_in_order_history e c (s : system T) ins outs :
  0 <= e < 64 -> 1 <= c <= 2 ^ e ->
  history (start (initial (2 ^ e) c)) ins outs s ->
  invariant s /\ ring_sized (queue s) e /\ queue_capacity (queue s) = c
  /\ delivered_in_order s ins outs.
Proof.
  intros He Hc Hh.
  pose proof (pow2_range e He) as Hpow.
  assert (Hcm : 1 <= c < modulus) by (unfold modulus, index_bits; lia).
  assert (Hall : forall s1 i o, history (start (initial (2 ^ e) c)) i o s1 ->
            invariant s1 /\ ring_sized (queue s1) e
            /\ queue_capacity (queue s1) = c).
  { intros s1 i o H1. destruct (history_steps _ _ _ _ H1) as (a & b & Hs).
    destruct (invariant_steps _ _ _ _ (invariant_start (2 ^ e) c Hcm) Hs)
      as (Hi & _ & Hq & Hr).
    split; [assumption|]. split; [split; assumption|assumption]. }
  split; [|split; [|split]]; try apply (Hall _ _ _ Hh).
  remember (start (initial (2 ^ e) c)) as s0 eqn:Es0.
  induction Hh as [s | s0 ins outs s how item force Hh IH Hf
                  | s0 ins outs s q' p' Hh IH Hst
                  | s0 ins outs s item Hh IH Hf
                  | s0 ins outs s container Hh IH Hf
                  | s0 ins outs s q' c' Hh IH Hst].
  - subst s. split; reflexivity.
  - specialize (IH Es0 Hall).
    apply (delivered_in_order_frame s); trivial.
    unfold write_index. cbn. unfold prod_free in Hf.
    destruct (p_pc (prod s)); try discriminate; reflexivity.
  - specialize (IH Es0 Hall). destruct (Hall _ _ _ Hh) as (Hi & Hs & Hq).
    destruct s as [q p co]. apply (delivered_in_order_prod_step q p co q' p' e);
      trivial. cbn in Hq. lia.
  - specialize (IH Es0 Hall).
    apply (delivered_in_order_frame s); trivial.
    unfold read_index. cbn. unfold cons_free in Hf.
    destruct (c_pc (cons s)); try discriminate; reflexivity.
  - specialize (IH Es0 Hall).
    apply (delivered_in_order_frame s); trivial.
    unfold read_index. cbn. unfold cons_free in Hf.
    destruct (c_pc (cons s)); try discriminate; reflexivity.
  - specialize (IH Es0 Hall). destruct (Hall _ _ _ Hh) as (Hi & Hs & Hq).
    destruct s as [q p co]. apply (delivered_in_order_cons_step q p co q' c' e);
      trivial. cbn in Hq. lia.
Qed.

(** X1.  FIFO under any interleaving.  On a fresh queue of capacity [c]
    whose ring has [2^e >= c] slots, whatever the interleaving of the steps
    of [push_front] calls and of [pop_back] calls of either form, the
    elements handed to the consumer are, in order and without loss or
    repetition, what the moves deliver from the first elements the producer
    stored; the elements stored and not yet handed out are the ones in the
    ring, at most [c] of them.  With an element type that keeps values, the
    consumer gets a prefix of what was pushed. *)
Theorem fifo_interleaved e c (s : system T) ins outs :
  0 <= e < 64 -> 1 <= c <= 2 ^ e ->
  history (start (initial (2 ^ e) c)) ins outs s ->
  outs = map received (firstn (length outs) ins)
  /\ live s = skipn (length outs) ins
  /\ (length outs <= length ins)%nat
  /\ Z.of_nat (length ins) <= Z.of_nat (length outs) + c
  /\ (identity_semantics T -> outs = firstn (length outs) ins).
Proof.
  intros He Hc Hh.
  destruct (delivered_in_order_history e c s ins outs He Hc Hh)
    as (Hi & Hs & Hq & HJ).
  pose proof (delivered_in_order_length _ _ _ HJ) as Hlen.
  destruct (live_count _ Hi) as (_ & Hd0 & Hdc).
  pose proof (stored_ahead_bound (p_pc (prod s))) as Hsb.
  destruct HJ as [Hout Hlive].
  split; [assumption|]. split; [assumption|]. split; [lia|]. split; [lia|].
  intros Hid. rewrite Hout at 1. rewrite <- (map_id (firstn _ ins)) at 2.
  apply map_ext. intros x. apply Hid.
Qed.

End HistoryInvariant.
Section Exclusion.

Context {T : Type} `{Element T}.

Lemma dist_range a b : 0 <= dist a b < modulus.
Proof. apply wrap_range. Qed.

(** Distances along the circle add up as long as they do not go round. *)
Lemma dist_chain a b c :
  dist b a + dist c b < modulus -> dist c a = dist b a + dist c b.
Proof. wrap_lia. Qed.

Lemma dist_add_l a b k :
  0 <= k -> dist a b + k < modulus -> dist (wrap (a + k)) b = dist a b + k.
Proof. wrap_lia. Qed.

Lemma dist_sub_r a b k :
  0 <= k <= dist a b -> dist a (wrap (b + k)) = dist a b - k.
Proof. wrap_lia. Qed.

Lemma replay_history sched : forall (s0 s : system T) ins outs ins' outs' s',
  history s0 ins outs s ->
  replay sched ins outs s = Some (ins', outs', s') ->
  history s0 ins' outs' s'.
Proof.
  induction sched as [|a sched IH]; cbn; intros s0 s ins outs ins' outs' s' Hh Hr.
  - now inversion Hr; subst.
  - destruct (act a s) as [[e s1]|] eqn:Ha; [|discriminate].
    eapply IH; [|eassumption].
    unfold act in Ha. destruct a; break_step Ha; rewrite ?app_nil_r.
    + now apply history_push.
    + now apply history_prod.
    + now apply history_pop_item.
    + now apply history_pop_vector.
    + now apply history_cons.
Qed.

(** X2.  The producer never overwrites an element that has not been handed
    out: on a fresh queue whose ring has [2^e >= c] slots, whenever the
    producer is about to write a slot, that slot lies inside the array and
    is none of the slots of the live elements. *)
Theorem store_spares_live_elements e c (s : system T) pushed popped :
  0 <= e < 64 -> 1 <= c <= 2 ^ e ->
  steps (start (initial (2 ^ e) c)) pushed popped s ->
  p_pc (prod s) = P_store ->
  0 <= normalize_index (queue s) (prod_pi (queue s))
    < ring_capacity (queue s)
  /\ forall k, 0 <= k < dist (write_index s) (read_index s) ->
       normalize_index (queue s) (prod_pi (queue s))
       <> normalize_index (queue s) (wrap (read_index s + k)).
Proof.
  intros He Hc Hs Hpc.
  pose proof (pow2_range e He) as Hpow.
  assert (Hcm : 1 <= c < modulus) by (unfold modulus, index_bits; lia).
  destruct (invariant_steps _ _ _ _ (invariant_start (2 ^ e) c Hcm) Hs)
    as (Hi & _ & Hq & Hr).
  cbn in Hq, Hr.
  assert (Hsz : ring_sized (queue s) e) by (split; assumption).
  destruct (live_count _ Hi) as (Hd & Hd0 & Hdc).
  assert (Hpi : is_index (prod_pi (queue s))) by apply Hi.
  rewrite Hpc in Hdc. cbn in Hdc.
  split.
  - apply (normalize_index_range _ e); [assumption|apply Hpi].
  - intros k Hk.
    set (d := dist (write_index s) (read_index s)) in *.
    replace (prod_pi (queue s)) with (wrap (read_index s + d)).
    + intros E. symmetry in E. revert E.
      apply (normalize_index_distinct _ e); [assumption|lia|lia].
    + subst d. unfold write_index. rewrite Hpc. cbn. wrap_lia.
Qed.

(** X3.  The consumer only reads what was published: in every reachable
    state the consumer's copy [cons_pi] is at most the published
    [__prod_index], which is at most the producer's [prod_pi], all within
    [c] of [cons_ci]; and whenever the consumer is about to move an element
    out of the ring, the counter of that element is below
    [__prod_index]. *)
Theorem consumer_reads_published rc c (s : system T) pushed popped :
  1 <= c < modulus ->
  steps (start (initial rc c)) pushed popped s ->
  dist (cons_pi (queue s)) (cons_ci (queue s))
  <= dist (__prod_index (queue s)) (cons_ci (queue s))
  /\ dist (__prod_index (queue s)) (cons_ci (queue s))
     <= dist (prod_pi (queue s)) (cons_ci (queue s))
  /\ dist (prod_pi (queue s)) (cons_ci (queue s)) <= c
  /\ (match c_pc (cons s) with
      | C_move_item => True
      | C_for num i => i < num
      | _ => False
      end ->
      1 <= dist (__prod_index (queue s)) (read_index s) <= c
      /\ dist (__prod_index (queue s)) (read_index s)
         + taken_ahead (c_pc (cons s))
         = dist (__prod_index (queue s)) (cons_ci (queue s))).
Proof.
  intros Hc Hs.
  destruct (invariant_steps _ _ _ _ (invariant_start rc c Hc) Hs)
    as ((_ & Hx & Hch & Hp & Hco) & _ & Hq & _).
  cbn in Hq. rewrite Hq in Hch. unfold occupancy_chain in Hch.
  assert (Hg : 0 <= prod_granted (p_pc (prod s)))
    by (destruct (p_pc (prod s)); cbn; lia).
  pose proof (taken_ahead_bound _ _ Hco) as Ht.
  unfold read_index.
  clear Hs Hp Hx.
  pose proof (dist_range (__cons_index (queue s)) (prod_ci (queue s))).
  pose proof (dist_range (cons_ci (queue s)) (__cons_index (queue s))).
  pose proof (dist_range (cons_pi (queue s)) (cons_ci (queue s))).
  pose proof (dist_range (__prod_index (queue s)) (cons_pi (queue s))).
  pose proof (dist_range (prod_pi (queue s)) (__prod_index (queue s))).
  assert (E1 : dist (__prod_index (queue s)) (cons_ci (queue s))
               = dist (cons_pi (queue s)) (cons_ci (queue s))
                 + dist (__prod_index (queue s)) (cons_pi (queue s)))
    by (apply dist_chain; lia).
  assert (E2 : dist (prod_pi (queue s)) (cons_ci (queue s))
               = dist (__prod_index (queue s)) (cons_ci (queue s))
                 + dist (prod_pi (queue s)) (__prod_index (queue s)))
    by (apply dist_chain; lia).
  split; [lia|]. split; [lia|]. split; [lia|].
  intros Hpc.
  rewrite dist_sub_r by lia.
  destruct (c_pc (cons s)); try contradiction;
    cbn [taken_ahead cons_pc_ok] in *; lia.
Qed.

End Exclusion.
(** ** No lost wake-up *)

Section WakeUp.

Context {T : Type} `{Element T}.

Lemma dist_inj_r p a b :
  is_index a -> is_index b -> dist p a = dist p b -> a = b.
Proof. wrap_lia. Qed.

(** The distances between the copies of the indices, read off the chain. *)
Lemma chain_dists (s : system T) :
  invariant s ->
  dist (prod_pi (queue s)) (__cons_index (queue s))
  = dist (cons_ci (queue s)) (__cons_index (queue s))
    + dist (prod_pi (queue s)) (cons_ci (queue s))
  /\ dist (prod_pi (queue s)) (cons_ci (queue s))
     = dist (__prod_index (queue s)) (cons_ci (queue s))
       + dist (prod_pi (queue s)) (__prod_index (queue s))
  /\ dist (__prod_index (queue s)) (cons_ci (queue s))
     = dist (cons_pi (queue s)) (cons_ci (queue s))
       + dist (__prod_index (queue s)) (cons_pi (queue s))
  /\ dist (prod_pi (queue s)) (prod_ci (queue s))
     = dist (__cons_index (queue s)) (prod_ci (queue s))
       + dist (prod_pi (queue s)) (__cons_index (queue s))
  /\ dist (prod_pi (queue s)) (prod_ci (queue s))
     + prod_granted (p_pc (prod s)) <= queue_capacity (queue s)
  /\ 0 <= prod_granted (p_pc (prod s)).
Proof.
  intros (Hc & _ & Hch & _ & _). unfold occupancy_chain in Hch.
  assert (Hg : 0 <= prod_granted (p_pc (prod s)))
    by (destruct (p_pc (prod s)); cbn; lia).
  pose proof (dist_range (__cons_index (queue s)) (prod_ci (queue s))).
  pose proof (dist_range (cons_ci (queue s)) (__cons_index (queue s))).
  pose proof (dist_range (cons_pi (queue s)) (cons_ci (queue s))).
  pose proof (dist_range (__prod_index (queue s)) (cons_pi (queue s))).
  pose proof (dist_range (prod_pi (queue s)) (__prod_index (queue s))).
  assert (E3 : dist (__prod_index (queue s)) (cons_ci (queue s))
               = dist (cons_pi (queue s)) (cons_ci (queue s))
                 + dist (__prod_index (queue s)) (cons_pi (queue s)))
    by (apply dist_chain; lia).
  assert (E2 : dist (prod_pi (queue s)) (cons_ci (queue s))
               = dist (__prod_index (queue s)) (cons_ci (queue s))
                 + dist (prod_pi (queue s)) (__prod_index (queue s)))
    by (apply dist_chain; lia).
  assert (E1 : dist (prod_pi (queue s)) (__cons_index (queue s))
               = dist (cons_ci (queue s)) (__cons_index (queue s))
                 + dist (prod_pi (queue s)) (cons_ci (queue s)))
    by (apply dist_chain; lia).
  assert (E4 : dist (prod_pi (queue s)) (prod_ci (queue s))
               = dist (__cons_index (queue s)) (prod_ci (queue s))
                 + dist (prod_pi (queue s)) (__cons_index (queue s)))
    by (apply dist_chain; lia).
  repeat apply conj; lia.
Qed.

(** A failed [prod_has_space(1)] has seen exactly [queue_capacity]
    elements. *)
Lemma prod_has_space_full (q : SPSCQueue T) p c :
  invariant {| queue := q; prod := p; cons := c |} ->
  fst (prod_has_space 1 q) = false ->
  dist (prod_pi q) (__cons_index q) = queue_capacity q.
Proof.
  intros Hinv Hs.
  destruct (chain_dists _ Hinv) as (_ & _ & _ & E4 & Hb & Hg).
  destruct Hinv as (Hc & _).
  cbn [queue prod cons] in *.
  unfold prod_has_space in Hs. cbn in Hs. apply Z.leb_gt in Hs.
  rewrite (wrap_small (queue_capacity q - 1)) in Hs by (unwrap; lia).
  pose proof (dist_range (__cons_index q) (prod_ci q)). lia.
Qed.

Lemma prod_wait_ok_prod_step (q : SPSCQueue T) p c q' p' :
  invariant {| queue := q; prod := p; cons := c |} ->
  prod_wait_ok q (p_pc p) ->
  prod_step q p = Some (q', p') ->
  prod_wait_ok q' (p_pc p').
Proof.
  intros Hinv Hok Hst.
  assert (Hpok : prod_pc_ok (p_pc p)) by apply Hinv.
  assert (Hx : indices_ok q) by apply Hinv.
  destruct Hx as (_ & _ & Hpci & Hppi & Hcidx & _).
  destruct (p_pc p) eqn:Hpc; cbn in Hpok.
  2: { (* P_has_space *)
       subst want. pose proof (prod_has_space_full q p c Hinv) as Hfull.
       unfold prod_step in Hst. rewrite Hpc in Hst.
       unfold prod_has_space in *. cbn [fst snd] in *.
       destruct (_ <=? _) eqn:E.
       - injection Hst as <- <-. exact I.
       - specialize (Hfull eq_refl). destruct again.
         + injection Hst as <- <-. cbn in Hok |- *.
           destruct Hok as ((Hd & He) & Hpub).
           assert (prod_ci q = __cons_index q) as Heq.
           { apply (dist_inj_r (prod_pi q)); trivial. lia. }
           rewrite <- Heq. repeat split; assumption.
         + injection Hst as <- <-. cbn. exact Hfull. }
  all: unfold prod_step, wait in Hst; rewrite Hpc in Hst.
  all: break_step Hst; cbn in *; trivial.
  all: try (destruct k; cbn in *; tauto).
  - (* P_set_event *) split; [assumption|]. rewrite Hok. reflexivity.
Qed.


Lemma prod_wait_ok_frame (q q' : SPSCQueue T) pc :
  prod_pi q' = prod_pi q -> prod_ci q' = prod_ci q ->
  __prod_index q' = __prod_index q -> prod_event q' = prod_event q ->
  queue_capacity q' = queue_capacity q ->
  prod_wait_ok q pc -> prod_wait_ok q' pc.
Proof.
  intros E1 E2 E3 E4 E5. unfold prod_wait_ok, prod_armed.
  rewrite E1, E2, E3, E4, E5. trivial.
Qed.

Lemma cons_wait_ok_frame (q q' : SPSCQueue T) pc :
  cons_ci q' = cons_ci q -> __cons_index q' = __cons_index q ->
  cons_event q' = cons_event q ->
  cons_wait_ok q pc -> cons_wait_ok q' pc.
Proof.
  intros E1 E2 E3. unfold cons_wait_ok, cons_armed.
  rewrite E1, E2, E3. trivial.
Qed.

Lemma cons_wait_ok_cons_step (q : SPSCQueue T) p c q' c' :
  invariant {| queue := q; prod := p; cons := c |} ->
  cons_wait_ok q (c_pc c) ->
  cons_step q c = Some (q', c') ->
  cons_wait_ok q' (c_pc c').
Proof.
  intros Hinv Hok Hst.
  assert (Hcok : cons_pc_ok q (c_pc c)) by apply Hinv.
  assert (Hx : indices_ok q) by apply Hinv.
  destruct Hx as (_ & _ & _ & _ & _ & _ & Hcci & _).
  unfold cons_step, cons_has_data, wait in Hst.
  destruct (c_pc c) eqn:Hpc; cbn in Hcok.
  all: break_step Hst; cbn in *; trivial.
  all: try (destruct k; cbn in *; tauto).
  - (* C_set_event *) unfold cons_armed. cbn.
    replace (cons_ci q + 1 - 1) with (cons_ci q) by lia.
    apply wrap_small. exact Hcci.
Qed.

(** The event that [prod_wait_space] arms on a full queue lies
    [queue_capacity - queue_capacity/4] behind the producer index. *)
Lemma armed_dist p ci c :
  1 <= c < modulus -> dist p ci = c ->
  dist p (wrap (ci + c / 4)) = c - c / 4.
Proof.
  intros Hc Hd.
  assert (Hq : 0 <= c / 4 <= c) by (split; [apply Z.div_pos; lia|];
    apply Z.div_le_upper_bound; lia).
  rewrite dist_sub_r by lia. lia.
Qed.

(** An advance from [old] to [now], both seen from a later point [p]: either
    the event is still ahead of [now], or the comparison of the notify
    function fires. *)
Lemma crossed_or_ahead p now old ev :
  dist p ev <= dist p old -> dist p now <= dist p old ->
  dist p ev <= dist p now \/ crossed now old ev = true.
Proof.
  intros H1 H2.
  destruct (Z_le_gt_dec (dist p ev) (dist p now)) as [Hle|Hgt];
    [left; exact Hle|right].
  unfold crossed. apply Z.ltb_lt.
  pose proof (dist_range p ev). pose proof (dist_range p now).
  pose proof (dist_range p old).
  assert (E1 : wrap (now - old) = dist p old - dist p now).
  { unfold dist in *. wrap_lia. }
  assert (E2 : wrap (now - ev - 1) = dist p ev - dist p now - 1).
  { unfold dist in *. wrap_lia. }
  lia.
Qed.

Lemma crossed_self now old :
  is_index now -> is_index old -> now <> old -> crossed now old old = true.
Proof. intros H1 H2 Hne. unfold crossed. apply Z.ltb_lt. wrap_lia. Qed.

Lemma prod_wake_prod_step (q : SPSCQueue T) p c q' p' :
  invariant {| queue := q; prod := p; cons := c |} ->
  prod_wait_ok q (p_pc p) ->
  prod_step q p = Some (q', p') ->
  prod_wake {| queue := q'; prod := p'; cons := c |}.
Proof.
  intros Hinv Hok Hst. unfold prod_wake. cbn [queue prod cons].
  destruct (p_pc p') eqn:Hpc'; trivial.
  assert (Hpok : prod_pc_ok (p_pc p)) by apply Hinv.
  assert (Hcap : 1 <= queue_capacity q < modulus) by apply Hinv.
  pose proof (prod_has_space_full q p c Hinv) as Hfull.
  unfold prod_step, wait in Hst.
  destruct (p_pc p) eqn:Hpc; cbn in Hpok;
    try (break_step Hst; cbn in Hpc'; try destruct k; discriminate).
  subst want0. unfold prod_has_space in *. cbn [fst snd] in *.
  destruct (_ <=? _) eqn:E; [injection Hst as <- <-; discriminate|].
  specialize (Hfull eq_refl).
  destruct again; injection Hst as <- <-; [|discriminate].
  cbn in Hok |- *. destruct Hok as ((Hd & He) & Hpub).
  right; left. rewrite He, Hfull.
  rewrite (armed_dist _ _ _ Hcap Hd).
  assert (0 <= queue_capacity q / 4) by (apply Z.div_pos; lia). lia.
Qed.

Lemma cons_step_prod_sem (q : SPSCQueue T) c q' c' :
  cons_step q c = Some (q', c') ->
  flag (prod_sem q) = true -> flag (prod_sem q') = true.
Proof.
  unfold cons_step, cons_has_data, wait. intros Hs.
  destruct (c_pc c); break_step Hs; cbn; auto.
Qed.

Lemma prod_step_cons_sem (q : SPSCQueue T) p q' p' :
  prod_step q p = Some (q', p') ->
  flag (cons_sem q) = true -> flag (cons_sem q') = true.
Proof.
  unfold prod_step, prod_has_space, wait. intros Hs.
  destruct (p_pc p); break_step Hs; cbn; auto.
Qed.

Lemma prod_wake_cons_step (q : SPSCQueue T) p c q' c' :
  invariant {| queue := q; prod := p; cons := c |} ->
  cons_wait_ok q (c_pc c) ->
  prod_wake {| queue := q; prod := p; cons := c |} ->
  cons_step q c = Some (q', c') ->
  prod_wake {| queue := q'; prod := p; cons := c' |}.
Proof.
  intros Hinv Hok Hw Hst. unfold prod_wake in *. cbn [queue prod cons] in *.
  destruct (p_pc p) eqn:Hpc; trivial.
  destruct (chain_dists _ Hinv) as (E1 & _). cbn [queue] in E1.
  pose proof (dist_range (cons_ci q) (__cons_index q)) as Hr.
  destruct (cons_step_frame _ _ _ _ Hst) as (Fpi & _ & _ & Fev & _).
  destruct Hw as [Hf | [Hn | Hp]].
  - left. eapply cons_step_prod_sem; eassumption.
  - rewrite Fpi, Fev.
    unfold cons_step, cons_has_data, wait in Hst.
    destruct (c_pc c) eqn:Hcc.
    all: try (break_step Hst; cbn; right; left; exact Hn).
    (* C_notify_store *)
    injection Hst as <- <-. cbn.
    assert (old = __cons_index q) as -> by (destruct k; cbn in Hok; tauto).
    right.
    apply crossed_or_ahead; lia.
  - unfold cons_step, cons_has_data, wait in Hst.
    destruct (c_pc c) eqn:Hcc; cbn in Hp; try contradiction.
    + injection Hst as <- <-. right; right. cbn. exact Hp.
    + rewrite Hp in Hst. injection Hst as <- <-. right; right. cbn. exact I.
    + injection Hst as <- <-. left. reflexivity.
Qed.

Lemma cons_wake_cons_step (q : SPSCQueue T) p c q' c' :
  invariant {| queue := q; prod := p; cons := c |} ->
  cons_step q c = Some (q', c') ->
  cons_wake {| queue := q'; prod := p; cons := c' |}.
Proof.
  intros Hinv Hst. unfold cons_wake. cbn [queue prod cons].
  destruct (c_pc c') eqn:Hpc'; trivial.
  assert (Hcok : cons_pc_ok q (c_pc c)) by apply Hinv.
  assert (Hx : indices_ok q) by apply Hinv.
  destruct Hx as (Hpidx & _ & _ & _ & _ & _ & Hcci & _).
  unfold cons_step, wait in Hst.
  destruct (c_pc c) eqn:Hpc; cbn in Hcok;
    try (break_step Hst; cbn in Hpc'; try destruct k; discriminate).
  unfold cons_has_data in Hst. cbn [fst snd] in *.
  destruct (_ <=? _) eqn:E;
    [injection Hst as <- <-; discriminate|].
  destruct c0; injection Hst as <- <-; try discriminate.
  cbn in E |- *. right; left. apply Z.leb_gt in E.
  apply (dist_inj_r (__prod_index q)); trivial.
  pose proof (dist_range (__prod_index q) (cons_ci q)).
  assert (dist (__prod_index q) (__prod_index q) = 0) by wrap_lia. lia.
Qed.

Lemma cons_wake_prod_step (q : SPSCQueue T) p c q' p' :
  invariant {| queue := q; prod := p; cons := c |} ->
  prod_wait_ok q (p_pc p) ->
  cons_wait_ok q (c_pc c) ->
  cons_wake {| queue := q; prod := p; cons := c |} ->
  prod_step q p = Some (q', p') ->
  cons_wake {| queue := q'; prod := p'; cons := c |}.
Proof.
  intros Hinv Hpok Hcok Hw Hst. unfold cons_wake in *.
  cbn [queue prod cons] in *.
  destruct (c_pc c) eqn:Hcc; trivial.
  assert (Hx : indices_ok q) by apply Hinv.
  destruct Hx as (_ & _ & _ & Hppi & _ & _ & Hcci & _).
  destruct (prod_step_frame _ _ _ _ Hst) as (_ & Fci & _ & Fev & _).
  cbn in Hcok. destruct Hcok as (Harm & Hpub). unfold cons_armed in Harm.
  destruct Hw as [Hf | [Hn | Hp]].
  - left. eapply prod_step_cons_sem; eassumption.
  - rewrite Fci.
    unfold prod_step, prod_has_space, wait in Hst.
    destruct (p_pc p) eqn:Hpc.
    all: try (break_step Hst; cbn; right; left; exact Hn).
    (* P_notify_store *)
    injection Hst as <- <-. cbn.
    assert (old = __prod_index q) as -> by (destruct k; cbn in Hpok; tauto).
    right. destruct (Z.eq_dec (prod_pi q) (cons_ci q)) as [Heq|Hne];
      [left; exact Heq|right].
    rewrite Harm, Hn. apply crossed_self; assumption.
  - unfold prod_step, prod_has_space, wait in Hst.
    destruct (p_pc p) eqn:Hpc; cbn in Hp; try contradiction.
    + injection Hst as <- <-. right; right. cbn. exact Hp.
    + rewrite Hp in Hst. injection Hst as <- <-. right; right. cbn. exact I.
    + injection Hst as <- <-. left. reflexivity.
Qed.

(** The wake-up protocol is kept by every step of every interleaving. *)
Lemma wake_invariant_step (s : system T) e s' :
  invariant s -> wake_invariant s -> step s e s' -> wake_invariant s'.
Proof.
  intros Hinv (Hp & Hc & Hpw & Hcw) Hst.
  destruct Hst as [s how item force Hf | s q' p' Hs | s item Hf | s co Hf
                  | s q' c' Hs]; unfold wake_invariant; cbn [queue prod cons].
  - (* a push is entered *)
    unfold prod_free in Hf. unfold prod_wake, cons_wake in *.
    cbn [queue prod cons p_pc push_front_call prod_wait_ok].
    repeat apply conj; trivial.
    destruct (c_pc (cons s)); trivial.
    destruct Hcw as [Hcw | [Hcw | Hcw]]; auto.
    destruct (p_pc (prod s)); try discriminate; contradiction.
  - destruct s as [q p c]. cbn [queue prod cons] in *.
    destruct (prod_step_frame _ _ _ _ Hs) as (_ & F1 & F2 & F3 & _).
    repeat apply conj.
    + eapply prod_wait_ok_prod_step; eassumption.
    + eapply cons_wait_ok_frame; eassumption.
    + eapply prod_wake_prod_step; eassumption.
    + eapply cons_wake_prod_step; eassumption.
  - unfold cons_free in Hf. unfold prod_wake, cons_wake in *.
    cbn [queue prod cons c_pc pop_back_item_call cons_wait_ok].
    repeat apply conj; trivial.
    destruct (p_pc (prod s)); trivial.
    destruct Hpw as [Hpw | [Hpw | Hpw]]; auto.
    destruct (c_pc (cons s)); try discriminate; contradiction.
  - unfold cons_free in Hf. unfold prod_wake, cons_wake in *.
    cbn [queue prod cons c_pc pop_back_vector_call cons_wait_ok].
    repeat apply conj; trivial.
    destruct (p_pc (prod s)); trivial.
    destruct Hpw as [Hpw | [Hpw | Hpw]]; auto.
    destruct (c_pc (cons s)); try discriminate; contradiction.
  - destruct s as [q p c]. cbn [queue prod cons] in *.
    destruct (cons_step_frame _ _ _ _ Hs) as (F1 & F2 & F3 & F4 & _ & F5 & _).
    repeat apply conj.
    + eapply prod_wait_ok_frame; eassumption.
    + eapply cons_wait_ok_cons_step; eassumption.
    + eapply prod_wake_cons_step; eassumption.
    + eapply cons_wake_cons_step; eassumption.
Qed.

Lemma wake_invariant_steps (s : system T) pushed popped s' :
  invariant s -> wake_invariant s -> steps s pushed popped s' ->
  wake_invariant s'.
Proof.
  intros Hi Hw Hs. induction Hs as [s | s1 a b s2 e s3 Hs IH Hst]; trivial.
  eapply wake_invariant_step; [|apply IH; assumption|exact Hst].
  eapply invariant_steps; eassumption.
Qed.

Lemma wake_invariant_start ring_cap c :
  wake_invariant (start (T := T) (initial ring_cap c)).
Proof. unfold wake_invariant. cbn. auto. Qed.
End WakeUp.
Section WakeUpTheorems.

Context {T : Type} `{Element T}.

Lemma wake_invariant_reachable ring_cap c (s : system T) pushed popped :
  1 <= c < modulus ->
  steps (start (initial ring_cap c)) pushed popped s ->
  invariant s /\ wake_invariant s.
Proof.
  intros Hc Hs. pose proof (invariant_start (T := T) ring_cap c Hc) as Hi.
  split; [eapply invariant_steps; eassumption|].
  eapply wake_invariant_steps; [exact Hi|apply wake_invariant_start|exact Hs].
Qed.

(** A consumer whose comparison in [cons_notify] is going to fire, or has
    fired, sets [prod_sem] within three of its own steps. *)
Lemma prod_signal_pending_runs (q : SPSCQueue T) (c : consumer T) :
  prod_signal_pending q (c_pc c) ->
  exists n q' c', (n <= 3)%nat /\ runs cons_step n q c q' c'
                  /\ flag (prod_sem q') = true.
Proof.
  intros Hp. destruct c as [pc item cont]. cbn in Hp.
  destruct pc; try contradiction.
  - exists 3%nat. do 2 eexists. split; [lia|]. split.
    + econstructor; [reflexivity|]. econstructor.
      { unfold cons_step. cbn. rewrite Hp. reflexivity. }
      econstructor; [reflexivity|]. constructor.
    + reflexivity.
  - exists 2%nat. do 2 eexists. split; [lia|]. split.
    + econstructor.
      { unfold cons_step. cbn. rewrite Hp. reflexivity. }
      econstructor; [reflexivity|]. constructor.
    + reflexivity.
  - exists 1%nat. do 2 eexists. split; [lia|]. split.
    + econstructor; [reflexivity|]. constructor.
    + reflexivity.
Qed.

Lemma cons_signal_pending_runs (q : SPSCQueue T) (p : producer T) :
  cons_signal_pending q (p_pc p) ->
  exists n q' p', (n <= 3)%nat /\ runs prod_step n q p q' p'
                  /\ flag (cons_sem q') = true.
Proof.
  intros Hp. destruct p as [pc item how force]. cbn in Hp.
  destruct pc; try contradiction.
  - exists 3%nat. do 2 eexists. split; [lia|]. split.
    + econstructor; [reflexivity|]. econstructor.
      { unfold prod_step. cbn. rewrite Hp. reflexivity. }
      econstructor; [reflexivity|]. constructor.
    + reflexivity.
  - exists 2%nat. do 2 eexists. split; [lia|]. split.
    + econstructor.
      { unfold prod_step. cbn. rewrite Hp. reflexivity. }
      econstructor; [reflexivity|]. constructor.
    + reflexivity.
  - exists 1%nat. do 2 eexists. split; [lia|]. split.
    + econstructor; [reflexivity|]. constructor.
    + reflexivity.
Qed.

(** What is known in a state in which the producer is asleep. *)
Lemma producer_parked_facts ring_cap c (s : system T) pushed popped :
  1 <= c < modulus ->
  steps (start (initial ring_cap c)) pushed popped s ->
  prod_parked s ->
  __prod_index (queue s) = prod_pi (queue s)
  /\ dist (prod_pi (queue s)) (prod_ci (queue s)) = c
  /\ dist (prod_pi (queue s)) (prod_event (queue s)) = c - c / 4
  /\ (dist (prod_pi (queue s)) (prod_event (queue s))
      <= dist (prod_pi (queue s)) (__cons_index (queue s))
      \/ prod_signal_pending (queue s) (c_pc (cons s))).
Proof.
  intros Hc Hs ((want & Hpc) & Hflag).
  destruct (wake_invariant_reachable _ _ _ _ _ Hc Hs)
    as (Hinv & Hp & _ & Hpw & _).
  destruct (invariant_steps _ _ _ _ (invariant_start ring_cap c Hc) Hs)
    as (_ & _ & Hcap & _).
  cbn in Hcap.
  unfold prod_wake in Hpw. rewrite Hpc in Hp, Hpw. cbn in Hp.
  destruct Hp as ((Hd & He) & Hpub). rewrite Hcap in *.
  split; [exact Hpub|]. split; [exact Hd|].
  split; [rewrite He; apply armed_dist; assumption|].
  destruct Hpw as [Hf | Hpw]; [congruence|exact Hpw].
Qed.

(** What is known in a state in which the consumer is asleep. *)
Lemma consumer_parked_facts ring_cap c (s : system T) pushed popped :
  1 <= c < modulus ->
  steps (start (initial ring_cap c)) pushed popped s ->
  cons_parked s ->
  __cons_index (queue s) = cons_ci (queue s)
  /\ (__prod_index (queue s) = cons_ci (queue s)
      \/ cons_signal_pending (queue s) (p_pc (prod s))).
Proof.
  intros Hc Hs ((want & kind & Hpc) & Hflag).
  destruct (wake_invariant_reachable _ _ _ _ _ Hc Hs)
    as (Hinv & _ & Hcok & _ & Hcw).
  unfold cons_wake in Hcw. rewrite Hpc in Hcok, Hcw. cbn in Hcok.
  destruct Hcok as (_ & Hpub). split; [exact Hpub|].
  destruct Hcw as [Hf | Hcw]; [congruence|exact Hcw].
Qed.

(** X4. No wake-up of the producer is lost.  In every interleaving of
    [push_front] and [pop_back] calls on a fresh queue of capacity [c], a
    producer that sleeps in [prod_sem.wait()] has published all its elements
    and has seen the queue full; and either the consumer index that is
    published still leaves at least [c - c/4] elements in the queue, or the
    consumer is inside [cons_notify] and sets [prod_sem] within three of its
    own steps. *)
Theorem producer_wake_up_not_lost ring_cap c (s : system T) pushed popped :
  1 <= c < modulus ->
  steps (start (initial ring_cap c)) pushed popped s ->
  prod_parked s ->
  __prod_index (queue s) = prod_pi (queue s)
  /\ dist (prod_pi (queue s)) (prod_ci (queue s)) = c
  /\ (c - c / 4 <= dist (prod_pi (queue s)) (__cons_index (queue s)) <= c
      \/ exists n q' c', (n <= 3)%nat
           /\ runs cons_step n (queue s) (cons s) q' c'
           /\ flag (prod_sem q') = true).
Proof.
  intros Hc Hs Hpark.
  destruct (producer_parked_facts _ _ _ _ _ Hc Hs Hpark)
    as (Hpub & Hd & Hev & Hpw).
  destruct (wake_invariant_reachable _ _ _ _ _ Hc Hs) as (Hinv & _).
  destruct (chain_dists _ Hinv) as (_ & _ & _ & E4 & _).
  pose proof (dist_range (__cons_index (queue s)) (prod_ci (queue s))).
  split; [exact Hpub|]. split; [exact Hd|].
  destruct Hpw as [Hn | Hpend].
  - left. lia.
  - right. apply prod_signal_pending_runs. exact Hpend.
Qed.

(** X5. No wake-up of the consumer is lost.  A consumer that sleeps in
    [cons_sem.wait()] has published its index; and either the producer has
    published nothing that it could take, or the producer is inside
    [prod_notify] and sets [cons_sem] within three of its own steps. *)
Theorem consumer_wake_up_not_lost ring_cap c (s : system T) pushed popped :
  1 <= c < modulus ->
  steps (start (initial ring_cap c)) pushed popped s ->
  cons_parked s ->
  __cons_index (queue s) = cons_ci (queue s)
  /\ (available (queue s) = []
      \/ exists n q' p', (n <= 3)%nat
           /\ runs prod_step n (queue s) (prod s) q' p'
           /\ flag (cons_sem q') = true).
Proof.
  intros Hc Hs Hpark.
  destruct (consumer_parked_facts _ _ _ _ _ Hc Hs Hpark) as (Hpub & Hcw).
  split; [exact Hpub|].
  destruct Hcw as [Hn | Hpend].
  - left. unfold available. rewrite Hn.
    replace (dist _ _) with 0 by wrap_lia. reflexivity.
  - right. apply cons_signal_pending_runs. exact Hpend.
Qed.

Lemma prod_step_None (q : SPSCQueue T) p :
  prod_step q p = None ->
  prod_free p = true
  \/ (exists want, p_pc p = P_sem_wait want) /\ flag (prod_sem q) = false.
Proof.
  unfold prod_step, prod_free, prod_has_space, wait.
  destruct (p_pc p) eqn:Hpc; intros Hs; auto.
  all: try (break_step Hs; fail).
  right. split; [eauto|]. destruct (flag (prod_sem q)); [discriminate|trivial].
Qed.

Lemma cons_step_None (q : SPSCQueue T) c :
  cons_step q c = None ->
  cons_free c = true
  \/ (exists want kind, c_pc c = C_sem_wait want kind)
     /\ flag (cons_sem q) = false.
Proof.
  unfold cons_step, cons_free, cons_has_data, wait.
  destruct (c_pc c) eqn:Hpc; intros Hs; auto.
  all: try (break_step Hs; fail).
  right. split; [eauto|]. destruct (flag (cons_sem q)); [discriminate|trivial].
Qed.

(** X6. The two threads never wait for each other.  In every interleaving
    on a fresh queue, when the producer is inside [push_front] and the
    consumer inside [pop_back], at least one of them can take its next
    step: they are never both asleep on their semaphores. *)
Theorem push_pop_never_deadlock ring_cap c (s : system T) pushed popped :
  1 <= c < modulus ->
  steps (start (initial ring_cap c)) pushed popped s ->
  prod_free (prod s) = false ->
  cons_free (cons s) = false ->
  (exists q' p', prod_step (queue s) (prod s) = Some (q', p'))
  \/ (exists q' c', cons_step (queue s) (cons s) = Some (q', c')).
Proof.
  intros Hc Hs Hpf Hcf.
  destruct (prod_step (queue s) (prod s)) as [[q' p']|] eqn:Hp;
    [left; eauto|].
  destruct (cons_step (queue s) (cons s)) as [[q' c']|] eqn:Hco;
    [right; eauto|].
  exfalso.
  destruct (prod_step_None _ _ Hp) as [Hf|Hpp]; [congruence|].
  destruct (cons_step_None _ _ Hco) as [Hf|Hcp]; [congruence|].
  destruct (producer_parked_facts ring_cap c s pushed popped Hc Hs Hpp)
    as (Hpub & Hd & Hev & Hpw).
  destruct (consumer_parked_facts ring_cap c s pushed popped Hc Hs Hcp)
    as (Hcpub & Hcw).
  destruct Hcp as ((want & kind & Hcpc) & _).
  destruct Hpp as ((want' & Hppc) & _).
  rewrite Hcpc in Hpw. rewrite Hppc in Hcw. cbn in Hpw, Hcw.
  destruct Hpw as [Hpw|[]]. destruct Hcw as [Hcw|[]].
  assert (Hq : 0 <= c / 4) by (apply Z.div_pos; lia).
  assert (Hq' : c / 4 < c) by (apply Z.div_lt_upper_bound; lia).
  rewrite Hev, Hcpub, <- Hcw, Hpub in Hpw.
  replace (dist (prod_pi (queue s)) (prod_pi (queue s))) with 0 in Hpw
    by wrap_lia.
  lia.
Qed.

End WakeUpTheorems.
Section Visibility.

Context {T : Type} `{Element T}.

Lemma firstn_seq_le n : forall a m,
  (n <= m)%nat -> firstn n (seq a m) = seq a n.
Proof.
  induction n as [|n IH]; intros a m Hle; [reflexivity|].
  destruct m as [|m]; [lia|]. cbn. f_equal. apply IH. lia.
Qed.

Lemma window_firstn (q : SPSCQueue T) base n m :
  (n <= m)%nat -> window q base n = firstn n (window q base m).
Proof.
  intros Hle. unfold window. now rewrite firstn_map, firstn_seq_le.
Qed.

Lemma available_window (q : SPSCQueue T) :
  available q
  = window q (cons_ci q) (Z.to_nat (dist (__prod_index q) (cons_ci q))).
Proof. reflexivity. Qed.

(** X7. What the consumer can take is what comes next in push order.  In
    every interleaving on a fresh queue, when the consumer is not in the
    middle of moving elements out, the published elements are the first
    [__prod_index - cons_ci] of the elements stored and not handed out yet,
    in the order of the pushes; once the producer has published its index,
    they are all of them. *)
Theorem available_in_push_order e c (s : system T) ins outs :
  0 <= e < 64 -> 1 <= c <= 2 ^ e ->
  history (start (initial (2 ^ e) c)) ins outs s ->
  taken_ahead (c_pc (cons s)) = 0 ->
  available (queue s)
  = firstn (Z.to_nat (dist (__prod_index (queue s)) (cons_ci (queue s))))
           (skipn (length outs) ins)
  /\ (__prod_index (queue s) = write_index s ->
      available (queue s) = skipn (length outs) ins).
Proof.
  intros He Hc Hh Hq.
  destruct (delivered_in_order_history e c s ins outs He Hc Hh)
    as (Hinv & Hr & Hcap & _ & Hlive).
  destruct (live_count s Hinv) as (Hcount & _ & _).
  destruct (chain_dists s Hinv) as (_ & E2 & _).
  pose proof (stored_ahead_bound (p_pc (prod s))) as Hsa.
  pose proof (dist_range (prod_pi (queue s)) (__prod_index (queue s))) as Hd.
  pose proof (dist_range (__prod_index (queue s)) (cons_ci (queue s))) as Hd'.
  assert (Hci : is_index (cons_ci (queue s))) by apply Hinv.
  assert (Hread : read_index s = cons_ci (queue s)).
  { unfold read_index. rewrite Hq, Z.add_0_r. apply wrap_small, Hci. }
  unfold live in Hlive. rewrite Hread in Hlive.
  rewrite Hread, Hq in Hcount.
  split.
  - rewrite <- Hlive, available_window. apply window_firstn. lia.
  - intros Hpub. rewrite <- Hlive, available_window, Hpub. reflexivity.
Qed.

End Visibility.
Section LazyPublication.

Context {T : Type} `{Element T}.

Lemma pop_back_fast_fields (q : SPSCQueue T) :
  cons_ci (snd (pop_back_fast q)) = wrap (cons_ci q + 1)
  /\ prod_pi (snd (pop_back_fast q)) = prod_pi q
  /\ queue_capacity (snd (pop_back_fast q)) = queue_capacity q
  /\ (__prod_index q = wrap (cons_ci q + 1) ->
      __cons_index (snd (pop_back_fast q)) = wrap (cons_ci q + 1))
  /\ (__prod_index q <> wrap (cons_ci q + 1) ->
      __cons_index (snd (pop_back_fast q)) = __cons_index q
      /\ prod_sem (snd (pop_back_fast q)) = prod_sem q
      /\ cons_not (snd (pop_back_fast q)) = cons_not q).
Proof.
  unfold pop_back_fast. cbn.
  destruct (elt_move _) as [v rest]. cbn [snd].
  match goal with |- context [cons_advance 1 ?q1] => set (q1' := q1) end.
  destruct (cons_advance_fields 1 q1') as (_ & Hci & _ & Hpi & _ & _ & Hcap & Hpub).
  split; [exact Hci|]. split; [exact Hpi|]. split; [exact Hcap|].
  split.
  - intros Heq. apply Hpub. exact Heq.
  - intros Hne. unfold cons_advance. cbn.
    apply Z.eqb_neq in Hne. rewrite Hne. cbn. auto.
Qed.

(** X8. The consumer publishes its index only when it has taken all that it
    saw.  A [pop_back(&item)] on a queue with published elements returns
    and advances [cons_ci] by one; if the element was the last one,
    [__cons_index] is updated; if others remain, [__cons_index],
    [prod_sem] and [cons_not] stay as they were, so that a producer that had
    no space before has none after: its [push_front] does not return. *)
Theorem pop_back_publishes_when_drained item (q : SPSCQueue T) fuel :
  is_index (__prod_index q) ->
  1 <= dist (__prod_index q) (cons_ci q) ->
  (12 <= fuel)%nat ->
  exists x q',
    pop_back fuel item q = Some (true, x, q')
    /\ cons_ci q' = wrap (cons_ci q + 1)
    /\ (dist (__prod_index q) (cons_ci q) = 1 ->
        __cons_index q' = cons_ci q')
    /\ (2 <= dist (__prod_index q) (cons_ci q) ->
        __cons_index q' = __cons_index q
        /\ prod_sem q' = prod_sem q
        /\ cons_not q' = cons_not q
        /\ fst (prod_has_space 1 q') = fst (prod_has_space 1 q)
        /\ (fst (prod_has_space 1 q) = false ->
            forall fuel' how y force,
              push_front fuel' how y force q' = None)).
Proof.
  intros Hidx Hd Hfuel.
  assert (Hdata : fst (cons_has_data 1 q) = true).
  { unfold cons_has_data. cbn. apply Z.leb_le. exact Hd. }
  destruct (pop_back_fast_fields q) as (Hci & Hpi & Hcap & Hlast & Hmore).
  exists (fst (pop_back_fast q)), (snd (pop_back_fast q)).
  split; [apply pop_back_fast_ok; assumption|].
  split; [exact Hci|]. split.
  - intros H1. rewrite Hci. apply Hlast. revert H1. wrap_lia.
  - intros H2.
    assert (Hne : __prod_index q <> wrap (cons_ci q + 1)).
    { intros Heq. revert H2. rewrite Heq. wrap_lia. }
    destruct (Hmore Hne) as (Hpub & Hsem & Hnot).
    assert (Hsame : fst (prod_has_space 1 (snd (pop_back_fast q)))
                    = fst (prod_has_space 1 q))
      by (apply prod_has_space_eq; assumption).
    repeat apply conj; trivial.
    intros Hfull fuel' how y force.
    destruct (push_front_cases fuel' how y force (snd (pop_back_fast q)))
      as [(Ht & _)|(_ & Hn)]; [congruence|exact Hn].
Qed.

End LazyPublication.

Section ConsumerWait.

Context {T : Type} `{Element T}.

(** X9. One turn of the loop of [cons_wait_data(want)] on a queue that has
    fewer than [want] published elements: the consumer checks twice, then
    sets [cons_event] to [cons_ci + want - 1], publishes [cons_ci] in
    [__cons_index] and signals the producer if and only if this crossed
    [prod_event]; then it checks again, sleeps in [cons_sem.wait()] if there
    are still no data and the semaphore is not set, and starts over when it
    is. *)
Theorem consumer_wait_protocol want kind (q : SPSCQueue T) c :
  dist (__prod_index q) (cons_ci q) < want ->
  fst (cons_has_data want q) = false
  /\ (exists n, (n <= 10)%nat
        /\ runs cons_step n q (cons_goto (C_has_data Check_first want kind) c)
                (cons_wait_publish want q)
                (cons_goto (C_has_data Check_double want kind) c))
  /\ cons_pi (cons_wait_publish want q) = __prod_index q
  /\ cons_ci (cons_wait_publish want q) = cons_ci q
  /\ cons_event (cons_wait_publish want q) = wrap (cons_ci q + want - 1)
  /\ __cons_index (cons_wait_publish want q) = cons_ci q
  /\ cons_sem (cons_wait_publish want q) = cons_sem q
  /\ (if crossed (cons_ci q) (__cons_index q) (prod_event q)
      then flag (prod_sem (cons_wait_publish want q)) = true
           /\ cons_not (cons_wait_publish want q) = wrap (cons_not q + 1)
      else prod_sem (cons_wait_publish want q) = prod_sem q
           /\ cons_not (cons_wait_publish want q) = cons_not q)
  /\ (forall q' : SPSCQueue T,
        dist (__prod_index q') (cons_ci q') < want ->
        flag (cons_sem q') = false ->
        runs cons_step 1 q' (cons_goto (C_has_data Check_double want kind) c)
             (set_cons_pi (__prod_index q') q')
             (cons_goto (C_sem_wait want kind) c)
        /\ cons_step (set_cons_pi (__prod_index q') q')
                     (cons_goto (C_sem_wait want kind) c) = None)
  /\ (forall q' : SPSCQueue T,
        flag (cons_sem q') = true ->
        cons_step q' (cons_goto (C_sem_wait want kind) c)
        = Some (set_cons_sem {| flag := false |} q',
                cons_goto (C_has_data Check_first want kind) c)).
Proof.
  intros Hd.
  assert (Hno : fst (cons_has_data want q) = false).
  { unfold cons_has_data. cbn. apply Z.leb_gt. exact Hd. }
  destruct (cons_wait_publish_fields want q) as (Hci & Hpidx & Hsem & Hpub & Hev).
  split; [exact Hno|].
  split; [apply cons_wait_publish_runs; exact Hno|].
  split; [|split; [exact Hci|split; [exact Hev|split; [exact Hpub|
          split; [exact Hsem|split; [|split]]]]]].
  - unfold cons_wait_publish, cons_notify, cons_has_data. cbn.
    destruct (crossed _ _ _); reflexivity.
  - unfold cons_wait_publish, cons_notify, cons_has_data. cbn.
    destruct (crossed _ _ _); cbn; auto.
  - intros q' Hd' Hf. split.
    + econstructor; [|constructor].
      rewrite cons_has_data_step. unfold cons_has_data. cbn.
      apply Z.leb_gt in Hd'. rewrite Hd'. reflexivity.
    + unfold cons_step, wait. cbn. rewrite Hf. reflexivity.
  - intros q' Hf. unfold cons_step, wait. cbn. rewrite Hf. reflexivity.
Qed.

End ConsumerWait.

Section SmallCapacities.

Context {T : Type} `{Element T}.

(** X10. For a capacity between 1 and 2^32 the constructor returns an empty
    queue of this capacity whose ring has the smallest power of two of
    slots that is at least the capacity, that is, fewer than twice the
    capacity.  (In this range the conversion to [double] is exact, and the
    logarithm of a capacity that is not a power of two is further than
    2^-33 from an integer, far more than the precision of [log2].) *)
Theorem constructor_rounds_up c :
  1 <= c <= 2 ^ 32 ->
  exists e,
    0 <= e <= 32
    /\ SPSCQueue_new (T := T) c = Constructed (initial (2 ^ e) c)
    /\ c <= 2 ^ e < 2 * c
    /\ (forall k, 0 <= k -> c <= 2 ^ k -> e <= k)
    /\ queue_capacity (initial (T := T) (2 ^ e) c) = c
    /\ drained (initial (T := T) (2 ^ e) c)
    /\ available (initial (T := T) (2 ^ e) c) = [].
Proof.
  intros Hc.
  destruct (SPSCQueue_new_exact (T := T) c Hc)
    as (Hnew & Hle & Hmin & _ & Hdr).
  exists (Z.log2_up c).
  assert (H0 : 0 <= Z.log2_up c) by apply Z.log2_up_nonneg.
  assert (H32 : Z.log2_up c <= 32) by (apply Hmin; lia).
  split; [lia|]. split; [exact Hnew|]. split; [split; [exact Hle|]|].
  - destruct (Z.eq_dec c 1) as [->|Hne]; [reflexivity|].
    assert (H1 : 1 < c) by lia.
    pose proof (Z.log2_up_spec c H1) as (Hlo & _).
    replace (2 ^ Z.log2_up c) with (2 * 2 ^ Z.pred (Z.log2_up c)); [lia|].
    rewrite <- Z.pow_succ_r by (pose proof (Z.log2_up_pos c H1); lia).
    f_equal. lia.
  - split; [exact Hmin|]. split; [reflexivity|]. split; [exact Hdr|].
    reflexivity.
Qed.

End SmallCapacities.
Section Progress.

Context {T : Type} `{Element T}.

Lemma cons_published_step (s : system T) e s' :
  cons_published (queue s) (c_pc (cons s)) -> step s e s' ->
  cons_published (queue s') (c_pc (cons s')).
Proof.
  intros Hp Hst.
  destruct Hst as [s how item force Hf | s q' p' Hs | s item Hf | s co Hf
                  | s q' c' Hs]; cbn [queue prod cons]; trivial.
  - destruct (prod_step_frame _ _ _ _ Hs) as (F1 & F2 & F3 & _).
    unfold cons_published in *. rewrite F1, F2, F3. exact Hp.
  - exact I.
  - exact I.
  - unfold cons_step, cons_has_data, wait in Hs.
    destruct (c_pc (cons s)) eqn:Hpc.
    all: break_step Hs; cbn in *; trivial.
    all: try (destruct k; cbn in *; auto; fail).
    right. apply Z.eqb_neq. assumption.
Qed.

Lemma cons_published_steps ring_cap c (s : system T) pushed popped :
  steps (start (initial ring_cap c)) pushed popped s ->
  cons_published (queue s) (c_pc (cons s)).
Proof.
  remember (start (initial ring_cap c)) as s0 eqn:E0.
  induction 1 as [s | s1 a b s2 e s3 Hs IH Hst].
  - subst s. cbn. left. reflexivity.
  - eapply cons_published_step; [apply IH; assumption|exact Hst].
Qed.

Lemma move_out_ring n : forall i (q : SPSCQueue T) acc,
  exists r, fst (move_out n i q acc) = set_ring r q.
Proof.
  induction n as [|n IH]; intros i q acc; cbn.
  - exists (ring q). destruct q; reflexivity.
  - destruct (elt_move _) as [v rest].
    destruct (IH (wrap (i + 1))
                 (set_ring (store (ring q)
                                  (normalize_index q (wrap (cons_ci q + i)))
                                  rest) q)
                 (acc ++ [v])) as (r & Hr).
    exists r. rewrite Hr. reflexivity.
Qed.

Lemma pop_back_vector_fast_queue container (q : SPSCQueue T) :
  exists r,
    snd (pop_back_vector_fast container q)
    = cons_advance (dist (__prod_index q) (cons_ci q))
                   (set_ring r (set_cons_pi (__prod_index q) q)).
Proof.
  unfold pop_back_vector_fast. cbn.
  destruct (move_out_ring (Z.to_nat (dist (__prod_index q) (cons_ci q))) 0
                          (set_cons_pi (__prod_index q) q) container)
    as (r & Hr).
  destruct (move_out _ _ _ _) as [q2 cont']. cbn in Hr |- *.
  exists r. now rewrite Hr.
Qed.


Lemma cons_advance_signals have (q : SPSCQueue T) :
  cons_pi q = wrap (cons_ci q + have) ->
  crossed (cons_pi q) (__cons_index q) (prod_event q) = true ->
  cons_ci (cons_advance have q) = cons_pi q
  /\ __cons_index (cons_advance have q) = cons_pi q
  /\ flag (prod_sem (cons_advance have q)) = true.
Proof.
  intros Heq Hcr. unfold cons_advance, cons_notify. cbn.
  rewrite <- Heq, Z.eqb_refl. cbn. rewrite <- ?Heq, Hcr. cbn. auto.
Qed.

(** The batch pop that finds the producer asleep. *)
Lemma batch_pop_facts ring_cap c (s : system T) pushed popped container fuel :
  1 <= c < modulus ->
  steps (start (initial ring_cap c)) pushed popped s ->
  prod_parked s ->
  cons_free (cons s) = true ->
  (Z.to_nat c + 12 <= fuel)%nat ->
  exists v q',
    pop_back_vector fuel container (queue s) = Some (true, v, q')
    /\ 1 <= dist (prod_pi (queue s)) (cons_ci (queue s)) <= c
    /\ cons_ci q' = prod_pi (queue s)
    /\ __cons_index q' = prod_pi (queue s)
    /\ flag (prod_sem q') = true
    /\ prod_pi q' = prod_pi (queue s)
    /\ queue_capacity q' = queue_capacity (queue s)
    /\ ring_capacity q' = ring_capacity (queue s).
Proof.
  intros Hc Hs Hpark Hfree Hfuel.
  destruct (producer_parked_facts _ _ _ _ _ Hc Hs Hpark)
    as (Hpub & Hd & Hev & Hpw).
  destruct (wake_invariant_reachable _ _ _ _ _ Hc Hs) as (Hinv & _).
  pose proof (cons_published_steps _ _ _ _ _ Hs) as Hcp.
  destruct (chain_dists _ Hinv) as (E1 & E2 & E3 & E4 & _).
  assert (Hx : indices_ok (queue s)) by apply Hinv.
  destruct Hx as (Hpidx & _ & _ & Hppi & Hcidx & _ & Hcci & Hcpi).
  set (q := queue s) in *.
  pose proof (dist_range (__cons_index q) (prod_ci q)).
  pose proof (dist_range (cons_ci q) (__cons_index q)).
  pose proof (dist_range (cons_pi q) (cons_ci q)).
  pose proof (dist_range (__prod_index q) (cons_pi q)).
  pose proof (dist_range (prod_pi q) (__prod_index q)).
  assert (Hq : 0 <= c / 4) by (apply Z.div_pos; lia).
  assert (Hq' : c / 4 < c) by (apply Z.div_lt_upper_bound; lia).
  assert (Hpw' : dist (prod_pi q) (prod_event q)
                 <= dist (prod_pi q) (__cons_index q)).
  { destruct Hpw as [Hpw|Hpend]; [exact Hpw|].
    unfold cons_free in Hfree.
    destruct (c_pc (cons s)); try discriminate; contradiction. }
  assert (Hidle : __cons_index q = cons_ci q \/ cons_pi q <> cons_ci q).
  { unfold cons_free in Hfree. unfold cons_published in Hcp.
    destruct (c_pc (cons s)); try discriminate; exact Hcp. }
  assert (Hdata : 1 <= dist (prod_pi q) (cons_ci q)).
  { destruct (Z_le_gt_dec 1 (dist (prod_pi q) (cons_ci q))) as [Hle|Hgt];
      [exact Hle|exfalso].
    assert (Hz : dist (cons_pi q) (cons_ci q) = 0) by lia.
    assert (Heq : cons_pi q = cons_ci q).
    { apply (dist_inj_r (cons_pi q)); trivial. rewrite Hz. wrap_lia. }
    destruct Hidle as [Hi|Hi]; [|contradiction].
    assert (dist (cons_ci q) (__cons_index q) = 0)
      by (rewrite Hi; wrap_lia).
    lia. }
  assert (Hhas : fst (cons_has_data 1 q) = true).
  { unfold cons_has_data. cbn. apply Z.leb_le. rewrite Hpub. exact Hdata. }
  destruct (pop_back_vector_fast_queue container q) as (r & Hq2).
  exists (fst (pop_back_vector_fast container q)),
         (snd (pop_back_vector_fast container q)).
  split.
  { apply pop_back_vector_fast_ok; [exact Hhas|]. rewrite Hpub. lia. }
  split; [lia|].
  rewrite Hq2, Hpub.
  destruct (cons_advance_fields (dist (prod_pi q) (cons_ci q))
              (set_ring r (set_cons_pi (prod_pi q) q)))
    as (_ & _ & _ & Fpi & _ & Frc & Fqc & _).
  cbn in Fpi, Frc, Fqc.
  assert (Hnew : wrap (cons_ci q + dist (prod_pi q) (cons_ci q)) = prod_pi q).
  { revert Hppi Hcci. wrap_lia. }
  assert (Hcr : crossed (prod_pi q) (__cons_index q) (prod_event q) = true).
  { unfold crossed. apply Z.ltb_lt.
    assert (wrap (prod_pi q - prod_event q - 1)
            = dist (prod_pi q) (prod_event q) - 1).
    { revert Hev Hq Hq' Hc. unfold dist. wrap_lia. }
    fold (dist (prod_pi q) (__cons_index q)). lia. }
  destruct (cons_advance_signals (dist (prod_pi q) (cons_ci q))
              (set_ring r (set_cons_pi (prod_pi q) q)))
    as (S1 & S2 & S3).
  { cbn. symmetry. exact Hnew. }
  { cbn. exact Hcr. }
  cbn in S1, S2. auto 10.
Qed.

(** X11. A sleeping producer is woken by the next batch pop.  In every
    interleaving on a fresh queue of capacity [c], when the producer sleeps
    in [prod_sem.wait()] and the consumer is outside a call, a
    [pop_back(&container)] run by the consumer returns, takes every element
    up to the producer index, publishes this in [__cons_index] and leaves
    [prod_sem] set. *)
Theorem batch_pop_wakes_producer ring_cap c (s : system T) pushed popped
    container fuel :
  1 <= c < modulus ->
  steps (start (initial ring_cap c)) pushed popped s ->
  prod_parked s ->
  cons_free (cons s) = true ->
  (Z.to_nat c + 12 <= fuel)%nat ->
  exists v q',
    pop_back_vector fuel container (queue s) = Some (true, v, q')
    /\ 1 <= dist (prod_pi (queue s)) (cons_ci (queue s)) <= c
    /\ cons_ci q' = prod_pi (queue s)
    /\ __cons_index q' = prod_pi (queue s)
    /\ flag (prod_sem q') = true.
Proof.
  intros Hc Hs Hpark Hfree Hfuel.
  destruct (batch_pop_facts ring_cap c s pushed popped container fuel
              Hc Hs Hpark Hfree Hfuel)
    as (v & q' & Hpop & Hd & Hci & Hcidx & Hflag & _).
  exists v, q'. auto.
Qed.

(** What is known when the consumer is asleep and the producer outside a
    call. *)
Lemma forced_push_wakes_consumer_facts ring_cap c (s : system T)
    pushed popped :
  1 <= c < modulus ->
  steps (start (initial ring_cap c)) pushed popped s ->
  cons_parked s ->
  prod_free (prod s) = true ->
  __cons_index (queue s) = cons_ci (queue s)
  /\ cons_event (queue s) = cons_ci (queue s)
  /\ __prod_index (queue s) = cons_ci (queue s)
  /\ queue_capacity (queue s) = c
  /\ is_index (prod_pi (queue s))
  /\ is_index (cons_ci (queue s)).
Proof.
  intros Hc Hs Hpark Hfree.
  destruct (consumer_parked_facts _ _ _ _ _ Hc Hs Hpark) as (Hcpub & Hcw).
  destruct (wake_invariant_reachable _ _ _ _ _ Hc Hs)
    as (Hinv & _ & Hcok & _).
  destruct (invariant_steps _ _ _ _ (invariant_start ring_cap c Hc) Hs)
    as (_ & _ & Hcap & _).
  cbn in Hcap.
  destruct Hpark as ((want & kind & Hpc) & _).
  rewrite Hpc in Hcok. cbn in Hcok. destruct Hcok as (Harm & _).
  unfold cons_armed in Harm.
  assert (Hx : indices_ok (queue s)) by apply Hinv.
  destruct Hx as (Hpidx & _ & _ & Hppi & Hcidx & _ & Hcci & Hcpi).
  assert (Hn : __prod_index (queue s) = cons_ci (queue s)).
  { destruct Hcw as [Hn|Hpend]; [exact Hn|].
    unfold prod_free in Hfree.
    destruct (p_pc (prod s)); try discriminate; contradiction. }
  auto 10.
Qed.

(** X12. A sleeping consumer is woken by the next forced push.  In every
    interleaving on a fresh queue, when the consumer sleeps in
    [cons_sem.wait()] and the producer is outside a call: a
    [push_front(item, true)] that finds space returns and leaves [cons_sem]
    set; and a [push_front] that finds none (the queue is full of elements
    pushed with [force = false]) publishes them in its [prod_wait_space] and
    leaves [cons_sem] set when it comes to its second check. *)
Theorem forced_push_wakes_consumer ring_cap c (s : system T) pushed popped
    how x :
  1 <= c < modulus ->
  steps (start (initial ring_cap c)) pushed popped s ->
  cons_parked s ->
  prod_free (prod s) = true ->
  (fst (prod_has_space 1 (queue s)) = true ->
   forall fuel, (11 <= fuel)%nat ->
     exists q', push_front fuel how x true (queue s) = Some (true, q')
                /\ __prod_index q' = wrap (prod_pi (queue s) + 1)
                /\ flag (cons_sem q') = true)
  /\ (fst (prod_has_space 1 (queue s)) = false ->
      forall force,
        (exists n, (n <= 8)%nat
           /\ runs prod_step n (queue s) (push_front_call how x force)
                   (prod_wait_publish 1 (queue s))
                   (prod_goto (P_has_space 1 true)
                              (push_front_call how x force)))
        /\ __prod_index (prod_wait_publish 1 (queue s)) = prod_pi (queue s)
        /\ flag (cons_sem (prod_wait_publish 1 (queue s))) = true).
Proof.
  intros Hc Hs Hpark Hfree.
  destruct (consumer_parked_facts _ _ _ _ _ Hc Hs Hpark) as (Hcpub & Hcw).
  destruct (wake_invariant_reachable _ _ _ _ _ Hc Hs)
    as (Hinv & _ & Hcok & _).
  destruct (invariant_steps _ _ _ _ (invariant_start ring_cap c Hc) Hs)
    as (_ & _ & Hcap & _).
  cbn in Hcap.
  destruct Hpark as ((want & kind & Hpc) & _).
  rewrite Hpc in Hcok. cbn in Hcok. destruct Hcok as (Harm & _).
  unfold cons_armed in Harm.
  assert (Hx : indices_ok (queue s)) by apply Hinv.
  destruct Hx as (Hpidx & _ & _ & Hppi & Hcidx & _ & Hcci & Hcpi).
  assert (Hn : __prod_index (queue s) = cons_ci (queue s)).
  { destruct Hcw as [Hn|Hpend]; [exact Hn|].
    unfold prod_free in Hfree.
    destruct (p_pc (prod s)); try discriminate; contradiction. }
  destruct s as [q p co]. cbn [queue prod cons] in *.
  split.
  - intros Hsp fuel Hfuel.
    exists (push_front_fast how x true q).
    split; [apply push_front_fast_ok; assumption|].
    destruct (push_front_fast_fields how x q) as (_ & Hpi & _).
    split; [exact Hpi|].
    assert (Hne : wrap (prod_pi q + 1) <> cons_ci q).
    { unfold prod_has_space in Hsp. cbn in Hsp. apply Z.leb_le in Hsp.
      rewrite Hcpub, Hcap in Hsp.
      rewrite (wrap_small (c - 1)) in Hsp by (unwrap; lia).
      intros Heq.
      assert (dist (wrap (prod_pi q + 1)) (cons_ci q)
              = dist (prod_pi q) (cons_ci q) + 1)
        by (apply dist_add_l; lia).
      rewrite Heq in *.
      assert (dist (cons_ci q) (cons_ci q) = 0) by wrap_lia.
      pose proof (dist_range (prod_pi q) (cons_ci q)). lia. }
    assert (Hcr : crossed (wrap (prod_pi q + 1)) (cons_ci q) (cons_ci q)
                  = true).
    { apply crossed_self; trivial. unwrap.
      apply Z.mod_pos_bound. lia. }
    unfold push_front_fast, prod_notify. cbn.
    rewrite Hn, Harm, Hcr. reflexivity.
  - intros Hsp force.
    pose proof (prod_has_space_full q p co Hinv Hsp) as Hfull.
    destruct (prod_wait_publish_fields 1 q) as (_ & _ & _ & _ & Hpi & _).
    split; [apply (prod_wait_publish_runs 1 q (push_front_call how x force));
            exact Hsp|].
    split; [exact Hpi|].
    assert (Hne : prod_pi q <> cons_ci q).
    { intros Heq. rewrite Hcpub, Heq, Hcap in Hfull.
      assert (dist (cons_ci q) (cons_ci q) = 0) by wrap_lia. lia. }
    assert (Hcr : crossed (prod_pi q) (cons_ci q) (cons_ci q) = true)
      by (apply crossed_self; trivial).
    unfold prod_wait_publish, prod_notify, prod_has_space. cbn.
    rewrite Hn, Harm, Hcr. reflexivity.
Qed.

End Progress.
Section DeferredBatch.

Context {T : Type} `{Element T}.

Lemma push_front_fast_state how (x : T) force (q : SPSCQueue T) :
  ring (push_front_fast how x force q)
  = store (ring q) (normalize_index q (prod_pi q)) (elt_forward how x)
  /\ prod_pi (push_front_fast how x force q) = wrap (prod_pi q + 1)
  /\ __prod_index (push_front_fast how x force q)
     = (if force then wrap (prod_pi q + 1) else __prod_index q)
  /\ cons_ci (push_front_fast how x force q) = cons_ci q
  /\ __cons_index (push_front_fast how x force q) = __cons_index q
  /\ ring_capacity (push_front_fast how x force q) = ring_capacity q
  /\ queue_capacity (push_front_fast how x force q) = queue_capacity q.
Proof.
  unfold push_front_fast. destruct force.
  - match goal with |- context [prod_notify ?x] => set (q3 := x) end.
    destruct (prod_notify_fields q3)
      as (Fr & Fpi & Fppi & _ & _ & _ & Fci & _ & Fcidx & _ & _ & Frc & Fqc).
    rewrite Fr, Fpi, Fppi, Fci, Fcidx, Frc, Fqc. cbn. auto 10.
  - cbn. auto 10.
Qed.

Lemma push_front_fast_stored how (x : T) force (q : SPSCQueue T) e :
  ring_sized q e ->
  is_index (prod_pi q) -> is_index (cons_ci q) ->
  dist (prod_pi q) (cons_ci q) < 2 ^ e ->
  stored (push_front_fast how x force q) = stored q ++ [elt_forward how x].
Proof.
  intros Hs Hp Hc Hlt.
  destruct (push_front_fast_state how x force q)
    as (Fr & Fpi & _ & Fci & _ & Frc & _).
  pose proof (pow2_range e (proj1 Hs)) as Hpow.
  unfold stored. rewrite Fpi, Fci.
  set (n := dist (prod_pi q) (cons_ci q)) in *.
  assert (Hn : 0 <= n) by (subst n; wrap_lia).
  replace (dist (wrap (prod_pi q + 1)) (cons_ci q)) with (n + 1)
    by (subst n; wrap_lia).
  rewrite Z2Nat.inj_add by lia. change (Z.to_nat 1) with 1%nat.
  rewrite Nat.add_1_r, slots_from_S. f_equal.
  - apply slots_from_ext; [assumption|assumption|].
    intros i Hi. rewrite Fr. unfold store.
    destruct (Z.eqb_spec (normalize_index q (wrap (cons_ci q + i)))
                         (normalize_index q (prod_pi q))) as [E|E];
      [|reflexivity].
    exfalso. revert E.
    replace (prod_pi q) with (wrap (cons_ci q + n)) by (subst n; wrap_lia).
    apply (normalize_index_distinct q e); [assumption|lia|lia].
  - f_equal. rewrite Fr, Fci. unfold store, normalize_index.
    rewrite Frc.
    rewrite Z2Nat.id by lia.
    replace (wrap (cons_ci q + n)) with (prod_pi q) by (subst n; wrap_lia).
    now rewrite Z.eqb_refl.
Qed.

Lemma push_all_stored e fuel how force (xs : list T) :
  forall q : SPSCQueue T,
  ring_sized q e -> queue_capacity q < modulus ->
  is_index (prod_pi q) -> is_index (cons_ci q) ->
  dist (prod_pi q) (__cons_index q) + Z.of_nat (length xs)
  <= queue_capacity q ->
  dist (prod_pi q) (cons_ci q) + Z.of_nat (length xs) <= 2 ^ e ->
  (11 <= fuel)%nat ->
  exists q',
    push_all fuel how xs force q = Some (repeat true (length xs), q')
    /\ stored q' = stored q ++ map (elt_forward how) xs
    /\ prod_pi q' = wrap (prod_pi q + Z.of_nat (length xs))
    /\ (force = false -> __prod_index q' = __prod_index q)
    /\ cons_ci q' = cons_ci q
    /\ __cons_index q' = __cons_index q
    /\ ring_capacity q' = ring_capacity q
    /\ queue_capacity q' = queue_capacity q.
Proof.
  induction xs as [|x xs IH]; intros q Hs Hcap Hp Hc Hroom Hring Hfuel.
  - exists q. cbn. rewrite app_nil_r, Z.add_0_r, (wrap_small _ Hp).
    repeat split; trivial.
  - cbn [push_all length map repeat]. cbn [length] in Hroom, Hring.
    pose proof (dist_range (prod_pi q) (__cons_index q)) as Hd1.
    pose proof (dist_range (prod_pi q) (cons_ci q)) as Hd2.
    assert (Hspace : fst (prod_has_space 1 q) = true).
    { unfold prod_has_space. cbn. apply Z.leb_le.
      rewrite (wrap_small (queue_capacity q - 1)) by (unwrap; lia). lia. }
    rewrite (push_front_fast_ok how x force q fuel Hspace Hfuel).
    destruct (push_front_fast_state how x force q)
      as (_ & F1 & F2 & F3 & F4 & F5 & F6).
    pose proof (push_front_fast_stored how x force q e Hs Hp Hc
                  ltac:(lia)) as Hav.
    set (q1 := push_front_fast how x force q) in *.
    pose proof (pow2_range e (proj1 Hs)) as Hpow.
    destruct (IH q1) as (q' & Hq' & Av & G1 & G2 & G3 & G4 & G5 & G6).
    + destruct Hs as [He Hr]. split; [assumption|]. now rewrite F5.
    + now rewrite F6.
    + rewrite F1. apply wrap_range.
    + now rewrite F3.
    + rewrite F1, F4, F6.
      rewrite dist_add_l by lia. lia.
    + rewrite F1, F3.
      rewrite dist_add_l by (unwrap; lia). lia.
    + assumption.
    + exists q'. rewrite Hq'. split; [reflexivity|].
      split. { rewrite Av, Hav, <- app_assoc. reflexivity. }
      split. { rewrite G1, F1. wrap_lia. }
      split. { intros ->. rewrite G2 by reflexivity. exact F2. }
      repeat split; congruence.
Qed.


(** X13. Pushes with [force = false] are delivered with the next forced
    push.  On an empty queue with room for them, [push_front(x, false)] for
    each [x] of [xs] returns [true] and leaves nothing for the consumer to
    take: a [pop_back] would not return.  A following [push_front(y, true)]
    makes all of [xs] and [y] available in the order of the pushes, and a
    single [pop_back(&container)] appends them all to the container. *)
Theorem deferred_pushes_delivered_at_once e fuel how (xs : list T) y
    container (q : SPSCQueue T) :
  ring_sized q e ->
  drained q ->
  queue_capacity q < modulus ->
  Z.of_nat (length xs) + 1 <= queue_capacity q ->
  Z.of_nat (length xs) + 1 <= ring_capacity q ->
  (length xs + 13 <= fuel)%nat ->
  exists q1 q2 q3,
    push_all fuel how xs false q = Some (repeat true (length xs), q1)
    /\ available q1 = []
    /\ (forall fuel' item, pop_back fuel' item q1 = None)
    /\ push_front fuel how y true q1 = Some (true, q2)
    /\ available q2 = map (elt_forward how) (xs ++ [y])
    /\ pop_back_vector fuel container q2
       = Some (true,
               container ++ map received (map (elt_forward how) (xs ++ [y])),
               q3)
    /\ available q3 = [].
Proof.
  intros Hs (Hp & Hpub & Hci & Hcidx) Hcap Hroom Hring Hfuel.
  pose proof (pow2_range e (proj1 Hs)) as Hpow.
  assert (Hrc : ring_capacity q = 2 ^ e) by apply Hs.
  assert (Hself : dist (prod_pi q) (prod_pi q) = 0) by wrap_lia.
  set (n := Z.of_nat (length xs)) in *.
  assert (Hn : 0 <= n) by (subst n; lia).
  destruct (push_all_stored e fuel how false xs q) as
    (q1 & Hq1 & Hst1 & G1 & G2 & G3 & G4 & G5 & G6); trivial.
  { rewrite Hci. exact Hp. }
  { rewrite Hcidx, Hself. fold n. lia. }
  { rewrite Hci, Hself. fold n. lia. }
  { lia. }
  fold n in G1. specialize (G2 eq_refl).
  assert (Hs1 : ring_sized q1 e).
  { destruct Hs as [He Hr]. split; [assumption|]. now rewrite G5. }
  assert (Hd1 : dist (prod_pi q1) (cons_ci q1) = n).
  { rewrite G1, G3, Hci. rewrite dist_add_l; rewrite ?Hself; unwrap; lia. }
  assert (Hd1' : dist (prod_pi q1) (__cons_index q1) = n).
  { rewrite G4, Hcidx, <- Hci, <- G3. exact Hd1. }
  assert (Hp1 : is_index (prod_pi q1)) by (rewrite G1; apply wrap_range).
  assert (Hc1 : is_index (cons_ci q1)) by (rewrite G3, Hci; exact Hp).
  assert (Hempty : dist (__prod_index q1) (cons_ci q1) = 0).
  { rewrite G2, G3, Hpub, Hci. exact Hself. }
  assert (Hstored1 : stored q1 = map (elt_forward how) xs).
  { rewrite Hst1. unfold stored. rewrite Hci, Hself. reflexivity. }
  assert (Hspace : fst (prod_has_space 1 q1) = true).
  { unfold prod_has_space. cbn. apply Z.leb_le. rewrite Hd1', G6.
    rewrite (wrap_small (queue_capacity q - 1)) by (unwrap; lia). lia. }
  destruct (push_front_fast_state how y true q1)
    as (_ & F1 & F2 & F3 & F4 & F5 & F6).
  pose proof (push_front_fast_stored how y true q1 e Hs1 Hp1 Hc1
                ltac:(lia)) as Hst2.
  set (q2 := push_front_fast how y true q1) in *.
  assert (Hs2 : ring_sized q2 e).
  { destruct Hs1 as [He Hr]. split; [assumption|]. now rewrite F5. }
  assert (Hav2 : available q2 = map (elt_forward how) (xs ++ [y])).
  { unfold available. rewrite F2, <- F1. fold (stored q2).
    rewrite Hst2, Hstored1, map_app. reflexivity. }
  assert (Hd2 : dist (__prod_index q2) (cons_ci q2) = n + 1).
  { rewrite F2, F3. rewrite dist_add_l; unwrap; lia. }
  destruct (pop_back_vector_spec container q2 e fuel) as (Hpop & Hav3 & _);
    trivial.
  { now rewrite F3. }
  { rewrite F2. apply wrap_range. }
  { rewrite Hd2, F5, G5. lia. }
  { rewrite Hd2. subst n. lia. }
  exists q1, q2, (snd (pop_back_vector_fast container q2)).
  split; [exact Hq1|].
  split. { unfold available. rewrite Hempty. reflexivity. }
  split.
  { intros fuel' item.
    destruct (pop_back_cases fuel' item q1) as [(Ht & _)|(_ & Hnone)];
      [|exact Hnone].
    unfold cons_has_data in Ht. cbn in Ht. apply Z.leb_le in Ht. lia. }
  split. { apply push_front_fast_ok; [exact Hspace|lia]. }
  split; [exact Hav2|].
  split; [rewrite Hpop, Hav2; reflexivity|exact Hav3].
Qed.

End DeferredBatch.
Section RingOrder.

Context {T : Type} `{Element T}.

(** X14. The slots are used in cyclic order, also when the 64-bit counter
    wraps around: in a ring of [2^e] slots, [normalize_index] of the next
    counter is the next position modulo [ring_capacity], it stays inside
    the array, and counters that are [ring_capacity] apart share a slot. *)
Theorem normalize_index_cyclic (q : SPSCQueue T) e index :
  ring_sized q e ->
  is_index index ->
  0 <= normalize_index q index < ring_capacity q
  /\ normalize_index q (wrap (index + 1))
     = (normalize_index q index + 1) mod ring_capacity q
  /\ normalize_index q (wrap (index + ring_capacity q))
     = normalize_index q index.
Proof.
  intros Hs Hi.
  pose proof (pow2_range e (proj1 Hs)) as Hpow.
  assert (Hrc : ring_capacity q = 2 ^ e) by apply Hs.
  assert (H0 : 0 <= index) by apply Hi.
  split; [apply (normalize_index_range q e); assumption|].
  rewrite !(normalize_index_mod q e) by (trivial; apply wrap_range).
  rewrite !wrap_mod_pow2 by apply Hs. rewrite Hrc. split.
  - now rewrite Z.add_mod_idemp_l by lia.
  - rewrite <- Z.add_mod_idemp_r by lia.
    rewrite Z.mod_same by lia. now rewrite Z.add_0_r.
Qed.

End RingOrder.
Section Confinement.

Context {T : Type} `{Element T}.

(** X15. The members that are not atomic belong to one thread each.  No
    step of the producer reads or writes [cons_ci] or [cons_pi]: with other
    values in them it takes the same step and leaves them as they are; and
    no step of the consumer reads or writes [prod_ci] or [prod_pi]. *)
Theorem private_indices_confined (q : SPSCQueue T) :
  (forall p v w,
     prod_step (set_cons_ci v (set_cons_pi w q)) p
     = match prod_step q p with
       | Some (q', p') => Some (set_cons_ci v (set_cons_pi w q'), p')
       | None => None
       end)
  /\ (forall p q' p',
        prod_step q p = Some (q', p') ->
        cons_ci q' = cons_ci q /\ cons_pi q' = cons_pi q)
  /\ (forall c v w,
        cons_step (set_prod_ci v (set_prod_pi w q)) c
        = match cons_step q c with
          | Some (q', c') => Some (set_prod_ci v (set_prod_pi w q'), c')
          | None => None
          end)
  /\ (forall c q' c',
        cons_step q c = Some (q', c') ->
        prod_ci q' = prod_ci q /\ prod_pi q' = prod_pi q).
Proof.
  split; [|split; [|split]].
  - intros p v w. unfold prod_step, prod_has_space, wait.
    destruct (p_pc p); cbn; try reflexivity.
    + destruct (_ <=? _); [reflexivity|]. destruct again; reflexivity.
    + destruct (crossed _ _ _); reflexivity.
    + destruct (flag _); reflexivity.
    + destruct (p_force p); reflexivity.
  - intros p q' p' Hs.
    destruct (prod_step_frame _ _ _ _ Hs) as (F1 & F2 & _). auto.
  - intros c v w. unfold cons_step, cons_has_data, wait.
    destruct (c_pc c); cbn; try reflexivity.
    + destruct (_ <=? _); [reflexivity|]. destruct c0; reflexivity.
    + destruct (crossed _ _ _); reflexivity.
    + destruct (flag _); reflexivity.
    + destruct kind; reflexivity.
    + destruct (elt_move _); reflexivity.
    + destruct (_ <? _); [|reflexivity]. destruct (elt_move _); reflexivity.
    + destruct (_ =? _); reflexivity.
  - intros c q' c' Hs.
    destruct (cons_step_frame _ _ _ _ Hs) as (F1 & F2 & _). auto.
Qed.

End Confinement.
Section Resume.

Context {T : Type} `{Element T}.

(** A producer that sleeps in [prod_wait_space(1)] on a queue whose
    semaphore is set and whose published consumer index leaves space
    finishes its [push_front]. *)
Lemma woken_push_runs (q : SPSCQueue T) p :
  p_pc p = P_sem_wait 1 ->
  flag (prod_sem q) = true ->
  dist (prod_pi q) (__cons_index q) <= wrap (queue_capacity q - 1) ->
  exists n, (n <= 13)%nat
    /\ runs prod_step n q p
            (push_front_fast (p_how p) (p_item p) (p_force p)
               (set_prod_ci (__cons_index q)
                  (set_prod_sem {| flag := false |} q)))
            (prod_goto (P_return true) p).
Proof.
  intros Hpc Hflag Hroom.
  set (q2 := set_prod_ci (__cons_index q)
               (set_prod_sem {| flag := false |} q)).
  assert (Hsp : fst (prod_has_space 1 q2) = true).
  { unfold prod_has_space. cbn. apply Z.leb_le. exact Hroom. }
  destruct (push_front_fast_runs (p_how p) (p_item p) (p_force p) q2 Hsp)
    as (n & Hn & R).
  exists (1 + (1 + n))%nat. split; [lia|].
  eapply runs_app; [|eapply runs_app; [|exact R]].
  - econstructor; [|constructor].
    unfold prod_step, wait. rewrite Hpc, Hflag. reflexivity.
  - econstructor; [|constructor]. reflexivity.
Qed.

(** A push asleep on a full queue, and the batch pop that lets it go on. *)
Lemma parked_push_resumes ring_cap c (s : system T) pushed popped
    container fuel :
  1 <= c < modulus ->
  steps (start (initial ring_cap c)) pushed popped s ->
  prod_parked s ->
  cons_free (cons s) = true ->
  (Z.to_nat c + 13 <= fuel)%nat ->
  exists v q' q'' p'',
    pop_back_vector fuel container (queue s) = Some (true, v, q')
    /\ run_prod fuel q' (prod s) = Some (q'', p'')
    /\ p_pc p'' = P_return true
    /\ prod_pi q'' = wrap (prod_pi (queue s) + 1)
    /\ ring q'' (normalize_index (queue s) (prod_pi (queue s)))
       = elt_forward (p_how (prod s)) (p_item (prod s)).
Proof.
  intros Hc Hs Hpark Hfree Hfuel.
  destruct (batch_pop_facts ring_cap c s pushed popped container fuel
              Hc Hs Hpark Hfree ltac:(lia))
    as (v & q' & Hpop & _ & Hci & Hcidx & Hflag & Hpi & Hcap & Hrc).
  destruct (wake_invariant_reachable _ _ _ _ _ Hc Hs) as (Hinv & _).
  destruct (invariant_steps _ _ _ _ (invariant_start ring_cap c Hc) Hs)
    as (_ & _ & Hqc & _).
  cbn in Hqc.
  assert (Hpok : prod_pc_ok (p_pc (prod s))) by apply Hinv.
  destruct Hpark as ((want & Hpc) & _).
  rewrite Hpc in Hpok. cbn in Hpok. subst want.
  assert (Hroom : dist (prod_pi q') (__cons_index q')
                  <= wrap (queue_capacity q' - 1)).
  { rewrite Hpi, Hcidx, Hcap, Hqc.
    replace (dist _ _) with 0 by wrap_lia.
    rewrite wrap_small by (unwrap; lia). lia. }
  destruct (woken_push_runs q' (prod s) Hpc Hflag Hroom) as (n & Hn & R).
  exists v, q'. do 2 eexists. split; [exact Hpop|].
  split.
  { apply (run_complete _ _ prod_free_stuck _ _ _ _ _ R eq_refl fuel). lia. }
  split; [reflexivity|].
  destruct (push_front_fast_state (p_how (prod s)) (p_item (prod s))
              (p_force (prod s))
              (set_prod_ci (__cons_index q')
                 (set_prod_sem {| flag := false |} q')))
    as (Fr & Fpi & _).
  split.
  - rewrite Fpi. cbn. now rewrite Hpi.
  - rewrite Fr. cbn. unfold store, normalize_index. cbn.
    rewrite Hpi, Hrc. now rewrite Z.eqb_refl.
Qed.

(** X16. A push that went to sleep on a full queue returns once the
    consumer has taken a batch.  In every interleaving on a fresh queue of
    capacity [c], when the producer sleeps in [prod_sem.wait()] and the
    consumer is outside a call: after a [pop_back(&container)] of the
    consumer, the producer, running alone, wakes up, finds space, stores its
    element and returns [true] from [push_front]. *)
Theorem blocked_push_completes ring_cap c (s : system T) pushed popped
    container fuel :
  1 <= c < modulus ->
  steps (start (initial ring_cap c)) pushed popped s ->
  prod_parked s ->
  cons_free (cons s) = true ->
  (Z.to_nat c + 13 <= fuel)%nat ->
  exists v q' q'' p'',
    pop_back_vector fuel container (queue s) = Some (true, v, q')
    /\ run_prod fuel q' (prod s) = Some (q'', p'')
    /\ p_pc p'' = P_return true
    /\ prod_pi q'' = wrap (prod_pi (queue s) + 1)
    /\ ring q'' (normalize_index (queue s) (prod_pi (queue s)))
       = elt_forward (p_how (prod s)) (p_item (prod s)).
Proof. apply parked_push_resumes. Qed.

End Resume.
Section ResumePop.

Context {T : Type} `{Element T}.

Lemma runs_tail {Q L : Type} (next : Q -> L -> option (Q * L)) n q l q1 l1
    q2 l2 :
  runs next (S n) q l q2 l2 -> next q l = Some (q1, l1) ->
  runs next n q1 l1 q2 l2.
Proof.
  intros R Hn. inversion R; subst.
  match goal with
  | E : next q l = Some _ |- _ => rewrite Hn in E; inversion E; subst
  end.
  assumption.
Qed.

Lemma runs_succ {Q L : Type} (next : Q -> L -> option (Q * L)) n q l q2 l2 :
  runs next n q l q2 l2 -> l <> l2 -> exists m, n = S m.
Proof. intros R Hne. destruct R; [contradiction|eauto]. Qed.

(** The rest of a pop whose first check in [cons_wait_data(1)] finds data:
    the consumer does not sleep and returns [true]. *)
Lemma pop_from_first_check (q : SPSCQueue T) c kind :
  c_pc c = C_has_data Check_first 1 kind ->
  is_index (__prod_index q) ->
  fst (cons_has_data 1 q) = true ->
  exists n q' c',
    (n <= Z.to_nat (dist (__prod_index q) (cons_ci q)) + 12)%nat
    /\ runs cons_step n q c q' c'
    /\ c_pc c' = C_return true
    /\ cons_sem q' = cons_sem q
    /\ cons_ci q'
       = match kind with
         | Pop_item => wrap (cons_ci q + 1)
         | Pop_vector => __prod_index q
         end.
Proof.
  intros Hpc Hidx Hdata.
  assert (Hd : 1 <= dist (__prod_index q) (cons_ci q)).
  { unfold cons_has_data in Hdata. cbn in Hdata. now apply Z.leb_le. }
  destruct kind.
  - destruct (pop_back_fast_runs (c_item c) c q Hdata) as (n & Hn & R).
    destruct (runs_succ _ _ _ _ _ _ R ltac:(discriminate)) as (m & ->).
    assert (Hc : cons_goto (C_has_data Check_first 1 Pop_item)
                           (pop_back_item_call (c_item c) c) = c).
    { destruct c; cbn in *. now subst. }
    pose proof (runs_tail _ _ _ _ _ _ _ _ R eq_refl) as R'.
    rewrite Hc in R'.
    exists m. do 2 eexists. split; [lia|]. split; [exact R'|].
    split; [reflexivity|].
    destruct (pop_back_fast_fields q) as (Hci & _).
    split; [|exact Hci].
    unfold pop_back_fast. cbn. destruct (elt_move _) as [v rest]. cbn.
    unfold cons_advance, cons_notify. cbn.
    destruct (_ =? _); [destruct (crossed _ _ _)|]; reflexivity.
  - destruct (pop_back_vector_fast_runs (c_container c) c q Hdata)
      as (n & Hn & R).
    destruct (runs_succ _ _ _ _ _ _ R ltac:(discriminate)) as (m & ->).
    assert (Hc : cons_goto (C_has_data Check_first 1 Pop_vector)
                           (pop_back_vector_call (c_container c) c) = c).
    { destruct c; cbn in *. now subst. }
    pose proof (runs_tail _ _ _ _ _ _ _ _ R eq_refl) as R'.
    rewrite Hc in R'.
    exists m. do 2 eexists. split; [lia|]. split; [exact R'|].
    split; [reflexivity|].
    destruct (pop_back_vector_fast_queue (c_container c) q) as (r & ->).
    set (num := dist (__prod_index q) (cons_ci q)) in *.
    destruct (cons_advance_fields num
                (set_ring r (set_cons_pi (__prod_index q) q)))
      as (_ & Hci & _).
    split.
    + unfold cons_advance, cons_notify. cbn.
      destruct (_ =? _); [destruct (crossed _ _ _)|]; reflexivity.
    + rewrite Hci. cbn. subst num. revert Hidx. wrap_lia.
Qed.

(** The forced push that finds the consumer asleep, and space. *)
Lemma forced_push_facts ring_cap c (s : system T) pushed popped how x :
  1 <= c < modulus ->
  steps (start (initial ring_cap c)) pushed popped s ->
  cons_parked s ->
  prod_free (prod s) = true ->
  fst (prod_has_space 1 (queue s)) = true ->
  flag (cons_sem (push_front_fast how x true (queue s))) = true
  /\ __prod_index (push_front_fast how x true (queue s))
     = wrap (prod_pi (queue s) + 1)
  /\ cons_ci (push_front_fast how x true (queue s)) = cons_ci (queue s)
  /\ dist (prod_pi (queue s)) (cons_ci (queue s)) <= c - 1
  /\ is_index (cons_ci (queue s)).
Proof.
  intros Hc Hs Hpark Hfree Hsp.
  destruct (forced_push_wakes_consumer_facts ring_cap c s pushed popped
              Hc Hs Hpark Hfree) as (Hcpub & Harm & Hn & Hcap & Hppi & Hcci).
  destruct (push_front_fast_state how x true (queue s))
    as (_ & _ & Fpub & Fci & _).
  set (q := queue s) in *.
  assert (Hle : dist (prod_pi q) (cons_ci q) <= c - 1).
  { unfold prod_has_space in Hsp. cbn in Hsp. apply Z.leb_le in Hsp.
    rewrite Hcpub, Hcap in Hsp.
    now rewrite (wrap_small (c - 1)) in Hsp by (unwrap; lia). }
  assert (Hne : wrap (prod_pi q + 1) <> cons_ci q).
  { intros Heq.
    assert (dist (wrap (prod_pi q + 1)) (cons_ci q)
            = dist (prod_pi q) (cons_ci q) + 1)
      by (apply dist_add_l; lia).
    rewrite Heq in *.
    assert (dist (cons_ci q) (cons_ci q) = 0) by wrap_lia.
    pose proof (dist_range (prod_pi q) (cons_ci q)). lia. }
  assert (Hcr : crossed (wrap (prod_pi q + 1)) (cons_ci q) (cons_ci q)
                = true)
    by (apply crossed_self; trivial; apply wrap_range).
  split; [|auto].
  unfold push_front_fast, prod_notify. cbn.
  rewrite Hn, Harm, Hcr. reflexivity.
Qed.

(** A pop asleep on an empty queue, and the forced push that lets it go
    on. *)
Lemma parked_pop_resumes ring_cap c (s : system T) pushed popped
    how x fuel :
  1 <= c < modulus ->
  steps (start (initial ring_cap c)) pushed popped s ->
  cons_parked s ->
  prod_free (prod s) = true ->
  fst (prod_has_space 1 (queue s)) = true ->
  (Z.to_nat c + 14 <= fuel)%nat ->
  exists q' q'' c'',
    push_front fuel how x true (queue s) = Some (true, q')
    /\ run_cons fuel q' (cons s) = Some (q'', c'')
    /\ c_pc c'' = C_return true
    /\ 1 <= dist (cons_ci q'') (cons_ci (queue s)) <= c.
Proof.
  intros Hc Hs Hpark Hfree Hsp Hfuel.
  destruct (forced_push_facts ring_cap c s pushed popped how x
              Hc Hs Hpark Hfree Hsp) as (Hflag & Hpub & Hci & Hle & Hcci).
  destruct (wake_invariant_reachable _ _ _ _ _ Hc Hs) as (Hinv & _).
  assert (Hcok : cons_pc_ok (queue s) (c_pc (cons s))) by apply Hinv.
  destruct Hpark as ((want & kind & Hpc) & _).
  rewrite Hpc in Hcok. cbn in Hcok. subst want.
  set (q := queue s) in *.
  set (q' := push_front_fast how x true q) in *.
  set (q1 := set_cons_sem {| flag := false |} q').
  set (c1 := cons_goto (C_has_data Check_first 1 kind) (cons s)).
  pose proof (dist_range (prod_pi q) (cons_ci q)) as Hr.
  assert (Hd : dist (__prod_index q') (cons_ci q')
               = dist (prod_pi q) (cons_ci q) + 1).
  { rewrite Hpub, Hci. apply dist_add_l; lia. }
  assert (Hdata : fst (cons_has_data 1 q1) = true).
  { change (fst (cons_has_data 1 q1))
      with (1 <=? dist (__prod_index q') (cons_ci q')).
    apply Z.leb_le. lia. }
  assert (Hidx : is_index (__prod_index q1)).
  { change (__prod_index q1) with (__prod_index q').
    rewrite Hpub. apply wrap_range. }
  destruct (pop_from_first_check q1 c1 kind eq_refl Hidx Hdata)
    as (n & q'' & c'' & Hn & R & Hret & _ & Hci'').
  change (__prod_index q1) with (__prod_index q') in Hn, Hci''.
  change (cons_ci q1) with (cons_ci q') in Hn, Hci''.
  exists q', q'', c''.
  split; [apply push_front_fast_ok; [exact Hsp|lia]|].
  split.
  { apply (run_complete _ _ cons_free_stuck (S n) q' (cons s) q'' c'').
    - econstructor; [|exact R].
      unfold cons_step, wait. rewrite Hpc, Hflag. reflexivity.
    - unfold cons_free. rewrite Hret. reflexivity.
    - rewrite Hd in Hn. lia. }
  split; [exact Hret|].
  rewrite Hci''. destruct kind.
  - rewrite Hci. replace (dist _ _) with 1 by (revert Hcci; wrap_lia). lia.
  - rewrite Hpub.
    replace (dist (wrap (prod_pi q + 1)) (cons_ci q))
      with (dist (prod_pi q) (cons_ci q) + 1)
      by (symmetry; apply dist_add_l; lia).
    lia.
Qed.

(** X17. A pop that went to sleep on an empty queue returns once the
    producer has pushed.  In every interleaving on a fresh queue of capacity
    [c], when the consumer sleeps in [cons_sem.wait()] and the producer is
    outside a call and has space: after a [push_front(x, true)] of the
    producer, the consumer, running alone, wakes up, finds data and returns
    [true] from its [pop_back], having taken at least one element. *)
Theorem blocked_pop_completes ring_cap c (s : system T) pushed popped
    how x fuel :
  1 <= c < modulus ->
  steps (start (initial ring_cap c)) pushed popped s ->
  cons_parked s ->
  prod_free (prod s) = true ->
  fst (prod_has_space 1 (queue s)) = true ->
  (Z.to_nat c + 14 <= fuel)%nat ->
  exists q' q'' c'',
    push_front fuel how x true (queue s) = Some (true, q')
    /\ run_cons fuel q' (cons s) = Some (q'', c'')
    /\ c_pc c'' = C_return true
    /\ 1 <= dist (cons_ci q'') (cons_ci (queue s)) <= c.
Proof. apply parked_pop_resumes. Qed.

End ResumePop.
Section NeverFailBlocking.

Context {T : Type} `{Element T}.

(** The two threads are never both asleep. *)
Lemma never_both_parked ring_cap c (s : system T) pushed popped :
  1 <= c < modulus ->
  steps (start (initial ring_cap c)) pushed popped s ->
  ~ (prod_parked s /\ cons_parked s).
Proof.
  intros Hc Hs (Hpp & Hcp).
  destruct (producer_parked_facts ring_cap c s pushed popped Hc Hs Hpp)
    as (Hpub & Hd & Hev & Hpw).
  destruct (consumer_parked_facts ring_cap c s pushed popped Hc Hs Hcp)
    as (Hcpub & Hcw).
  destruct Hcp as ((want & kind & Hcpc) & _).
  destruct Hpp as ((want' & Hppc) & _).
  rewrite Hcpc in Hpw. rewrite Hppc in Hcw. cbn in Hpw, Hcw.
  destruct Hpw as [Hpw|[]]. destruct Hcw as [Hcw|[]].
  assert (Hq : 0 <= c / 4) by (apply Z.div_pos; lia).
  assert (Hq' : c / 4 < c) by (apply Z.div_lt_upper_bound; lia).
  rewrite Hev, Hcpub, <- Hcw, Hpub in Hpw.
  replace (dist (prod_pi (queue s)) (prod_pi (queue s))) with 0 in Hpw
    by wrap_lia.
  lia.
Qed.

(** Only the [prod_sem.signal()] of [cons_notify] sets [prod_sem], and only
    the [cons_sem.signal()] of [prod_notify] sets [cons_sem]. *)
Lemma prod_sem_set_by_signal (q : SPSCQueue T) c q' c' :
  cons_step q c = Some (q', c') ->
  flag (prod_sem q) = false -> flag (prod_sem q') = true ->
  exists k, c_pc c = C_notify_signal k.
Proof.
  unfold cons_step, cons_has_data, wait. intros Hs Hf Hf'.
  destruct (c_pc c) eqn:Hpc; try (break_step Hs; cbn in Hf'; congruence).
  eauto.
Qed.

Lemma cons_sem_set_by_signal (q : SPSCQueue T) p q' p' :
  prod_step q p = Some (q', p') ->
  flag (cons_sem q) = false -> flag (cons_sem q') = true ->
  exists k, p_pc p = P_notify_signal k.
Proof.
  unfold prod_step, prod_has_space, wait. intros Hs Hf Hf'.
  destruct (p_pc p) eqn:Hpc; try (break_step Hs; cbn in Hf'; congruence).
  eauto.
Qed.

(** C6.  Push and pop never fail, and what they wait for.  Under any
    interleaving a call of [push_front] or of either [pop_back] that has
    returned has returned [true]; run on its own, a call gives [true] or
    does not return; with a free slot [push_front] returns [true] within 11
    steps, forced or not, and the item is in its slot (a push that is not
    forced does not drop it); with data [pop_back] returns [true] within 12
    steps and the container form within 12 steps plus one per element;
    without space or data the call does not return while the other thread
    stands still.

    A call that found no space or no data sleeps on its semaphore, and it
    is the semaphore that lets it go on, not the space or the data: it
    cannot step while the flag is clear and steps as soon as it is set; only
    the [signal()] inside [cons_notify] sets [prod_sem], only the one inside
    [prod_notify] sets [cons_sem].  On a fresh queue of capacity [c], in
    every interleaving: the two threads are never both asleep; while the
    producer sleeps, the published consumer index leaves at least
    [c - c/4] elements in the queue or the consumer is about to signal, and
    after a [pop_back(&container)] of an idle consumer the push runs to its
    [return true]; while the consumer sleeps, nothing is published for it or
    the producer is about to signal, and after a [push_front(x, true)] of an
    idle producer that has space the pop runs to its [return true]. *)
Theorem push_pop_never_fail (q : SPSCQueue T) :
  (forall pushed popped s,
     steps (start q) pushed popped s -> returned_true s)
  /\ (forall fuel how x force b q',
        push_front fuel how x force q = Some (b, q') -> b = true)
  /\ (forall fuel item b x q',
        pop_back fuel item q = Some (b, x, q') -> b = true)
  /\ (forall fuel container b v q',
        pop_back_vector fuel container q = Some (b, v, q') -> b = true)
  /\ (forall how x force fuel,
        fst (prod_has_space 1 q) = true -> (11 <= fuel)%nat ->
        push_front fuel how x force q
        = Some (true, push_front_fast how x force q)
        /\ ring (push_front_fast how x force q)
                (normalize_index q (prod_pi q)) = elt_forward how x
        /\ prod_pi (push_front_fast how x force q) = wrap (prod_pi q + 1))
  /\ (forall how x force fuel,
        fst (prod_has_space 1 q) = false ->
        push_front fuel how x force q = None)
  /\ (forall item fuel,
        fst (cons_has_data 1 q) = true -> (12 <= fuel)%nat ->
        exists x q', pop_back fuel item q = Some (true, x, q'))
  /\ (forall container fuel,
        fst (cons_has_data 1 q) = true ->
        (Z.to_nat (dist (__prod_index q) (cons_ci q)) + 12 <= fuel)%nat ->
        exists v q', pop_back_vector fuel container q = Some (true, v, q'))
  /\ (forall item container fuel,
        fst (cons_has_data 1 q) = false ->
        pop_back fuel item q = None
        /\ pop_back_vector fuel container q = None)
  /\ (forall p want,
        p_pc p = P_sem_wait want ->
        (flag (prod_sem q) = false -> prod_step q p = None)
        /\ (flag (prod_sem q) = true ->
            prod_step q p
            = Some (set_prod_sem {| flag := false |} q,
                    prod_goto (P_reload want) p)))
  /\ (forall c want kind,
        c_pc c = C_sem_wait want kind ->
        (flag (cons_sem q) = false -> cons_step q c = None)
        /\ (flag (cons_sem q) = true ->
            cons_step q c
            = Some (set_cons_sem {| flag := false |} q,
                    cons_goto (C_has_data Check_first want kind) c)))
  /\ (forall c q' c',
        cons_step q c = Some (q', c') ->
        flag (prod_sem q) = false -> flag (prod_sem q') = true ->
        exists k, c_pc c = C_notify_signal k)
  /\ (forall p q' p',
        prod_step q p = Some (q', p') ->
        flag (cons_sem q) = false -> flag (cons_sem q') = true ->
        exists k, p_pc p = P_notify_signal k)
  /\ (forall ring_cap c (s : system T) pushed popped,
        1 <= c < modulus ->
        steps (start (initial ring_cap c)) pushed popped s ->
        ~ (prod_parked s /\ cons_parked s)
        /\ (prod_parked s ->
            (c - c / 4
             <= dist (prod_pi (queue s)) (__cons_index (queue s)) <= c
             \/ exists n q' c', (n <= 3)%nat
                  /\ runs cons_step n (queue s) (cons s) q' c'
                  /\ flag (prod_sem q') = true)
            /\ (cons_free (cons s) = true ->
                forall container fuel,
                  (Z.to_nat c + 13 <= fuel)%nat ->
                  exists v q' q'' p'',
                    pop_back_vector fuel container (queue s)
                    = Some (true, v, q')
                    /\ run_prod fuel q' (prod s) = Some (q'', p'')
                    /\ p_pc p'' = P_return true
                    /\ prod_pi q'' = wrap (prod_pi (queue s) + 1)
                    /\ ring q'' (normalize_index (queue s)
                                                 (prod_pi (queue s)))
                       = elt_forward (p_how (prod s)) (p_item (prod s))))
        /\ (cons_parked s ->
            (available (queue s) = []
             \/ exists n q' p', (n <= 3)%nat
                  /\ runs prod_step n (queue s) (prod s) q' p'
                  /\ flag (cons_sem q') = true)
            /\ (prod_free (prod s) = true ->
                fst (prod_has_space 1 (queue s)) = true ->
                forall how x fuel,
                  (Z.to_nat c + 14 <= fuel)%nat ->
                  exists q' q'' c'',
                    push_front fuel how x true (queue s) = Some (true, q')
                    /\ run_cons fuel q' (cons s) = Some (q'', c'')
                    /\ c_pc c'' = C_return true
                    /\ 1 <= dist (cons_ci q'') (cons_ci (queue s)) <= c))).
Proof.
  destruct (push_pop_results q)
    as (H1 & H2 & H3 & H4 & H5 & H6 & H7 & H8 & H9).
  do 9 (split; [assumption|]).
  split.
  { intros p want Hpc. unfold prod_step, wait. rewrite Hpc.
    split; intros ->; reflexivity. }
  split.
  { intros c want kind Hpc. unfold cons_step, wait. rewrite Hpc.
    split; intros ->; reflexivity. }
  split; [intros c q' c'; apply prod_sem_set_by_signal|].
  split; [intros p q' p'; apply cons_sem_set_by_signal|].
  intros ring_cap c s pushed popped Hc Hs.
  split; [apply (never_both_parked ring_cap c s pushed popped); assumption|].
  split.
  - intros Hpark. split.
    + destruct (producer_parked_facts _ _ _ _ _ Hc Hs Hpark)
        as (_ & Hd & Hev & Hpw).
      destruct (wake_invariant_reachable _ _ _ _ _ Hc Hs) as (Hinv & _).
      destruct (chain_dists _ Hinv) as (_ & _ & _ & E4 & _).
      pose proof (dist_range (__cons_index (queue s)) (prod_ci (queue s))).
      destruct Hpw as [Hn | Hpend]; [left; lia|right].
      apply prod_signal_pending_runs. exact Hpend.
    + intros Hfree container fuel Hfuel.
      apply (parked_push_resumes ring_cap c s pushed popped); assumption.
  - intros Hpark. split.
    + destruct (consumer_parked_facts _ _ _ _ _ Hc Hs Hpark) as (_ & Hcw).
      destruct Hcw as [Hn | Hpend]; [left|right].
      * unfold available. rewrite Hn.
        replace (dist _ _) with 0 by wrap_lia. reflexivity.
      * apply cons_signal_pending_runs. exact Hpend.
    + intros Hfree Hsp how x fuel Hfuel.
      apply (parked_pop_resumes ring_cap c s pushed popped); assumption.
Qed.

End NeverFailBlocking.

(** ** The theorems at concrete inputs *)

Lemma occupancy_invariant_witness :
  1 <= 4
  /\ SPSCQueue_new 4 = Constructed queue4
  /\ steps (start queue4) 1 0 occupancy_demo_state
  /\ dist (prod_pi (queue occupancy_demo_state))
          (cons_ci (queue occupancy_demo_state)) = 1 - 0
  /\ 0 <= 1 - 0 <= 4.
Proof.
  assert (H1 : 1 <= 4) by lia.
  assert (H2 : SPSCQueue_new 4 = Constructed queue4) by reflexivity.
  assert (H3 : steps (start queue4) 1 0 occupancy_demo_state).
  { apply (exec_steps occupancy_demo (start queue4) (start queue4) 0 0);
      [constructor|reflexivity]. }
  destruct (occupancy_invariant 4 queue4 1 0 occupancy_demo_state H1 H2 H3)
    as (_ & Hd & Hb & _).
  split; [exact H1|]. split; [exact H2|]. split; [exact H3|].
  split; [exact Hd|exact Hb].
Defined.

Lemma threshold_crossing_witness :
  is_index 5 /\ is_index 2 /\ is_index 3 /\ dist 5 2 <= 2 ^ 63
  /\ crossed 5 2 3 = true
  /\ in_crossed_interval 5 2 3
  /\ prod_sem (cons_notify notify_demo) = signal (prod_sem notify_demo)
  /\ cons_sem (prod_notify notify_demo) = signal (cons_sem notify_demo).
Proof.
  assert (H5 : is_index 5) by (unfold is_index, modulus; cbn; lia).
  assert (H2 : is_index 2) by (unfold is_index, modulus; cbn; lia).
  assert (H3 : is_index 3) by (unfold is_index, modulus; cbn; lia).
  assert (Hd : dist 5 2 <= 2 ^ 63) by (vm_compute; discriminate).
  destruct (threshold_crossing notify_demo 5 2 3 H5 H2 H3 Hd)
    as (Hx & _ & _ & _ & Hc & Hp).
  assert (Hin : in_crossed_interval 5 2 3) by (apply Hx; reflexivity).
  do 4 (split; [assumption|]). split; [reflexivity|].
  split; [assumption|]. split.
  - apply (Hc eq_refl eq_refl eq_refl), Hin.
  - apply (Hp eq_refl eq_refl eq_refl), Hin.
Defined.

Lemma fifo_round_trip_witness :
  identity_semantics (option Z)
  /\ ring_sized packet_queue4 2
  /\ drained packet_queue4
  /\ exists q1 q2,
       push_all 12 By_move [Some 1; Some 2; Some 3] true packet_queue4
       = Some ([true; true; true], q1)
       /\ pop_all 12 3 None q1
          = Some ([true; true; true], [Some 1; Some 2; Some 3], q2)
       /\ prod_pi q2 = cons_ci q2.
Proof.
  assert (Hid : identity_semantics (option Z)) by (intros x; split; reflexivity).
  assert (Hs : ring_sized packet_queue4 2) by (split; [lia|reflexivity]).
  assert (Hd : drained packet_queue4).
  { unfold drained, is_index. cbn. repeat split; reflexivity || discriminate. }
  do 3 (split; [assumption|]).
  destruct (fifo_round_trip 2 12 By_move [Some 1; Some 2; Some 3] None
              packet_queue4 Hid Hs Hd)
    as (q1 & q2 & Hpush & Hpop & Heq & _); try (cbn; lia).
  exists q1, q2. auto.
Defined.

Lemma producer_hysteresis_witness :
  wrap (queue_capacity full_queue4 - 1)
  < dist (prod_pi full_queue4) (__cons_index full_queue4)
  /\ prod_event (prod_wait_publish 1 full_queue4) = 1
  /\ __prod_index (prod_wait_publish 1 full_queue4) = 4.
Proof.
  assert (Hfull : wrap (queue_capacity full_queue4 - 1)
                  < dist (prod_pi full_queue4) (__cons_index full_queue4))
    by reflexivity.
  destruct (producer_hysteresis 1 full_queue4 idle_producer Hfull)
    as (_ & _ & _ & He & _ & Hp & _).
  split; [assumption|]. split; [exact He|exact Hp].
Defined.

Lemma deferred_push_frame_witness :
  fst (prod_has_space 1 three_in_queue4) = true
  /\ push_front 11 By_move 4 false three_in_queue4
     = Some (true, push_front_fast By_move 4 false three_in_queue4)
  /\ __prod_index (push_front_fast By_move 4 false three_in_queue4) = 3
  /\ prod_pi (push_front_fast By_move 4 false three_in_queue4) = 4
  /\ __prod_index (push_front_fast By_move 4 true three_in_queue4) = 4.
Proof.
  assert (Hs : fst (prod_has_space 1 three_in_queue4) = true) by reflexivity.
  destruct (deferred_push_frame By_move 4 three_in_queue4 11 Hs (le_n 11))
    as (Hr & _ & Hp & _).
  split; [assumption|]. split; [exact Hr|]. split; [exact Hp|].
  split; reflexivity.
Defined.

(** C9, as the claim states it, fails when the queue is full.  On a queue of
    capacity 2 holding two elements pushed with [force = false], a third
    push with [force = false] stores [prod_pi = 2] to [__prod_index], which
    was 0, and signals [cons_sem] before it parks; all of this by producer
    steps alone.  Once the consumer has emptied the queue the push returns
    [true]. *)
Lemma deferred_push_frame_counterexample :
  prod_free (prod deferred_demo_before) = true
  /\ exec deferred_demo_parking 0 0 deferred_demo_before
     = Some (0, 0, deferred_demo_parked)
  /\ p_pc (prod deferred_demo_parked) = P_sem_wait 1
  /\ p_force (prod deferred_demo_parked) = false
  /\ __prod_index (queue deferred_demo_before) = 0
  /\ __prod_index (queue deferred_demo_parked) = 2
  /\ cons_sem (queue deferred_demo_before) = {| flag := false |}
  /\ cons_sem (queue deferred_demo_parked) = {| flag := true |}
  /\ exec deferred_demo_finishing 0 0 deferred_demo_parked
     = Some (1, 2, deferred_demo_after)
  /\ p_pc (prod deferred_demo_after) = P_return true
  /\ __prod_index (queue deferred_demo_after) = 2.
Proof. vm_compute. repeat split. Qed.



Lemma pop_back_vector_appends_witness :
  ring_sized three_in_queue4 2
  /\ 1 <= dist (__prod_index three_in_queue4) (cons_ci three_in_queue4)
     <= ring_capacity three_in_queue4
  /\ exists q',
       pop_back_vector 15 [7; 8] three_in_queue4
       = Some (true, [7; 8; 1; 2; 3], q').
Proof.
  assert (Hs : ring_sized three_in_queue4 2) by (split; [lia|reflexivity]).
  assert (Hn : 1 <= dist (__prod_index three_in_queue4)
                         (cons_ci three_in_queue4)
               <= ring_capacity three_in_queue4) by (vm_compute; split; discriminate).
  assert (Hc : is_index (cons_ci three_in_queue4))
    by (vm_compute; split; [discriminate|reflexivity]).
  assert (Hp : is_index (__prod_index three_in_queue4))
    by (vm_compute; split; [discriminate|reflexivity]).
  destruct (pop_back_vector_appends [7; 8] three_in_queue4 2 15 Hs Hc Hp Hn)
    as ((v & q' & Hr & -> & _) & _).
  { vm_compute. lia. }
  do 2 (split; [assumption|]).
  exists q'. exact Hr.
Defined.


Lemma push_pop_never_fail_witness :
  returned_true occupancy_demo_state
  /\ push_front 11 By_copy 9 false queue4
     = Some (true, push_front_fast By_copy 9 false queue4)
  /\ push_front 40 By_move 5 true full_queue4 = None
  /\ pop_back 40 0 queue4 = None
  /\ prod_step (queue parked_producer_state) (prod parked_producer_state)
     = None
  /\ (exists v q' q'' p'',
        pop_back_vector 15 [] (queue parked_producer_state)
        = Some (true, v, q')
        /\ run_prod 15 q' (prod parked_producer_state) = Some (q'', p'')
        /\ p_pc p'' = P_return true)
  /\ (exists q' q'' c'',
        push_front 18 By_move 5 true (queue parked_consumer_state)
        = Some (true, q')
        /\ run_cons 18 q' (cons parked_consumer_state) = Some (q'', c'')
        /\ c_pc c'' = C_return true).
Proof.
  destruct (push_pop_never_fail queue4)
    as (Hret & _ & _ & _ & Hpush & _).
  destruct (push_pop_never_fail full_queue4)
    as (_ & _ & _ & _ & _ & Hfull & _).
  destruct (push_pop_never_fail queue4)
    as (_ & _ & _ & _ & _ & _ & _ & _ & Hempty & _).
  destruct (push_pop_never_fail (queue parked_producer_state))
    as (_ & _ & _ & _ & _ & _ & _ & _ & _ & Hsem & _ & _ & _ & Hblock).
  assert (Hc2 : 1 <= 2 < modulus) by (split; [lia|reflexivity]).
  assert (Hc4 : 1 <= 4 < modulus) by (split; [lia|reflexivity]).
  assert (Hs2 : steps (start (initial 2 2)) 2 0 parked_producer_state).
  { apply (exec_steps parked_producer_demo (start (initial 2 2))
                      (start (initial 2 2)) 0 0);
      [constructor|vm_compute; reflexivity]. }
  assert (Hs4 : steps (start queue4) 0 0 parked_consumer_state).
  { apply (exec_steps parked_consumer_demo (start queue4) (start queue4) 0 0);
      [constructor|vm_compute; reflexivity]. }
  assert (Hpp : prod_parked parked_producer_state).
  { split; [exists 1|]; vm_compute; reflexivity. }
  assert (Hcp : cons_parked parked_consumer_state).
  { split; [exists 1, Pop_vector|]; vm_compute; reflexivity. }
  destruct (Hblock 2 2 parked_producer_state 2 0 Hc2 Hs2)
    as (_ & Hprod & _).
  destruct (Hblock 4 4 parked_consumer_state 0 0 Hc4 Hs4)
    as (_ & _ & Hcons).
  split; [|split; [|split; [|split; [|split; [|split]]]]].
  - apply (Hret 1 0).
    apply (exec_steps occupancy_demo (start queue4) (start queue4) 0 0);
      [constructor|reflexivity].
  - apply (Hpush By_copy 9 false 11%nat); [reflexivity|lia].
  - apply Hfull. reflexivity.
  - apply (Hempty 0 [] 40%nat). reflexivity.
  - apply (Hsem (prod parked_producer_state) 1);
      vm_compute; reflexivity.
  - destruct (Hprod Hpp) as (_ & Hgo).
    destruct (Hgo ltac:(vm_compute; reflexivity) [] 15%nat (le_n 15))
      as (v & q' & q'' & p'' & Hr & Hrun & Hfin & _).
    exists v, q', q'', p''. auto.
  - destruct (Hcons Hcp) as (_ & Hgo).
    destruct (Hgo ltac:(vm_compute; reflexivity)
                  ltac:(vm_compute; reflexivity) By_move 5 18%nat (le_n 18))
      as (q' & q'' & c'' & Hr & Hrun & Hfin & _).
    exists q', q'', c''. auto.
Defined.

(** C6, as the claim states it, fails: a push does not block until space is
    available.  With one slot free the ninth push sleeps and cannot step,
    and run alone it does not return; it still sleeps after six more pops,
    with seven slots free; the consumer signals when it has taken the last
    element it saw. *)
Lemma push_blocked_with_space_counterexample :
  exec lazy_wake_demo 0 0 (start (initial 8 8))
  = Some (8, 1, lazy_wake_state)
  /\ p_pc (prod lazy_wake_state) = P_sem_wait 1
  /\ c_pc (cons lazy_wake_state) = C_return true
  /\ fst (prod_has_space 1 (queue lazy_wake_state)) = true
  /\ dist (prod_pi (queue lazy_wake_state)) (cons_ci (queue lazy_wake_state))
     = 7
  /\ prod_sem (queue lazy_wake_state) = {| flag := false |}
  /\ prod_step (queue lazy_wake_state) (prod lazy_wake_state) = None
  /\ run_prod 100 (queue lazy_wake_state) (prod lazy_wake_state) = None
  /\ exec lazy_wake_pops 8 1 lazy_wake_state = Some (8, 7, lazy_wake_later)
  /\ p_pc (prod lazy_wake_later) = P_sem_wait 1
  /\ c_pc (cons lazy_wake_later) = C_return true
  /\ dist (prod_pi (queue lazy_wake_later)) (cons_ci (queue lazy_wake_later))
     = 1
  /\ fst (prod_has_space 1 (queue lazy_wake_later)) = true
  /\ prod_step (queue lazy_wake_later) (prod lazy_wake_later) = None
  /\ exec (Do_pop_item 0 :: repeat Do_cons 12) 8 7 lazy_wake_later
     = Some (8, 8, lazy_wake_last)
  /\ prod_sem (queue lazy_wake_last) = {| flag := true |}.
Proof. vm_compute. repeat split. Qed.

Lemma fifo_interleaved_witness :
  history (start (initial (2 ^ 2) 4)) [7; 8; 9] [7] fifo_demo_state
  /\ [7] = map received (firstn 1 [7; 8; 9])
  /\ live fifo_demo_state = [8; 9].
Proof.
  assert (He : 0 <= 2 < 64) by lia.
  assert (Hc : 1 <= 4 <= 2 ^ 2) by (cbn; lia).
  assert (Hh : history (start (initial (2 ^ 2) 4)) [7; 8; 9] [7]
                       fifo_demo_state).
  { apply (replay_history fifo_demo (start (initial (2 ^ 2) 4))
                          (start (initial (2 ^ 2) 4)) [] []);
      [constructor|vm_compute; reflexivity]. }
  destruct (fifo_interleaved 2 4 fifo_demo_state [7; 8; 9] [7] He Hc Hh)
    as (Ho & Hl & _).
  split; [exact Hh|]. split; [exact Ho|exact Hl].
Defined.

Lemma store_spares_live_elements_witness :
  steps (start (initial (2 ^ 2) 4)) 0 0 storing_demo_state
  /\ p_pc (prod storing_demo_state) = P_store
  /\ 0 <= normalize_index (queue storing_demo_state)
                          (prod_pi (queue storing_demo_state))
       < ring_capacity (queue storing_demo_state).
Proof.
  assert (He : 0 <= 2 < 64) by lia.
  assert (Hc : 1 <= 4 <= 2 ^ 2) by (cbn; lia).
  assert (Hs : steps (start (initial (2 ^ 2) 4)) 0 0 storing_demo_state).
  { apply (exec_steps storing_demo (start (initial (2 ^ 2) 4))
                      (start (initial (2 ^ 2) 4)) 0 0);
      [constructor|vm_compute; reflexivity]. }
  assert (Hp : p_pc (prod storing_demo_state) = P_store)
    by (vm_compute; reflexivity).
  destruct (store_spares_live_elements 2 4 storing_demo_state 0 0 He Hc Hs Hp)
    as (Hr & _).
  split; [exact Hs|]. split; [exact Hp|exact Hr].
Defined.

Lemma consumer_reads_published_witness :
  steps (start queue4) 3 1 fifo_demo_state
  /\ dist (__prod_index (queue fifo_demo_state))
          (cons_ci (queue fifo_demo_state))
     <= dist (prod_pi (queue fifo_demo_state))
             (cons_ci (queue fifo_demo_state))
  /\ dist (prod_pi (queue fifo_demo_state)) (cons_ci (queue fifo_demo_state))
     <= 4.
Proof.
  assert (Hc : 1 <= 4 < modulus) by (split; [lia|reflexivity]).
  assert (Hs : steps (start queue4) 3 1 fifo_demo_state).
  { apply (exec_steps fifo_demo (start queue4) (start queue4) 0 0);
      [constructor|vm_compute; reflexivity]. }
  destruct (consumer_reads_published 4 4 fifo_demo_state 3 1 Hc Hs)
    as (_ & Hp & Hb & _).
  split; [exact Hs|]. split; [exact Hp|exact Hb].
Defined.

Lemma producer_wake_up_not_lost_witness :
  steps (start (initial 2 2)) 2 0 parked_producer_state
  /\ prod_parked parked_producer_state
  /\ __prod_index (queue parked_producer_state)
     = prod_pi (queue parked_producer_state)
  /\ dist (prod_pi (queue parked_producer_state))
          (prod_ci (queue parked_producer_state)) = 2.
Proof.
  assert (Hc : 1 <= 2 < modulus) by (split; [lia|reflexivity]).
  assert (Hs : steps (start (initial 2 2)) 2 0 parked_producer_state).
  { apply (exec_steps parked_producer_demo (start (initial 2 2))
                      (start (initial 2 2)) 0 0);
      [constructor|vm_compute; reflexivity]. }
  assert (Hp : prod_parked parked_producer_state).
  { split; [exists 1|]; vm_compute; reflexivity. }
  destruct (producer_wake_up_not_lost 2 2 parked_producer_state 2 0 Hc Hs Hp)
    as (Hpub & Hd & _).
  split; [exact Hs|]. split; [exact Hp|]. split; [exact Hpub|exact Hd].
Defined.

Lemma consumer_wake_up_not_lost_witness :
  steps (start queue4) 0 0 parked_consumer_state
  /\ cons_parked parked_consumer_state
  /\ __cons_index (queue parked_consumer_state)
     = cons_ci (queue parked_consumer_state).
Proof.
  assert (Hc : 1 <= 4 < modulus) by (split; [lia|reflexivity]).
  assert (Hs : steps (start queue4) 0 0 parked_consumer_state).
  { apply (exec_steps parked_consumer_demo (start queue4) (start queue4) 0 0);
      [constructor|vm_compute; reflexivity]. }
  assert (Hp : cons_parked parked_consumer_state).
  { split; [exists 1, Pop_vector|]; vm_compute; reflexivity. }
  destruct (consumer_wake_up_not_lost 4 4 parked_consumer_state 0 0 Hc Hs Hp)
    as (Hpub & _).
  split; [exact Hs|]. split; [exact Hp|exact Hpub].
Defined.

Lemma push_pop_never_deadlock_witness :
  steps (start queue4) 0 0 busy_demo_state
  /\ prod_free (prod busy_demo_state) = false
  /\ cons_free (cons busy_demo_state) = false
  /\ ((exists q' p',
         prod_step (queue busy_demo_state) (prod busy_demo_state)
         = Some (q', p'))
      \/ (exists q' c',
            cons_step (queue busy_demo_state) (cons busy_demo_state)
            = Some (q', c'))).
Proof.
  assert (Hc : 1 <= 4 < modulus) by (split; [lia|reflexivity]).
  assert (Hs : steps (start queue4) 0 0 busy_demo_state).
  { apply (exec_steps busy_demo (start queue4) (start queue4) 0 0);
      [constructor|vm_compute; reflexivity]. }
  assert (Hp : prod_free (prod busy_demo_state) = false)
    by (vm_compute; reflexivity).
  assert (Hq : cons_free (cons busy_demo_state) = false)
    by (vm_compute; reflexivity).
  split; [exact Hs|]. split; [exact Hp|]. split; [exact Hq|].
  exact (push_pop_never_deadlock 4 4 busy_demo_state 0 0 Hc Hs Hp Hq).
Defined.

Lemma available_in_push_order_witness :
  history (start (initial (2 ^ 2) 4)) [7; 8; 9] [7] fifo_demo_state
  /\ taken_ahead (c_pc (cons fifo_demo_state)) = 0
  /\ available (queue fifo_demo_state) = [8].
Proof.
  assert (He : 0 <= 2 < 64) by lia.
  assert (Hc : 1 <= 4 <= 2 ^ 2) by (cbn; lia).
  assert (Hh : history (start (initial (2 ^ 2) 4)) [7; 8; 9] [7]
                       fifo_demo_state).
  { apply (replay_history fifo_demo (start (initial (2 ^ 2) 4))
                          (start (initial (2 ^ 2) 4)) [] []);
      [constructor|vm_compute; reflexivity]. }
  assert (Ht : taken_ahead (c_pc (cons fifo_demo_state)) = 0)
    by (vm_compute; reflexivity).
  destruct (available_in_push_order 2 4 fifo_demo_state [7; 8; 9] [7]
              He Hc Hh Ht) as (Ha & _).
  split; [exact Hh|]. split; [exact Ht|].
  rewrite Ha. vm_compute. reflexivity.
Defined.

Lemma pop_back_publishes_when_drained_witness :
  is_index (__prod_index three_in_queue4)
  /\ 1 <= dist (__prod_index three_in_queue4) (cons_ci three_in_queue4)
  /\ exists x q',
       pop_back 12 0 three_in_queue4 = Some (true, x, q')
       /\ cons_ci q' = wrap (cons_ci three_in_queue4 + 1)
       /\ __cons_index q' = __cons_index three_in_queue4.
Proof.
  assert (Hp : is_index (__prod_index three_in_queue4))
    by (vm_compute; split; [discriminate|reflexivity]).
  assert (Hd : 1 <= dist (__prod_index three_in_queue4)
                         (cons_ci three_in_queue4))
    by (vm_compute; discriminate).
  destruct (pop_back_publishes_when_drained 0 three_in_queue4 12 Hp Hd
              (le_n 12)) as (x & q' & Hr & Hci & _ & Hmore).
  split; [exact Hp|]. split; [exact Hd|].
  exists x, q'. split; [exact Hr|]. split; [exact Hci|].
  apply Hmore. vm_compute. discriminate.
Defined.

Lemma consumer_wait_protocol_witness :
  dist (__prod_index queue4) (cons_ci queue4) < 1
  /\ fst (cons_has_data 1 queue4) = false
  /\ cons_event (cons_wait_publish 1 queue4) = wrap (cons_ci queue4 + 1 - 1)
  /\ __cons_index (cons_wait_publish 1 queue4) = cons_ci queue4.
Proof.
  assert (Hd : dist (__prod_index queue4) (cons_ci queue4) < 1)
    by reflexivity.
  destruct (consumer_wait_protocol 1 Pop_item queue4 idle_consumer Hd)
    as (Hno & _ & _ & _ & Hev & Hpub & _).
  split; [exact Hd|]. split; [exact Hno|]. split; [exact Hev|exact Hpub].
Defined.

Lemma constructor_rounds_up_witness :
  1 <= 512 <= 2 ^ 32
  /\ exists e,
       SPSCQueue_new (T := option Z) 512 = Constructed (initial (2 ^ e) 512)
       /\ 512 <= 2 ^ e < 2 * 512.
Proof.
  assert (Hc : 1 <= 512 <= 2 ^ 32) by (split; [lia|vm_compute; discriminate]).
  destruct (constructor_rounds_up (T := option Z) 512 Hc)
    as (e & _ & Hn & Hr & _).
  split; [exact Hc|]. exists e. split; [exact Hn|exact Hr].
Defined.

Lemma batch_pop_wakes_producer_witness :
  steps (start (initial 2 2)) 2 0 parked_producer_state
  /\ prod_parked parked_producer_state
  /\ cons_free (cons parked_producer_state) = true
  /\ exists v q',
       pop_back_vector 14 [] (queue parked_producer_state)
       = Some (true, v, q')
       /\ flag (prod_sem q') = true.
Proof.
  assert (Hc : 1 <= 2 < modulus) by (split; [lia|reflexivity]).
  assert (Hs : steps (start (initial 2 2)) 2 0 parked_producer_state).
  { apply (exec_steps parked_producer_demo (start (initial 2 2))
                      (start (initial 2 2)) 0 0);
      [constructor|vm_compute; reflexivity]. }
  assert (Hp : prod_parked parked_producer_state).
  { split; [exists 1|]; vm_compute; reflexivity. }
  assert (Hf : cons_free (cons parked_producer_state) = true)
    by (vm_compute; reflexivity).
  destruct (batch_pop_wakes_producer 2 2 parked_producer_state 2 0 [] 14
              Hc Hs Hp Hf (le_n 14)) as (v & q' & Hr & _ & _ & _ & Hflag).
  split; [exact Hs|]. split; [exact Hp|]. split; [exact Hf|].
  exists v, q'. split; [exact Hr|exact Hflag].
Defined.

Lemma forced_push_wakes_consumer_witness :
  steps (start queue4) 0 0 parked_consumer_state
  /\ cons_parked parked_consumer_state
  /\ prod_free (prod parked_consumer_state) = true
  /\ exists q',
       push_front 11 By_move 5 true (queue parked_consumer_state)
       = Some (true, q')
       /\ flag (cons_sem q') = true.
Proof.
  assert (Hc : 1 <= 4 < modulus) by (split; [lia|reflexivity]).
  assert (Hs : steps (start queue4) 0 0 parked_consumer_state).
  { apply (exec_steps parked_consumer_demo (start queue4) (start queue4) 0 0);
      [constructor|vm_compute; reflexivity]. }
  assert (Hp : cons_parked parked_consumer_state).
  { split; [exists 1, Pop_vector|]; vm_compute; reflexivity. }
  assert (Hf : prod_free (prod parked_consumer_state) = true)
    by (vm_compute; reflexivity).
  destruct (forced_push_wakes_consumer 4 4 parked_consumer_state 0 0
              By_move 5 Hc Hs Hp Hf) as (Hspace & _).
  assert (Hsp : fst (prod_has_space 1 (queue parked_consumer_state)) = true)
    by (vm_compute; reflexivity).
  destruct (Hspace Hsp 11%nat (le_n 11)) as (q' & Hr & _ & Hflag).
  split; [exact Hs|]. split; [exact Hp|]. split; [exact Hf|].
  exists q'. split; [exact Hr|exact Hflag].
Defined.

Lemma deferred_pushes_delivered_at_once_witness :
  ring_sized queue4 2
  /\ drained queue4
  /\ exists q1 q2 q3,
       push_all 16 By_move [1; 2] false queue4 = Some ([true; true], q1)
       /\ available q1 = []
       /\ push_front 16 By_move 3 true q1 = Some (true, q2)
       /\ available q2 = [1; 2; 3]
       /\ pop_back_vector 16 [0] q2 = Some (true, [0; 1; 2; 3], q3).
Proof.
  assert (Hs : ring_sized queue4 2) by (split; [lia|reflexivity]).
  assert (Hd : drained queue4).
  { unfold drained, is_index. cbn. repeat split; reflexivity || discriminate. }
  destruct (deferred_pushes_delivered_at_once 2 16 By_move [1; 2] 3 [0]
              queue4 Hs Hd)
    as (q1 & q2 & q3 & H1 & H2 & _ & H3 & H4 & H5 & _);
    try (cbn; lia); try reflexivity.
  split; [exact Hs|]. split; [exact Hd|].
  exists q1, q2, q3. repeat (split; [assumption|]). exact H5.
Defined.

Lemma normalize_index_cyclic_witness :
  ring_sized queue4 2
  /\ is_index (2 ^ 64 - 1)
  /\ normalize_index queue4 (2 ^ 64 - 1) = 3
  /\ normalize_index queue4 (wrap (2 ^ 64 - 1 + 1)) = 0.
Proof.
  assert (Hs : ring_sized queue4 2) by (split; [lia|reflexivity]).
  assert (Hi : is_index (2 ^ 64 - 1))
    by (vm_compute; split; [discriminate|reflexivity]).
  destruct (normalize_index_cyclic queue4 2 (2 ^ 64 - 1) Hs Hi)
    as (_ & Hn & _).
  split; [exact Hs|]. split; [exact Hi|]. split; [reflexivity|].
  rewrite Hn. reflexivity.
Defined.

Lemma blocked_push_completes_witness :
  steps (start (initial 2 2)) 2 0 parked_producer_state
  /\ prod_parked parked_producer_state
  /\ cons_free (cons parked_producer_state) = true
  /\ exists v q' q'' p'',
       pop_back_vector 15 [] (queue parked_producer_state)
       = Some (true, v, q')
       /\ run_prod 15 q' (prod parked_producer_state) = Some (q'', p'')
       /\ p_pc p'' = P_return true.
Proof.
  assert (Hc : 1 <= 2 < modulus) by (split; [lia|reflexivity]).
  assert (Hs : steps (start (initial 2 2)) 2 0 parked_producer_state).
  { apply (exec_steps parked_producer_demo (start (initial 2 2))
                      (start (initial 2 2)) 0 0);
      [constructor|vm_compute; reflexivity]. }
  assert (Hp : prod_parked parked_producer_state).
  { split; [exists 1|]; vm_compute; reflexivity. }
  assert (Hf : cons_free (cons parked_producer_state) = true)
    by (vm_compute; reflexivity).
  destruct (blocked_push_completes 2 2 parked_producer_state 2 0 [] 15
              Hc Hs Hp Hf (le_n 15))
    as (v & q' & q'' & p'' & Hr & Hrun & Hret & _).
  split; [exact Hs|]. split; [exact Hp|]. split; [exact Hf|].
  exists v, q', q'', p''. split; [exact Hr|]. split; [exact Hrun|exact Hret].
Defined.

Lemma blocked_pop_completes_witness :
  steps (start queue4) 0 0 parked_consumer_state
  /\ cons_parked parked_consumer_state
  /\ prod_free (prod parked_consumer_state) = true
  /\ fst (prod_has_space 1 (queue parked_consumer_state)) = true
  /\ exists q' q'' c'',
       push_front 18 By_move 5 true (queue parked_consumer_state)
       = Some (true, q')
       /\ run_cons 18 q' (cons parked_consumer_state) = Some (q'', c'')
       /\ c_pc c'' = C_return true.
Proof.
  assert (Hc : 1 <= 4 < modulus) by (split; [lia|reflexivity]).
  assert (Hs : steps (start queue4) 0 0 parked_consumer_state).
  { apply (exec_steps parked_consumer_demo (start queue4) (start queue4) 0 0);
      [constructor|vm_compute; reflexivity]. }
  assert (Hp : cons_parked parked_consumer_state).
  { split; [exists 1, Pop_vector|]; vm_compute; reflexivity. }
  assert (Hf : prod_free (prod parked_consumer_state) = true)
    by (vm_compute; reflexivity).
  assert (Hsp : fst (prod_has_space 1 (queue parked_consumer_state)) = true)
    by (vm_compute; reflexivity).
  destruct (blocked_pop_completes 4 4 parked_consumer_state 0 0 By_move 5 18
              Hc Hs Hp Hf Hsp (le_n 18))
    as (q' & q'' & c'' & Hr & Hrun & Hret & _).
  split; [exact Hs|]. split; [exact Hp|]. split; [exact Hf|].
  split; [exact Hsp|].
  exists q', q'', c''. split; [exact Hr|]. split; [exact Hrun|exact Hret].
Defined.
